(** * Atmospheric balloons: ingestion and identity pipeline

    A shallow embedding of the snapshot endpoint ([api/balloons/route.ts]),
    the shape normaliser ([lib/balloons.ts]), the identity tracker and the
    map features ([components/MapboxBalloons.tsx]), the wind bins
    ([components/overlays/BalloonPanel.tsx]) and the context endpoint
    ([app/api/context/route.ts]), with the properties the specification
    states about them and further properties of the code.

    JavaScript numbers are IEEE-754 binary64 values: they are modelled by
    Rocq's primitive floats, whose operations are the same.  Values known to
    be small integers (an hour bucket, a millisecond clock, the identifier
    counter) are modelled by [Z] and [N]; a double represents every integer
    below [2^53] exactly, so the arithmetic agrees on that range. *)

From Stdlib Require Import ZArith Ascii String Floats Reals Lra Lia.
From stdpp Require Import base decidable option list strings countable gmap pretty.

Local Open Scope string_scope.
Local Open Scope list_scope.
Local Open Scope nat_scope.

(** ** The JavaScript runtime *)

Module Js.

#[local] Set Warnings "-register-all".

(** Values of type [unknown] that [JSON.parse] can produce, and [undefined],
    which reading past the end of an array or a missing property yields. *)
Inductive value : Type :=
| VUndefined
| VNull
| VBool (b : bool)
| VNum (n : float)
| VStr (s : string)
| VArr (xs : list value)
| VObj (fields : list (string * value)).

(** [xs[i]] *)
Definition index (xs : list value) (i : nat) : value := nth i xs VUndefined.

(** Whether the properties [fields] of an object have the key [k]. *)
Fixpoint hasField (k : string) (fields : list (string * value)) : bool :=
  match fields with
  | [] => false
  | (k', _) :: rest => if String.eqb k k' then true else hasField k rest
  end.

(** The value of the key [k] among the properties [fields]. *)
Fixpoint getField (k : string) (fields : list (string * value)) : value :=
  match fields with
  | [] => VUndefined
  | (k', v) :: rest => if String.eqb k k' then v else getField k rest
  end.

(** ["k" in x], for a name [k] that is no index and not [length]: an object
    built by [JSON.parse] has it when it is one of its own properties, an
    array has not. *)
Definition hasProp (k : string) (x : value) : bool :=
  match x with
  | VObj fields => hasField k fields
  | _ => false
  end.

(** [x.k], for such a name. *)
Definition getProp (k : string) (x : value) : value :=
  match x with
  | VObj fields => getField k fields
  | _ => VUndefined
  end.

(** Truthiness of a value ([Boolean(x)], the test of [if (x)]). *)
Definition truthy (x : value) : bool :=
  match x with
  | VUndefined | VNull => false
  | VBool b => b
  | VNum n => negb (PrimFloat.is_nan n || PrimFloat.is_zero n)
  | VStr s => negb (String.eqb s "")
  | VArr _ | VObj _ => true
  end.

(** [Number.isFinite(x)] on a number. *)
Definition Number_isFinite (x : float) : bool := PrimFloat.is_finite x.

(** [Math.abs] *)
Definition Math_abs (x : float) : float := PrimFloat.abs x.

(** [Math.PI], the double nearest to pi (3.141592653589793). *)
Definition Math_PI : float := 0x1.921fb54442d18p+1%float.

(** The value of a finite double [(-1)^s * m * 2^e] as a real number. *)
Definition realOf (x : float) : R :=
  match Prim2SF x with
  | S754_finite s m e =>
      let z := if s then Z.neg m else Z.pos m in
      if (0 <=? e)%Z then IZR (z * 2 ^ e) else (IZR z / IZR (2 ^ (- e)))%R
  | _ => 0%R
  end.

(** The integer [z] as a double; exact for [|z| <= 2^53]. *)
Definition float_of_Z (z : Z) : float :=
  if (z <? 0)%Z
  then PrimFloat.opp (PrimFloat.of_uint63 (Uint63.of_Z (- z)))
  else PrimFloat.of_uint63 (Uint63.of_Z z).

(** The largest integer not above the finite value [(-1)^s * m * 2^e]. *)
Definition floor_finite (s : bool) (m : positive) (e : Z) : Z :=
  let z := if s then Z.neg m else Z.pos m in
  if (0 <=? e)%Z then Z.shiftl z e else Z.shiftr z (- e).

(** [Math.floor] as an integer, for a finite argument. *)
Definition Math_floorZ (x : float) : Z :=
  match Prim2SF x with
  | S754_finite s m e => floor_finite s m e
  | _ => 0%Z
  end.

(** [Math.floor]: zeros, infinities and NaN are returned as they are, and
    so is a value with a non-negative exponent, which is an integer. *)
Definition Math_floor (x : float) : float :=
  match Prim2SF x with
  | S754_finite s m e =>
      if (0 <=? e)%Z then x else float_of_Z (floor_finite s m e)
  | _ => x
  end.

(** [Math.min] of two numbers: NaN if either is NaN, and [-0] below [+0]. *)
Definition Math_min (a b : float) : float :=
  if PrimFloat.is_nan a || PrimFloat.is_nan b then PrimFloat.nan
  else if (a <? b)%float then a
  else if (b <? a)%float then b
  else if PrimFloat.get_sign a then a else b.

(** The part of the runtime the ECMAScript standard leaves to the
    implementation ("implementation-approximated" functions), and
    [JSON.stringify] on a value other than [undefined]. *)
Class Runtime : Type := {
  Math_sin : float → float;
  Math_cos : float → float;
  Math_asin : float → float;
  JSON_stringify : value → string;
  (** [Number(s)] on a string *)
  Number_ofString : string → float;
}.

(** [s.slice(0, n)] *)
Definition slice0 (n : nat) (s : string) : string := String.substring 0 n s.

(** What a function call does: it returns, or it throws an [Error] with a
    message. *)
Inductive result (A : Type) : Type :=
| Returns (a : A)
| Throws (msg : string).
Global Arguments Returns {A} a.
Global Arguments Throws {A} msg.

(** What [await fetch(url)] gives: the promise rejects (a transport
    failure), or there is a response with its [ok] flag, its status and
    what [res.json()] does on its body. *)
Inductive FetchOutcome : Type :=
| FetchRejects (msg : string)
| FetchResponds (ok : bool) (status : N) (json : result value).

(** [s.padStart(2, "0")] *)
Definition padStart2 (s : string) : string :=
  match String.length s with
  | 0 => "00"
  | 1 => "0" +:+ s
  | _ => s
  end.

End Js.

(** ** [lib/balloons.ts]: the shape normaliser *)

Module Balloons.
Import Js.

Record BalloonPoint : Type := mkPoint {
  lat : float;
  lon : float;
  meta : option float;
}.

Inductive Source : Type := upstream | cache.

Record BalloonsPayload : Type := mkPayload {
  hoursAgo : float;
  source : Source;
  cacheAgeSeconds : option float;
  points : list BalloonPoint;
}.

Definition isNumber (x : value) : bool :=
  match x with
  | VNum n => Number_isFinite n
  | _ => false
  end.

(** [typeof x === "object" && x !== null] *)
Definition isRecord (x : value) : bool :=
  match x with
  | VArr _ | VObj _ => true
  | _ => false
  end.

Definition unwrapPayload (raw : value) : value :=
  if isRecord raw && hasProp "data" raw then getProp "data" raw else raw.

Definition normalizePoint (p : value) : option BalloonPoint :=
  match p with
  | VArr xs =>
      if (length xs <? 2)%nat then None
      else
        let a := index xs 0 in
        let b := index xs 1 in
        let meta := index xs 2 in
        if negb (isNumber a) || negb (isNumber b) then None
        else
          match a, b with
          | VNum a, VNum b =>
              let looksLikeLonLat :=
                (90 <? Math_abs a)%float && (Math_abs b <=? 90)%float in
              let lat := if looksLikeLonLat then b else a in
              let lon := if looksLikeLonLat then a else b in
              if (90 <? Math_abs lat)%float || (180 <? Math_abs lon)%float
              then None
              else
                Some (mkPoint lat lon
                        (match meta with
                         | VNum m => if isNumber meta then Some m else None
                         | _ => None
                         end))
          | _, _ => None
          end
  | _ => None
  end.

Definition isFlatPointsShape (data : value) : bool :=
  match data with
  | VArr [] => true
  | VArr (first :: _) =>
      match first with
      | VArr f =>
          (2 <=? length f)%nat && isNumber (index f 0) && isNumber (index f 1)
      | _ => false
      end
  | _ => false
  end.

Definition isTracksShape (data : value) : bool :=
  match data with
  | VArr [] => true
  | VArr (firstTrack :: _) =>
      match firstTrack with
      | VArr [] => false
      | VArr (firstPoint :: _) =>
          match firstPoint with
          | VArr f =>
              (2 <=? length f)%nat && isNumber (index f 0) && isNumber (index f 1)
          | _ => false
          end
      | _ => false
      end
  | _ => false
  end.

(** [track => Array.isArray(track) && track.length ? track[track.length - 1] : null] *)
Definition lastOfTrack (track : value) : value :=
  match track with
  | VArr t => if (length t =? 0)%nat then VNull else index t (length t - 1)
  | _ => VNull
  end.

(** The preview of the error message.  [JSON.stringify(undefined)] is
    [undefined], whose [slice] raises; the handler then gives
    [String(data)]. *)
Definition preview `{Runtime} (data : value) : string :=
  match data with
  | VUndefined => "undefined"
  | _ => slice0 200 (JSON_stringify data)
  end.

Definition extractLatestPositions `{Runtime} (raw : value)
  : result (list BalloonPoint) :=
  let data := unwrapPayload raw in
  match data with
  | VArr [] => Returns []
  | _ =>
      if isFlatPointsShape data then
        match data with
        | VArr xs => Returns (omap normalizePoint xs)
        | _ => Returns []
        end
      else if isTracksShape data then
        match data with
        | VArr tracks => Returns (omap normalizePoint (map lastOfTrack tracks))
        | _ => Returns []
        end
      else Throws ("Unexpected balloon data shape. Preview: " +:+ preview data)
  end.

(** [meta?.k], where [meta] is [raw] if it is a record and [null] otherwise. *)
Definition fieldOf (raw : value) (k : string) : value :=
  if isRecord raw then getProp k raw else VUndefined.

(** [outcome] is what [fetch] of the [/api/balloons] route gives. *)
Definition fetchLatestBalloonsWithMeta `{Runtime} (outcome : FetchOutcome)
    (hoursAgo : float) : result BalloonsPayload :=
  match outcome with
  | FetchRejects msg => Throws msg
  | FetchResponds ok status json =>
      if negb ok then Throws ("API fetch failed: " +:+ pretty status)
      else
        match json with
        | Throws msg => Throws msg
        | Returns raw =>
            match extractLatestPositions raw with
            | Throws msg => Throws msg
            | Returns points =>
                let resolvedHoursAgo :=
                  match fieldOf raw "hoursAgo" with
                  | VNum h => if isNumber (VNum h) then h else hoursAgo
                  | _ => hoursAgo
                  end in
                let resolvedSource :=
                  match fieldOf raw "source" with
                  | VStr s => if String.eqb s "cache" then cache else upstream
                  | _ => upstream
                  end in
                let resolvedCacheAgeSeconds :=
                  match fieldOf raw "cacheAgeSeconds" with
                  | VNum a => if isNumber (VNum a) then Some a else None
                  | _ => None
                  end in
                Returns (mkPayload resolvedHoursAgo resolvedSource
                                   resolvedCacheAgeSeconds points)
            end
        end
  end.

End Balloons.

(** ** [app/api/balloons/route.ts]: the snapshot endpoint *)

Module Route.
Import Js.
Export Balloons (Source, upstream, cache).

Record CacheEntry : Type := mkCache {
  timestampMs : Z;
  hoursAgo : Z;
  data : value;
}.

(** The body and status handed to [NextResponse.json]. *)
Inductive Response : Type :=
| Ok200 (hoursAgo : Z) (source : Source) (cacheAgeSeconds : option Z) (data : value)
| Err502 (error details : string).

Definition clampHoursAgo (v : float) : Z :=
  if negb (Number_isFinite v) then 0%Z
  else Z.max 0 (Z.min 23 (Math_floorZ v)).

Definition upstreamUrl (hh : string) : string :=
  "https://a.windbornesystems.com/treasure/" +:+ hh +:+ ".json".

Definition fetchUpstream (net : string → FetchOutcome) (hoursAgo : Z)
  : result value :=
  let hh := padStart2 (pretty hoursAgo) in
  match net (upstreamUrl hh) with
  | FetchRejects msg => Throws msg
  | FetchResponds ok status json =>
      if negb ok
      then Throws ("Upstream " +:+ hh +:+ ".json failed: " +:+ pretty status)
      else json
  end.

(** [for (let h = requestedHoursAgo; h <= 23; h++) candidates.push(h)] *)
Definition candidates (requestedHoursAgo : Z) : list Z :=
  seqZ requestedHoursAgo (24 - requestedHoursAgo).

(** [Math.round(ageMs / 1000)]: the nearest integer, a half rounded up. *)
Definition roundSeconds (ageMs : Z) : Z := ((ageMs + 500) / 1000)%Z.

(** What one call of the handler does: the response, the cache slot after
    it, and the hour buckets it asked the upstream for, in order. *)
Record Outcome : Type := mkOutcome {
  response : Response;
  cacheAfter : option CacheEntry;
  attempts : list Z;
}.

(** How the loop over the candidates ends: at the first bucket [h] whose
    fetch returns, or past the last one with the last error caught. *)
Inductive LoopEnd : Type :=
| Fetched (h : Z) (data : value) (tried : list Z)
| AllFailed (lastError : option string) (tried : list Z).

Fixpoint tryCandidates (net : string → FetchOutcome) (hs : list Z)
    (lastError : option string) (tried : list Z) : LoopEnd :=
  match hs with
  | [] => AllFailed lastError tried
  | h :: rest =>
      match fetchUpstream net h with
      | Returns data => Fetched h data (tried ++ [h])
      | Throws e => tryCandidates net rest (Some e) (tried ++ [h])
      end
  end.

(** [globalThis.__balloonCache?.data] as a condition *)
Definition cachePresent (balloonCache : option CacheEntry) : bool :=
  match balloonCache with
  | Some c => truthy (data c)
  | None => false
  end.

(** [lastError instanceof Error ? lastError.message : String(lastError)];
    everything the loop catches is an [Error], and [lastError] starts as
    [null]. *)
Definition errorDetails (lastError : option string) : string :=
  default "null" lastError.

(** [hoursAgoParam] is [searchParams.get("hoursAgo")]; [now] is what
    [Date.now()] returns when the handler reads the clock. *)
Definition GET `{Runtime} (net : string → FetchOutcome) (now : Z)
    (hoursAgoParam : option string) (balloonCache : option CacheEntry)
  : Outcome :=
  let requestedHoursAgo :=
    clampHoursAgo (Number_ofString (default "0" hoursAgoParam)) in
  match tryCandidates net (candidates requestedHoursAgo) None [] with
  | Fetched h data tried =>
      mkOutcome (Ok200 h upstream None data) (Some (mkCache now h data)) tried
  | AllFailed lastError tried =>
      match balloonCache with
      | Some c =>
          if cachePresent balloonCache then
            let ageMs := (now - timestampMs c)%Z in
            mkOutcome
              (Ok200 (hoursAgo c) cache (Some (roundSeconds ageMs)) (data c))
              balloonCache tried
          else
            mkOutcome
              (Err502 "No upstream data available and no cached fallback present."
                      (errorDetails lastError))
              balloonCache tried
      | None =>
          mkOutcome
            (Err502 "No upstream data available and no cached fallback present."
                    (errorDetails lastError))
            balloonCache tried
      end
  end.

End Route.

(** ** The normaliser and the endpoint as the specification words them *)

Module BalloonsSpec.
Import Js.
Export Balloons.

(** A value is a list that starts with two numbers (finite ones). *)
Definition pointLike (v : value) : Prop :=
  ∃ a b rest, v = VArr (VNum a :: VNum b :: rest)
              ∧ Number_isFinite a = true ∧ Number_isFinite b = true.

(** The attribute kept from what follows the two coordinates. *)
Definition attributeOf (rest : list value) : option float :=
  match rest with
  | VNum m :: _ => if Number_isFinite m then Some m else None
  | _ => None
  end.

End BalloonsSpec.

Module RouteSpec.
Import Js.
Export Route.

(** The attempt on bucket [h] fails. *)
Definition fails (net : string → FetchOutcome) (h : Z) : Prop :=
  ∃ e, fetchUpstream net h = Throws e.

(** The age of a bucket in two decimal digits, [00] to [23]. *)
Definition twoDigits (h : Z) : string :=
  String (ascii_of_nat (48 + Z.to_nat (h / 10)))
         (String (ascii_of_nat (48 + Z.to_nat (h mod 10))) EmptyString).

(** The address of the bucket of age [h] at the upstream. *)
Definition bucketUrl (h : Z) : string :=
  "https://a.windbornesystems.com/treasure/" +:+ twoDigits h +:+ ".json".

(** The upstream answers for the bucket [h] with [data]: the response to
    the request of its address is ok (a status from 200 to 299) and its
    body is the JSON [data]. *)
Definition bucketAnswers (net : string → FetchOutcome) (h : Z) (data : value)
  : Prop :=
  ∃ status, net (bucketUrl h) = FetchResponds true status (Returns data).

(** The bucket [h] fails with the error [e]: the request of its address is
    rejected with [e] (a transport error), or the response is not ok and
    [e] names the bucket and the status, or the response is ok and reading
    its body as JSON throws [e]. *)
Definition bucketFailsWith (net : string → FetchOutcome) (h : Z) (e : string)
  : Prop :=
  net (bucketUrl h) = FetchRejects e
  ∨ (∃ status json,
       net (bucketUrl h) = FetchResponds false status json
       ∧ e = "Upstream " +:+ twoDigits h +:+ ".json failed: " +:+ pretty status)
  ∨ (∃ status, net (bucketUrl h) = FetchResponds true status (Throws e)).

Definition bucketFails (net : string → FetchOutcome) (h : Z) : Prop :=
  ∃ e, bucketFailsWith net h e.

End RouteSpec.

(** ** [components/MapboxBalloons.tsx]: the identity tracker *)

Module Tracker.
Import Js.
Export Balloons.

Definition haversineKm `{Runtime} (aLat aLon bLat bLon : float) : float :=
  let R := 6371%float in
  let toRad (d : float) := (d * Math_PI / 180)%float in
  let dLat := toRad (bLat - aLat)%float in
  let dLon := toRad (bLon - aLon)%float in
  let s1 := Math_sin (dLat / 2)%float in
  let s2 := Math_sin (dLon / 2)%float in
  let q := (s1 * s1 + Math_cos (toRad aLat) * Math_cos (toRad bLat) * s2 * s2)%float in
  (2 * R * Math_asin (Math_min 1 (PrimFloat.sqrt q)))%float.

Definition BIN_DEG : float := 1%float.

(** A number as a template literal prints it.  [Number::toString] gives
    different numbers different texts, except that [-0] prints as [0]; the
    model keeps the decoded number with the sign of zero dropped, and a key
    [y,x] as the pair of two such. *)
Definition numText (v : float) : spec_float :=
  match Prim2SF v with
  | S754_zero _ => S754_zero false
  | sf => sf
  end.

Definition binKeyT : Type := spec_float * spec_float.

Definition binKey (lat lon : float) : binKeyT :=
  let x := Math_floor ((lon + 180) / BIN_DEG)%float in
  let y := Math_floor ((lat + 90) / BIN_DEG)%float in
  (numText y, numText x).

Definition neighborBinKeys (lat lon : float) : list binKeyT :=
  let x0 := Math_floor ((lon + 180) / BIN_DEG)%float in
  let y0 := Math_floor ((lat + 90) / BIN_DEG)%float in
  dy ← [(-1)%float; 0%float; 1%float];
  dx ← [(-1)%float; 0%float; 1%float];
  [(numText (y0 + dy)%float, numText (x0 + dx)%float)].

Global Instance spec_float_eq_dec : EqDecision spec_float.
Proof. solve_decision. Defined.

Definition spec_float_encode (f : spec_float)
  : bool + bool + unit + bool * positive * Z :=
  match f with
  | S754_zero s => inl (inl (inl s))
  | S754_infinity s => inl (inl (inr s))
  | S754_nan => inl (inr ())
  | S754_finite s m e => inr (s, m, e)
  end.

Definition spec_float_decode (x : bool + bool + unit + bool * positive * Z)
  : spec_float :=
  match x with
  | inl (inl (inl s)) => S754_zero s
  | inl (inl (inr s)) => S754_infinity s
  | inl (inr _) => S754_nan
  | inr (s, m, e) => S754_finite s m e
  end.

Global Program Instance spec_float_countable : Countable spec_float :=
  inj_countable' spec_float_encode spec_float_decode _.
Next Obligation. by intros []. Qed.

(** A previous position, the value type of [prevByIdRef]. *)
Record LatLon : Type := mkLatLon {
  ll_lat : float;
  ll_lon : float;
}.

(** An element of a bin. *)
Record BinEntry : Type := mkEntry {
  e_id : string;
  e_lat : float;
  e_lon : float;
}.

(** An element of [out]. *)
Record Stabilized : Type := mkStabilized {
  s_id : string;
  s_lat : float;
  s_lon : float;
  s_meta : option float;
  s_idx : nat;
}.

(** A [Map<string, V>] whose iteration order matters: the entries in
    insertion order.  [set] on a key already present replaces its value
    where it stands. *)
Fixpoint Map_set {V} (k : string) (v : V) (m : list (string * V))
  : list (string * V) :=
  match m with
  | [] => [(k, v)]
  | (k', v') :: rest =>
      if String.eqb k k' then (k, v) :: rest else (k', v') :: Map_set k v rest
  end.

(** The two refs the component keeps across polls. *)
Record Refs : Type := mkRefs {
  nextIdRef : N;
  prevByIdRef : list (string * LatLon);
}.

Definition initialRefs : Refs := mkRefs 1 [].

Definition addToBins (bins : gmap binKeyT (list BinEntry))
    (entry : string * LatLon) : gmap binKeyT (list BinEntry) :=
  let '(id, p) := entry in
  let k := binKey (ll_lat p) (ll_lon p) in
  let arr := default [] (bins !! k) in
  <[k := arr ++ [mkEntry id (ll_lat p) (ll_lon p)]]> bins.

Definition buildBins (prevById : list (string * LatLon))
  : gmap binKeyT (list BinEntry) :=
  foldl addToBins ∅ prevById.

Definition MATCH_KM : float := 150%float.

(** The body of the loop over the candidates of one bin. *)
Definition scanCandidate `{Runtime} (usedPrevIds : gset string)
    (p : BalloonPoint) (best : option string * float) (c : BinEntry)
  : option string * float :=
  if bool_decide (e_id c ∈ usedPrevIds) then best
  else
    let km := haversineKm (lat p) (lon p) (e_lat c) (e_lon c) in
    if (km <? best.2)%float then (Some (e_id c), km) else best.

(** The body of the loop over the neighbour keys. *)
Definition scanBin `{Runtime} (bins : gmap binKeyT (list BinEntry))
    (usedPrevIds : gset string) (p : BalloonPoint)
    (best : option string * float) (nk : binKeyT) : option string * float :=
  match bins !! nk with
  | None => best
  | Some candidates => foldl (scanCandidate usedPrevIds p) best candidates
  end.

(** [bestId] and [bestKm] after both loops. *)
Definition findBest `{Runtime} (bins : gmap binKeyT (list BinEntry))
    (usedPrevIds : gset string) (p : BalloonPoint) : option string * float :=
  foldl (scanBin bins usedPrevIds p) (None, PrimFloat.infinity)
        (neighborBinKeys (lat p) (lon p)).

(** The state of the loop over the points. *)
Record Loop : Type := mkLoop {
  usedPrevIds : gset string;
  nextId : N;
  out : list Stabilized;
}.

Definition mint (st : Loop) (p : BalloonPoint) (idx : nat) : Loop :=
  let newId := "b" +:+ pretty (nextId st) in
  mkLoop (usedPrevIds st) (nextId st + 1)
         (out st ++ [mkStabilized newId (lat p) (lon p) (meta p) idx]).

Definition claim (st : Loop) (bestId : string) (p : BalloonPoint) (idx : nat)
  : Loop :=
  mkLoop ({[bestId]} ∪ usedPrevIds st) (nextId st)
         (out st ++ [mkStabilized bestId (lat p) (lon p) (meta p) idx]).

(** One turn of the loop over the points.  [bestId && ...] tests the
    string for truth: the empty string fails it. *)
Definition stepPoint `{Runtime} (bins : gmap binKeyT (list BinEntry))
    (st : Loop) (idx : nat) (p : BalloonPoint) : Loop :=
  let '(bestId, bestKm) := findBest bins (usedPrevIds st) p in
  match bestId with
  | Some id =>
      if negb (String.eqb id "") && (bestKm <=? MATCH_KM)%float
      then claim st id p idx
      else mint st p idx
  | None => mint st p idx
  end.

Fixpoint loopPoints `{Runtime} (bins : gmap binKeyT (list BinEntry))
    (idx : nat) (points : list BalloonPoint) (st : Loop) : Loop :=
  match points with
  | [] => st
  | p :: rest => loopPoints bins (S idx) rest (stepPoint bins st idx p)
  end.

Definition newPrevOf (out : list Stabilized) : list (string * LatLon) :=
  foldl (λ newPrev p, Map_set (s_id p) (mkLatLon (s_lat p) (s_lon p)) newPrev)
        [] out.

(** [assignStableIds] reads and writes the two refs: it takes them and
    returns them with [out]. *)
Definition assignStableIds `{Runtime} (refs : Refs) (points : list BalloonPoint)
  : list Stabilized * Refs :=
  let prevById := prevByIdRef refs in
  let bins := buildBins prevById in
  let st := loopPoints bins 0 points (mkLoop ∅ (nextIdRef refs) []) in
  (out st, mkRefs (nextId st) (newPrevOf (out st))).

(** What [setFreshness] stores (the two time stamps left out). *)
Record Freshness : Type := mkFreshness {
  f_hoursAgo : float;
  f_source : Source;
  f_cacheAgeSeconds : option float;
  f_points : nat;
}.

(** The state of the component that a poll reads or writes. *)
Record Component : Type := mkComponent {
  inFlightRef : bool;
  refs : Refs;
  error : option string;
  balloonsLoading : bool;
  freshness : option Freshness;
  fcRef : option (list Stabilized);
}.

(** One call of [refreshBalloons], run to its end; [outcome] is what the
    fetch of the route gives during it. *)
Definition refreshBalloons `{Runtime} (outcome : FetchOutcome) (c : Component)
  : Component :=
  if inFlightRef c then c
  else
    match fetchLatestBalloonsWithMeta outcome 0 with
    | Returns payload =>
        let '(stabilized, refs') := assignStableIds (refs c) (points payload) in
        mkComponent false refs' None false
          (Some (mkFreshness (hoursAgo payload) (source payload)
                             (cacheAgeSeconds payload) (length stabilized)))
          (Some stabilized)
    | Throws msg =>
        mkComponent false (refs c) (Some msg) false (freshness c) (fcRef c)
    end.

(** The states of the two refs the component can be in: the initial ones,
    and those a call of [assignStableIds] leaves. *)
Inductive reachable `{Runtime} : Refs → Prop :=
| reachable_initial : reachable initialRefs
| reachable_poll refs points :
    reachable refs → reachable (assignStableIds refs points).2.

End Tracker.

(** ** The tracker as the specification words it *)

Module TrackerSpec.
Import Js.
Export Tracker.

Definition entryOf (entry : string * LatLon) : BinEntry :=
  mkEntry entry.1 (ll_lat entry.2) (ll_lon entry.2).

Definition cellOf (e : BinEntry) : binKeyT := binKey (e_lat e) (e_lon e).

Definition distanceKm `{Runtime} (p : BalloonPoint) (e : BinEntry) : float :=
  haversineKm (lat p) (lon p) (e_lat e) (e_lon e).

(** The previous points in the nine cells around [p] that no earlier point
    of this poll has claimed. *)
Definition candidatesFor (prevById : list (string * LatLon))
    (used : gset string) (p : BalloonPoint) : list BinEntry :=
  filter (λ e, cellOf e ∈ neighborBinKeys (lat p) (lon p) ∧ e_id e ∉ used)
         (entryOf <$> prevById).

(** [e] is a candidate at minimum distance: its distance is a number below
    infinity and no candidate is strictly nearer. *)
Definition nearest `{Runtime} (p : BalloonPoint) (cands : list BinEntry)
    (e : BinEntry) : Prop :=
  e ∈ cands ∧
  (distanceKm p e <? PrimFloat.infinity)%float = true ∧
  ∀ e', e' ∈ cands → (distanceKm p e' <? distanceKm p e)%float = false.

(** [Assigned prev used n idx points out n']: from the claimed set [used]
    and the counter [n], the points, taken in list order from index [idx],
    get the identifiers of [out], and the counter ends at [n']. *)
Inductive Assigned `{Runtime} (prevById : list (string * LatLon))
  : gset string → N → nat → list BalloonPoint → list Stabilized → N → Prop :=
| Assigned_done used n idx :
    Assigned prevById used n idx [] [] n
| Assigned_claim used n idx p points e out n' :
    nearest p (candidatesFor prevById used p) e →
    (distanceKm p e <=? 150)%float = true →
    Assigned prevById ({[e_id e]} ∪ used) n (S idx) points out n' →
    Assigned prevById used n idx (p :: points)
      (mkStabilized (e_id e) (lat p) (lon p) (meta p) idx :: out) n'
| Assigned_mint used n idx p points out n' :
    (∀ e, nearest p (candidatesFor prevById used p) e →
          (distanceKm p e <=? 150)%float = false) →
    Assigned prevById used (n + 1) (S idx) points out n' →
    Assigned prevById used n idx (p :: points)
      (mkStabilized ("b" +:+ pretty n) (lat p) (lon p) (meta p) idx :: out) n'.

(** The identifier minted from the counter value [n]. *)
Definition mintedId (n : N) : string := "b" +:+ pretty n.

(** Every identifier of [ids] was minted from a number below [n]. *)
Definition idsBelow (n : N) (ids : list string) : Prop :=
  ∀ id, id ∈ ids → ∃ k, id = mintedId k ∧ (k < n)%N.

(** The invariant of the two refs. *)
Definition RefsOk (r : Refs) : Prop :=
  idsBelow (nextIdRef r) (prevByIdRef r).*1 ∧ NoDup (prevByIdRef r).*1.

(** The entry of the new table for an element of [out]. *)
Definition pairOf (o : Stabilized) : string * LatLon :=
  (s_id o, mkLatLon (s_lat o) (s_lon o)).

(** The previous points that the two loops visit for [p], in that order. *)
Definition scanned (prevById : list (string * LatLon)) (p : BalloonPoint)
  : list BinEntry :=
  nk ← neighborBinKeys (lat p) (lon p);
  filter (λ e, cellOf e = nk) (entryOf <$> prevById).

(** What [bestId] and [bestKm] say about the candidates seen so far. *)
Definition bestOf `{Runtime} (used : gset string) (p : BalloonPoint)
    (seen : list BinEntry) (best : option string * float) : Prop :=
  (∀ e', e' ∈ seen → e_id e' ∉ used →
         (distanceKm p e' <? (snd best))%float = false)
  ∧ match fst best with
    | None => snd best = PrimFloat.infinity
    | Some id =>
        ∃ e, e ∈ seen ∧ e_id e = id ∧ (id ∉ used)
             ∧ snd best = distanceKm p e
             ∧ (distanceKm p e <? PrimFloat.infinity)%float = true
    end.

(** [len] consecutive numbers from [n] on. *)
Fixpoint countFrom (n : N) (len : nat) : list N :=
  match len with
  | 0 => []
  | S len => n :: countFrom (n + 1) len
  end.

(** The identifiers of [out] that the previous table does not have. *)
Definition freshIds (prevById : list (string * LatLon)) (out : list Stabilized)
  : list string :=
  filter (λ id, id ∉ prevById.*1) (s_id <$> out).

(** [ran minted refs]: the two refs after some polls from the start of the
    process, and the identifiers minted in those polls, oldest first. *)
Inductive ran `{Runtime} : list string → Refs → Prop :=
| ran_initial : ran [] initialRefs
| ran_poll minted refs points :
    ran minted refs →
    ran (minted ++ freshIds (prevByIdRef refs) (assignStableIds refs points).1)
        (assignStableIds refs points).2.

(** The great-circle distance in kilometres by the haversine formula on a
    sphere of radius 6371 km, over the reals. *)
Definition greatCircleKm (aLat aLon bLat bLon : R) : R :=
  let toRad (d : R) := (d * PI / 180)%R in
  let s1 := sin (toRad (bLat - aLat) / 2)%R in
  let s2 := sin (toRad (bLon - aLon) / 2)%R in
  let q := (s1 * s1 + cos (toRad aLat) * cos (toRad bLat) * s2 * s2)%R in
  (2 * 6371 * asin (Rmin 1 (sqrt q)))%R.

End TrackerSpec.

(** ** A runtime to run the model on examples *)

Module Sample.
Import Js.

Definition sin3 (x : float) : float := (x - x * x * x / 6)%float.
Definition cos2 (x : float) : float := (1 - x * x / 2)%float.
Definition asin3 (x : float) : float := (x + x * x * x / 6)%float.

Definition digit (c : ascii) : option Z :=
  let n := Z.of_nat (nat_of_ascii c) in
  if ((48 <=? n) && (n <=? 57))%Z then Some (n - 48)%Z else None.

Fixpoint digits (acc : Z) (s : string) : option Z :=
  match s with
  | EmptyString => Some acc
  | String c rest =>
      match digit c with
      | Some d => digits (10 * acc + d) rest
      | None => None
      end
  end.

(** Decimal digits only; any other text is not a number. *)
Definition numberOfString (s : string) : float :=
  match digits 0 s with
  | Some z => float_of_Z z
  | None => PrimFloat.nan
  end.

(** Arrays of integers print as JSON prints them; the rest is a stand-in. *)
Fixpoint stringify (v : value) : string :=
  match v with
  | VUndefined | VNull => "null"
  | VBool b => if b then "true" else "false"
  | VNum n => pretty (Math_floorZ n)
  | VStr s => s
  | VArr xs =>
      "[" +:+
      (fix items (xs : list value) : string :=
         match xs with
         | [] => EmptyString
         | [x] => stringify x
         | x :: rest => stringify x +:+ "," +:+ items rest
         end) xs
      +:+ "]"
  | VObj _ => "{}"
  end.

Definition runtime : Runtime :=
  {| Math_sin := sin3; Math_cos := cos2; Math_asin := asin3;
     JSON_stringify := stringify; Number_ofString := numberOfString |}.

End Sample.

(** ** Data for the examples *)

Module Examples.
Import Js.
Export TrackerSpec.

(** Two polls on the sample runtime: the first mints [b1] at (10, 20) and
    [b2] at (60, 60); in the second the point at (10.25, 20.25) keeps
    [b1], and a point far from both gets the fresh [b3]. *)
Definition firstPoll : list BalloonPoint :=
  [mkPoint 10 20 None; mkPoint 60 60 None]%float.

Definition secondPoll : list BalloonPoint :=
  [mkPoint 10.25 20.25 None; mkPoint (-45) 100 (Some 7)]%float.

Definition afterFirstPoll : Refs :=
  (assignStableIds (H := Sample.runtime) initialRefs firstPoll).2.

Definition componentAfterFirstPoll : Component :=
  mkComponent false afterFirstPoll None false None None.

(** What the route answers for the second poll. *)
Definition secondAnswer : FetchOutcome :=
  FetchResponds true 200
    (Returns (VObj [("hoursAgo", VNum 0); ("source", VStr "upstream");
                    ("data", VArr [VArr [VNum 10.25; VNum 20.25];
                                   VArr [VNum (-45); VNum 100; VNum 7]])]))%float.

(** Two positions on the equator, half a degree on either side of the
    180th meridian. *)
Definition east : LatLon := mkLatLon 0 179.5.
Definition west : BalloonPoint := mkPoint 0 (-179.5) None.

End Examples.

(** ** More of [lib/balloons.ts] *)

Module BalloonsMore.
Import Js.
Export BalloonsSpec.

(** [outcome] is what [fetch] of the [/api/balloons] route gives; the
    argument [hoursAgo] of the source only goes into the address. *)
Definition fetchLatestBalloons `{Runtime} (outcome : FetchOutcome)
  : result (list BalloonPoint) :=
  match outcome with
  | FetchRejects msg => Throws msg
  | FetchResponds ok status json =>
      if negb ok then Throws ("API fetch failed: " +:+ pretty status)
      else
        match json with
        | Throws msg => Throws msg
        | Returns raw => extractLatestPositions raw
        end
  end.

(** A point with finite coordinates in range, and a finite attribute if it
    has one. *)
Definition validPoint (pt : BalloonPoint) : Prop :=
  Number_isFinite (lat pt) = true
  ∧ Number_isFinite (lon pt) = true
  ∧ (Math_abs (lat pt) <=? 90)%float = true
  ∧ (Math_abs (lon pt) <=? 180)%float = true
  ∧ ∀ m, meta pt = Some m → Number_isFinite m = true.

(** A point written as the list [[lat, lon]] or [[lat, lon, meta]]. *)
Definition encodePoint (pt : BalloonPoint) : value :=
  VArr (VNum (lat pt) :: VNum (lon pt)
        :: match meta pt with Some m => [VNum m] | None => [] end).

End BalloonsMore.

(** ** More of the snapshot endpoint *)

Module RouteMore.
Import Js.
Export RouteSpec.

(** The address [fetchUpstream] asks for the bucket [h]. *)
Definition urlOf (h : Z) : string := upstreamUrl (padStart2 (pretty h)).

End RouteMore.

(** ** [components/overlays/BalloonPanel.tsx] and the map features *)

Module Panel.
Import Js.
Export Tracker.

Inductive WindBin : Type := w0 | w1 | w2 | w3.

Definition windBin250 (speedMs : float) : WindBin :=
  if (45 <=? speedMs)%float then w3
  else if (30 <=? speedMs)%float then w2
  else if (20 <=? speedMs)%float then w1
  else w0.

(** The properties of a feature; [null] is [None]. *)
Record FeatureProps : Type := mkProps {
  fp_id : string;
  fp_meta : option float;
  fp_windSpeedMs : option float;
  fp_windBin : WindBin;
}.

(** A feature: its coordinates, longitude first, and its properties. *)
Record Feature : Type := mkFeature {
  coordinates : float * float;
  properties : FeatureProps;
}.

(** The feature [refreshBalloons] makes of an element of [stabilized]. *)
Definition featureOf (p : Stabilized) : Feature :=
  mkFeature (s_lon p, s_lat p) (mkProps (s_id p) (s_meta p) None w0).

(** The loop of the context effect over [fc.features]: the first feature
    with the selected identifier gets the wind speed and its bin, and the
    loop stops. *)
Fixpoint markWind (selectedId : string) (speed : float) (bin : WindBin)
    (features : list Feature) : list Feature :=
  match features with
  | [] => []
  | feat :: rest =>
      let props := properties feat in
      if String.eqb (fp_id props) selectedId
      then mkFeature (coordinates feat)
                     (mkProps (fp_id props) (fp_meta props) (Some speed) bin)
           :: rest
      else feat :: markWind selectedId speed bin rest
  end.

(** The place of a bin in the order of the legend. *)
Definition binRank (b : WindBin) : nat :=
  match b with w0 => 0 | w1 => 1 | w2 => 2 | w3 => 3 end.

(** A feature with the wind written into it. *)
Definition withWind (speed : float) (feat : Feature) : Feature :=
  mkFeature (coordinates feat)
            (mkProps (fp_id (properties feat)) (fp_meta (properties feat))
                     (Some speed) (windBin250 speed)).

End Panel.

(** ** The answer of the endpoint as the browser reads it *)

Module Wire.
Import Js.
Export Route.

(** A number after [JSON.stringify] and [JSON.parse]: one that is not
    finite is written [null], and minus zero is written [0]. *)
Definition numberOnWire (n : float) : option float :=
  if Number_isFinite n
  then Some (if PrimFloat.is_zero n then 0%float else n)
  else None.

(** A value inside a list or an object after [JSON.stringify] and
    [JSON.parse]: [undefined] is written [null] in a list, and a property
    that is [undefined] is left out. *)
Fixpoint wire (v : value) : value :=
  match v with
  | VUndefined => VNull
  | VNull => VNull
  | VBool b => VBool b
  | VNum n =>
      match numberOnWire n with
      | Some m => VNum m
      | None => VNull
      end
  | VStr s => VStr s
  | VArr xs => VArr (map wire xs)
  | VObj fields =>
      VObj ((fix props (fs : list (string * value)) : list (string * value) :=
               match fs with
               | [] => []
               | (k, VUndefined) :: rest => props rest
               | (k, x) :: rest => (k, wire x) :: props rest
               end) fields)
  end.

Definition sourceText (s : Source) : string :=
  match s with
  | upstream => "upstream"
  | cache => "cache"
  end.

(** The object handed to [NextResponse.json]. *)
Definition bodyOf (r : Response) : value :=
  match r with
  | Ok200 h src None data =>
      VObj [("hoursAgo", VNum (float_of_Z h)); ("source", VStr (sourceText src));
            ("data", data)]
  | Ok200 h src (Some age) data =>
      VObj [("hoursAgo", VNum (float_of_Z h)); ("source", VStr (sourceText src));
            ("cacheAgeSeconds", VNum (float_of_Z age)); ("data", data)]
  | Err502 error details =>
      VObj [("error", VStr error); ("details", VStr details)]
  end.

Definition statusOf (r : Response) : N :=
  match r with
  | Ok200 _ _ _ _ => 200%N
  | Err502 _ _ => 502%N
  end.

(** What the [fetch] of the browser gives when the route answers [r]. *)
Definition served (r : Response) : FetchOutcome :=
  FetchResponds ((200 <=? statusOf r)%N && (statusOf r <=? 299)%N) (statusOf r)
                (Returns (wire (bodyOf r))).

(** A value that the wire leaves as it is: no [undefined], and only
    numbers that are finite and not minus zero. *)
Fixpoint plain (v : value) : Prop :=
  match v with
  | VUndefined => False
  | VNum n => numberOnWire n = Some n
  | VArr xs =>
      (fix all (xs : list value) : Prop :=
         match xs with
         | [] => True
         | x :: rest => plain x ∧ all rest
         end) xs
  | VObj fields =>
      (fix all (fs : list (string * value)) : Prop :=
         match fs with
         | [] => True
         | (_, x) :: rest => plain x ∧ all rest
         end) fields
  | _ => True
  end.

End Wire.

(** ** [app/api/context/route.ts]: jet wind and station rarity at a point *)

Module ContextRoute.
Import Js.
Export Balloons (isNumber, isRecord).

(** What the route asks of the host besides [Runtime]: the text of a
    number with two decimals ([n.toFixed(2)]), the text of a number in a
    template string, and [Date.parse]. *)
Class Host : Type := {
  Number_toFixed2 : float → string;
  Number_toString : float → string;
  Date_parse : value → float;
}.

(** The argument is [searchParams.get(name)], [None] for [null]. *)
Definition toNum `{Runtime} (v : option string) : option float :=
  match v with
  | None => None
  | Some s =>
      let n := Number_ofString s in
      if Number_isFinite n then Some n else None
  end.

Definition isStringArray (x : value) : bool :=
  match x with
  | VArr xs => forallb (λ v, match v with VStr _ => true | _ => false end) xs
  | _ => false
  end.

Definition isNumberArray (x : value) : bool :=
  match x with
  | VArr xs => forallb isNumber xs
  | _ => false
  end.

(** [while (x < -180) x += 360]; [None] when [fuel] tests do not end it. *)
Fixpoint clampLon_up (fuel : nat) (x : float) : option float :=
  match fuel with
  | O => None
  | S fuel' =>
      if (x <? -180)%float then clampLon_up fuel' (x + 360)%float else Some x
  end.

(** [while (x >= 180) x -= 360] *)
Fixpoint clampLon_down (fuel : nat) (x : float) : option float :=
  match fuel with
  | O => None
  | S fuel' =>
      if (180 <=? x)%float then clampLon_down fuel' (x - 360)%float else Some x
  end.

Definition clampLon (fuel : nat) (lon : float) : option float :=
  x ← clampLon_up fuel lon; clampLon_down fuel x.

Definition cellKey `{Host} (fuel : nat) (lat lon resDeg : float)
  : option string :=
  x ← clampLon fuel lon;
  let latIdx := Math_floor ((lat + 90) / resDeg)%float in
  let lonIdx := Math_floor ((x + 180) / resDeg)%float in
  Some (Number_toString latIdx +:+ "," +:+ Number_toString lonIdx).

Definition rarityLabel (score : float) : string :=
  if (90 <=? score)%float then "very rare"
  else if (70 <=? score)%float then "rare"
  else if (40 <=? score)%float then "uncommon"
  else "common".

(** The grid file, read as the type [Grid] that the route asserts of it. *)
Record Cell : Type := mkCell {
  surface : float;
  upper : float;
  density : float;
  rarity : float;
}.

Record Grid : Type := mkGrid {
  resDeg : float;
  cells : gmap string Cell;
}.

(** [loaded] is [globalThis.__rarityGrid]; [file] is what reading and
    parsing [public/rarity-grid.json] does.  The result comes with the
    global afterwards. *)
Definition loadGrid (loaded : option Grid) (file : result Grid)
  : result Grid * option Grid :=
  match loaded with
  | Some grid => (Returns grid, loaded)
  | None =>
      match file with
      | Returns grid => (Returns grid, Some grid)
      | Throws msg => (Throws msg, None)
      end
  end.

Record Jet : Type := mkJet {
  validTime : value;
  speed_ms : value;
  direction_deg : option float;
}.

Record RarityBlock : Type := mkRarity {
  score : float;
  label : string;
  surfaceStationsInCell : float;
  upperAirStationsInCell : float;
  rarity_resDeg : float;
}.

Record ContextValue : Type := mkValue {
  requested : float * float;
  jet : Jet;
  rarityOf : RarityBlock;
  hit : bool;
}.

Inductive Response : Type :=
| Ok200 (body : ContextValue)
| Err400 (error : string)
| Err502 (error : string) (status : option N) (reason : option string).

(** An entry of [globalThis.__contextCache]. *)
Record Entry : Type := mkEntry {
  ts : Z;
  cachedValue : ContextValue;
}.

(** The globals of the module; a cache that was never created reads as an
    empty one. *)
Record Globals : Type := mkGlobals {
  contextCache : gmap string Entry;
  rarityGrid : option Grid;
}.

Record Outcome : Type := mkOutcome {
  response : result Response;
  globalsAfter : Globals;
}.

(** Whether the time step [t] is one that [Date.parse] reads and that is
    not after [nowMs]. *)
Definition notAfter `{Host} (nowMs : Z) (t : value) : bool :=
  Number_isFinite (Date_parse t) && (Date_parse t <=? float_of_Z nowMs)%float.

(** The loop over [times] from the index [i] on, [idx] being the index
    chosen so far. *)
Fixpoint latestFrom `{Host} (nowMs : Z) (i idx : nat) (times : list value)
  : nat :=
  match times with
  | [] => idx
  | t :: rest => latestFrom nowMs (S i) (if notAfter nowMs t then i else idx) rest
  end.

Definition latestIndex `{Host} (nowMs : Z) (times : list value) : nat :=
  latestFrom nowMs 0 0 times.

Definition reasonOf (omJson : value) : string :=
  match getProp "reason" omJson with
  | VStr s => s
  | _ => "Unknown"
  end.

Definition listOf (x : value) : list value :=
  match x with
  | VArr xs => xs
  | _ => []
  end.

(** The part of the handler between the answer of Open-Meteo and the
    lookup of the grid: an error response, or the wind at the latest time
    step. *)
Definition jetOf `{Host} (nowMs : Z) (ok : bool) (status : N) (omJson : value)
  : Response + Jet :=
  if negb ok then
    inl (Err502 "Open-Meteo failed" (Some status)
                (Some (if isRecord omJson then reasonOf omJson else "Unknown")))
  else if negb (isRecord omJson) then
    inl (Err502 "Open-Meteo invalid JSON shape" None None)
  else
    match getProp "error" omJson with
    | VBool true =>
        inl (Err502 "Open-Meteo failed" (Some 502%N) (Some (reasonOf omJson)))
    | _ =>
        let hourly := getProp "hourly" omJson in
        if negb (isRecord hourly) then
          inl (Err502 "Open-Meteo missing hourly" None None)
        else
          let times := getProp "time" hourly in
          let ws := getProp "wind_speed_250hPa" hourly in
          let wd := getProp "wind_direction_250hPa" hourly in
          if negb (isStringArray times) || negb (isNumberArray ws) then
            inl (Err502 "Open-Meteo missing arrays" None None)
          else
            let wdArr := if isNumberArray wd then listOf wd else [] in
            if (length (listOf times) =? 0)
               || negb (length (listOf ws) =? length (listOf times)) then
              inl (Err502 "Open-Meteo missing arrays" None None)
            else
              let idx := latestIndex nowMs (listOf times) in
              let windSpeed := index (listOf ws) idx in
              let windDir :=
                match index wdArr idx with
                | VNum d => if Number_isFinite d then Some d else None
                | _ => None
                end in
              inr (mkJet (index (listOf times) idx) windSpeed windDir)
    end.

(** The rarity of the cell of a point in a grid. *)
Definition rarityAt `{Host} (fuel : nat) (grid : Grid) (lat lon : float)
  : option RarityBlock :=
  k ← cellKey fuel lat lon (resDeg grid);
  let cell := cells grid !! k in
  let rarityScore := from_option rarity 100%float cell in
  Some (mkRarity rarityScore (rarityLabel rarityScore)
                 (from_option surface 0%float cell)
                 (from_option upper 0%float cell)
                 (resDeg grid)).

(** The handler after a miss of the cache. *)
Definition answerFresh `{Host} (fuel : nat) (g : Globals) (key : string)
    (lat lon : float) (now nowMs : Z) (om : FetchOutcome)
    (gridFile : result Grid) : option Outcome :=
  match om with
  | FetchRejects msg => Some (mkOutcome (Throws msg) g)
  | FetchResponds ok status (Throws msg) => Some (mkOutcome (Throws msg) g)
  | FetchResponds ok status (Returns omJson) =>
      match jetOf nowMs ok status omJson with
      | inl err => Some (mkOutcome (Returns err) g)
      | inr j =>
          match loadGrid (rarityGrid g) gridFile with
          | (Throws msg, loaded) =>
              Some (mkOutcome (Throws msg) (mkGlobals (contextCache g) loaded))
          | (Returns grid, loaded) =>
              r ← rarityAt fuel grid lat lon;
              let v := mkValue (lat, lon) j r false in
              Some (mkOutcome (Returns (Ok200 v))
                              (mkGlobals (<[key := mkEntry now v]> (contextCache g))
                                         loaded))
          end
      end
  end.

Definition cacheKey `{Host} (lat lon : float) : string :=
  Number_toFixed2 lat +:+ "," +:+ Number_toFixed2 lon.

Definition withHit (v : ContextValue) : ContextValue :=
  mkValue (requested v) (jet v) (rarityOf v) true.

(** [latParam] and [lonParam] are the query parameters, [now] and [nowMs]
    the two readings of the clock, [om] what the [fetch] of Open-Meteo
    gives and [gridFile] what reading the grid file gives.  The result is
    [None] when the loops of [clampLon] need more than [fuel] tests. *)
Definition GET `{Runtime} `{Host} (fuel : nat) (g : Globals)
    (latParam lonParam : option string) (now nowMs : Z)
    (om : FetchOutcome) (gridFile : result Grid) : option Outcome :=
  match toNum latParam, toNum lonParam with
  | Some lat, Some lon =>
      if (90 <? Math_abs lat)%float || (180 <? Math_abs lon)%float then
        Some (mkOutcome (Returns (Err400 "Missing/invalid lat/lon")) g)
      else
        let key := cacheKey lat lon in
        match contextCache g !! key with
        | Some cached =>
            if (now - ts cached <? 10 * 60000)%Z then
              Some (mkOutcome (Returns (Ok200 (withHit (cachedValue cached)))) g)
            else answerFresh fuel g key lat lon now nowMs om gridFile
        | None => answerFresh fuel g key lat lon now nowMs om gridFile
        end
  | _, _ => Some (mkOutcome (Returns (Err400 "Missing/invalid lat/lon")) g)
  end.

End ContextRoute.

(** ** A host and an answer of Open-Meteo to run the context endpoint on *)

Module ContextSample.
Import Js.
Export ContextRoute.

(** Numbers are printed by their integer part, or by that of a hundred
    times the number for two decimals, and a time step is its count of
    milliseconds in decimal digits. *)
Definition host : Host := {|
  Number_toFixed2 x := pretty (Math_floorZ (x * 100)%float);
  Number_toString x := pretty (Math_floorZ x);
  Date_parse t :=
    match t with
    | VStr s => Sample.numberOfString s
    | _ => PrimFloat.nan
    end;
|}.

Definition threeHours : value :=
  VObj [("hourly",
         VObj [("time", VArr [VStr "1000"; VStr "2000"; VStr "3000"]);
               ("wind_speed_250hPa", VArr [VNum 10; VNum 20; VNum 30]%float);
               ("wind_direction_250hPa", VArr [VNum 90; VNum 180; VNum 270]%float)])].

Definition emptyGrid : Grid := mkGrid 2 ∅.

Definition noGlobals : Globals := mkGlobals ∅ None.

(** The answer for the point (10, 20) at a clock of 2500 milliseconds. *)
Definition firstValue : ContextValue :=
  mkValue (10, 20)%float
          (mkJet (VStr "2000") (VNum 20%float) (Some 180%float))
          (mkRarity 100 "very rare" 0 0 2)
          false.

Definition afterFirstCall : Globals :=
  mkGlobals (<["1000,2000" := mkEntry 7 firstValue]> ∅) (Some emptyGrid).

End ContextSample.

(** ** Facts about the shape normaliser *)

Module BalloonsFacts.
Import Js.
Export BalloonsSpec.

Lemma isNumber_true (v : value) :
  isNumber v = true ↔ ∃ n, v = VNum n ∧ Number_isFinite n = true.
Proof.
  split.
  - destruct v; simpl; try discriminate. eauto.
  - intros (n & -> & Hn). exact Hn.
Qed.

Lemma pointLike_test (f : list value) :
  (2 <=? length f)%nat && isNumber (index f 0) && isNumber (index f 1) = true
  ↔ pointLike (VArr f).
Proof.
  unfold pointLike. split.
  - intros Ht. apply andb_prop in Ht as [Ht H1]. apply andb_prop in Ht as [_ H0].
    destruct f as [|x [|y rest]]; try discriminate.
    change (isNumber x = true) in H0. change (isNumber y = true) in H1.
    apply isNumber_true in H0 as (a & -> & Ha).
    apply isNumber_true in H1 as (b & -> & Hb). eauto 6.
  - intros (a & b & rest & [= ->] & Ha & Hb). simpl. by rewrite Ha, Hb.
Qed.

Lemma isFlatPointsShape_cons (first : value) (rest : list value) :
  isFlatPointsShape (VArr (first :: rest)) = true ↔ pointLike first.
Proof.
  simpl. destruct first; try (split; [discriminate | by intros (?&?&?&?&_)]).
  apply pointLike_test.
Qed.

Lemma isTracksShape_cons (firstTrack : value) (rest : list value) :
  isTracksShape (VArr (firstTrack :: rest)) = true
  ↔ ∃ firstPoint more, firstTrack = VArr (firstPoint :: more) ∧ pointLike firstPoint.
Proof.
  simpl. split.
  - destruct firstTrack as [| | | | |[|fp more]|]; try discriminate.
    destruct fp; try discriminate. intros Ht%pointLike_test. eauto.
  - intros (fp & more & -> & Hp). destruct Hp as (a & b & r & -> & Ha & Hb).
    simpl. by rewrite Ha, Hb.
Qed.

Lemma flat_not_tracks (first : value) (rest : list value) :
  isFlatPointsShape (VArr (first :: rest)) = true →
  isTracksShape (VArr (first :: rest)) = false.
Proof.
  intros (a & b & r & -> & _)%isFlatPointsShape_cons. reflexivity.
Qed.

Lemma length_slice0 (n : nat) (s : string) : String.length (slice0 n s) ≤ n.
Proof.
  unfold slice0. revert s. induction n as [|n IH]; intros [|c s]; simpl; try lia.
  specialize (IH s). lia.
Qed.

Lemma length_preview `{Runtime} (data : value) : String.length (preview data) ≤ 200.
Proof.
  destruct data; simpl; try apply length_slice0. lia.
Qed.

Lemma omap_keeps_order {A B} (f : A → option B) (xs : list A) :
  ∃ kept, kept `sublist_of` xs ∧ Forall2 (λ x y, f x = Some y) kept (omap f xs).
Proof.
  induction xs as [|x xs (kept & Hsub & Hall)]; simpl.
  - exists []. split; constructor.
  - destruct (f x) as [y|] eqn:Hx.
    + exists (x :: kept). split; [by constructor | by constructor].
    + exists kept. split; [by constructor | done].
Qed.

Lemma omap_map {A B C} (f : B → option C) (g : A → B) (xs : list A) :
  omap f (map g xs) = omap (λ x, f (g x)) xs.
Proof.
  induction xs as [|x xs IH]; [done|].
  change (omap f (map g (x :: xs)))
    with (match f (g x) with Some y => y :: omap f (map g xs) | None => omap f (map g xs) end).
  change (omap (λ x, f (g x)) (x :: xs))
    with (match f (g x) with
          | Some y => y :: omap (λ x, f (g x)) xs
          | None => omap (λ x, f (g x)) xs
          end).
  by rewrite IH.
Qed.

Lemma length_omap_le {A B} (f : A → option B) (xs : list A) :
  length (omap f xs) ≤ length xs.
Proof.
  destruct (omap_keeps_order f xs) as (kept & Hsub & Hall).
  apply sublist_length in Hsub. apply Forall2_length in Hall. lia.
Qed.

(** What [extractLatestPositions] does on the four shapes. *)
Lemma extract_empty `{Runtime} (raw : value) :
  unwrapPayload raw = VArr [] → extractLatestPositions raw = Returns [].
Proof. unfold extractLatestPositions. by intros ->. Qed.

Lemma extract_flat `{Runtime} (raw first : value) (rest : list value) :
  unwrapPayload raw = VArr (first :: rest) → pointLike first →
  extractLatestPositions raw = Returns (omap normalizePoint (first :: rest)).
Proof.
  intros Hd Hp. unfold extractLatestPositions. rewrite Hd.
  apply (isFlatPointsShape_cons first rest) in Hp. by rewrite Hp.
Qed.

Lemma extract_tracks `{Runtime} (raw firstPoint : value) (more rest : list value) :
  unwrapPayload raw = VArr (VArr (firstPoint :: more) :: rest) →
  pointLike firstPoint →
  extractLatestPositions raw =
    Returns (omap normalizePoint
                  (map lastOfTrack (VArr (firstPoint :: more) :: rest))).
Proof.
  intros Hd Hp. unfold extractLatestPositions. rewrite Hd.
  assert (isTracksShape (VArr (VArr (firstPoint :: more) :: rest)) = true) as Ht
    by (apply isTracksShape_cons; eauto).
  rewrite Ht.
  destruct (isFlatPointsShape _) eqn:Hf; [|done].
  apply flat_not_tracks in Hf. congruence.
Qed.

Lemma extract_other `{Runtime} (raw : value) :
  unwrapPayload raw ≠ VArr [] →
  isFlatPointsShape (unwrapPayload raw) = false →
  isTracksShape (unwrapPayload raw) = false →
  extractLatestPositions raw =
    Throws ("Unexpected balloon data shape. Preview: "
            +:+ preview (unwrapPayload raw)).
Proof.
  intros Hne Hf Ht. unfold extractLatestPositions. rewrite Hf, Ht.
  destruct (unwrapPayload raw) as [| | | | |[|x xs]|]; done.
Qed.

Lemma lastOfTrack_snoc (t : list value) (x : value) :
  lastOfTrack (VArr (t ++ [x])) = x.
Proof.
  unfold lastOfTrack, index. rewrite length_app. simpl.
  replace (length t + 1 =? 0) with false by (symmetry; apply Nat.eqb_neq; lia).
  replace (length t + 1 - 1) with (length t) by lia.
  rewrite app_nth2 by lia. by rewrite Nat.sub_diag.
Qed.

Lemma lastOfTrack_malformed (bad : value) :
  (∀ x t, bad ≠ VArr (x :: t)) → lastOfTrack bad = VNull.
Proof.
  intros Hbad. destruct bad as [| | | | |[|x t]|]; try reflexivity.
  by destruct (Hbad x t).
Qed.

Lemma attributeOf_index (a b : value) (rest : list value) :
  match index (a :: b :: rest) 2 with
  | VNum m => if isNumber (index (a :: b :: rest) 2) then Some m else None
  | _ => None
  end = attributeOf rest.
Proof. destruct rest as [|[] ?]; reflexivity. Qed.

(** C5. After unwrapping a payload object that has a [data] field,
    [extractLatestPositions] routes by shape: an empty array gives no
    point; a list whose first element is a list starting with two finite
    numbers gives the candidates, one per top-level element, that
    [normalizePoint] keeps; a list whose first element is a non-empty list
    starting with such a point gives the same for the last element of each
    track; any other payload throws an error whose message ends with a
    preview of the payload, at most 200 characters of its JSON text. *)
Theorem extractLatestPositions_routes_by_shape `{Runtime} (raw : value) :
  let data := unwrapPayload raw in
  (∀ fields, raw = VObj fields → hasField "data" fields = true →
             data = getField "data" fields)
  ∧ (data = VArr [] → extractLatestPositions raw = Returns [])
  ∧ (∀ first rest, data = VArr (first :: rest) → pointLike first →
       extractLatestPositions raw = Returns (omap normalizePoint (first :: rest)))
  ∧ (∀ firstPoint more rest,
       data = VArr (VArr (firstPoint :: more) :: rest) → pointLike firstPoint →
       extractLatestPositions raw =
         Returns (omap normalizePoint
                       (lastOfTrack <$> VArr (firstPoint :: more) :: rest)))
  ∧ (∀ t x, lastOfTrack (VArr (t ++ [x])) = x)
  ∧ (data ≠ VArr [] →
     ¬ (∃ first rest, data = VArr (first :: rest) ∧ pointLike first) →
     ¬ (∃ firstPoint more rest,
          data = VArr (VArr (firstPoint :: more) :: rest) ∧ pointLike firstPoint) →
     extractLatestPositions raw =
       Throws ("Unexpected balloon data shape. Preview: " +:+ preview data)
     ∧ String.length (preview data) ≤ 200
     ∧ (data ≠ VUndefined → preview data = slice0 200 (JSON_stringify data))).
Proof.
  intros data. repeat split.
  - intros fields -> Hin. unfold data, unwrapPayload. simpl. by rewrite Hin.
  - apply extract_empty.
  - intros first rest. apply extract_flat.
  - intros firstPoint more rest. apply extract_tracks.
  - apply lastOfTrack_snoc.
  - apply extract_other; [done| |].
    + destruct (isFlatPointsShape data) eqn:Hf; [|done].
      destruct data as [| | | | |[|first rest]|]; try discriminate; [done|].
      apply isFlatPointsShape_cons in Hf. destruct H1. eauto.
    + destruct (isTracksShape data) eqn:Ht; [|done].
      destruct data as [| | | | |[|first rest]|]; try discriminate; [done|].
      apply isTracksShape_cons in Ht as (fp & more & -> & Hp). destruct H2. eauto.
  - apply length_preview.
  - intros Hdef. by destruct data.
Qed.

(** The shapes of the specification's examples, and a payload of no known
    shape, run on the sample runtime. *)
Example shape_routing_examples :
  let pt a b := VArr [VNum a; VNum b] in
  extractLatestPositions (H := Sample.runtime) (VArr []) = Returns []
  ∧ extractLatestPositions (H := Sample.runtime) (VArr [pt 1 2; pt 3 4])%float
    = Returns [mkPoint 1 2 None; mkPoint 3 4 None]
  ∧ extractLatestPositions (H := Sample.runtime)
      (VObj [("data", VArr [VArr [pt 1 2; pt 3 4]; VArr [pt 5 6]])])%float
    = Returns [mkPoint 3 4 None; mkPoint 5 6 None]
  ∧ extractLatestPositions (H := Sample.runtime) (VArr [VNum 1; VNum 2])%float
    = Throws "Unexpected balloon data shape. Preview: [1,2]".
Proof. repeat split. Qed.

(** C6. A candidate gives a point only if it is a list that starts with
    two finite numbers [a] and [b]; then [a] is taken as the longitude and
    [b] as the latitude if [|a| > 90] and [|b| <= 90], and [a] as the
    latitude and [b] as the longitude otherwise; the point is dropped if
    [|lat| > 90] or [|lon| > 180]; the third element is kept as the
    attribute exactly when it is a finite number.  [[100, 45]] gives
    [lat = 45, lon = 100], and [[45, 100]] is not swapped. *)
Theorem normalizePoint_axis_heuristic :
  (∀ p pt, normalizePoint p = Some pt → pointLike p)
  ∧ (∀ a b rest, Number_isFinite a = true → Number_isFinite b = true →
       let swapped := (90 <? Math_abs a)%float && (Math_abs b <=? 90)%float in
       let lat := if swapped then b else a in
       let lon := if swapped then a else b in
       normalizePoint (VArr (VNum a :: VNum b :: rest)) =
         if (90 <? Math_abs lat)%float || (180 <? Math_abs lon)%float
         then None
         else Some (mkPoint lat lon (attributeOf rest)))
  ∧ (∀ rest m, attributeOf rest = Some m
               ↔ ∃ tl, rest = VNum m :: tl ∧ Number_isFinite m = true)
  ∧ normalizePoint (VArr [VNum 100; VNum 45])%float = Some (mkPoint 45 100 None)
  ∧ normalizePoint (VArr [VNum 45; VNum 100])%float = Some (mkPoint 45 100 None).
Proof.
  split; [|split; [|split; [|split; reflexivity]]].
  - intros p pt Hp. destruct p as [| | | | |xs|]; try discriminate.
    destruct xs as [|a [|b rest]]; try discriminate.
    unfold normalizePoint in Hp.
    change (length (a :: b :: rest) <? 2) with false in Hp.
    change (index (a :: b :: rest) 0) with a in Hp.
    change (index (a :: b :: rest) 1) with b in Hp. cbv zeta in Hp.
    destruct (isNumber a) eqn:Ha; [|discriminate].
    destruct (isNumber b) eqn:Hb; [|discriminate].
    apply isNumber_true in Ha as (x & -> & Hx).
    apply isNumber_true in Hb as (y & -> & Hy).
    exists x, y, rest. done.
  - intros a b rest Ha Hb swapped lat lon.
    unfold normalizePoint.
    change (length (VNum a :: VNum b :: rest) <? 2) with false.
    change (index (VNum a :: VNum b :: rest) 0) with (VNum a).
    change (index (VNum a :: VNum b :: rest) 1) with (VNum b).
    cbv zeta. rewrite attributeOf_index.
    unfold isNumber. rewrite Ha, Hb. reflexivity.
  - intros rest m. unfold attributeOf. split.
    + destruct rest as [|[] tl]; try discriminate.
      destruct (Number_isFinite n) eqn:Hn; [|discriminate].
      intros [= ->]. eauto.
    + intros (tl & -> & Hm). by rewrite Hm.
Qed.

(** C8. When the normaliser accepts a payload, the payload is a list and
    the points come from its elements (from the last point of each track
    for the track shape): there are at most as many points as elements,
    and the points are, in order, those of a sub-list of the elements;
    nothing stands in for an element that was dropped. *)
Theorem normalizer_only_drops `{Runtime} (raw : value) (pts : list BalloonPoint) :
  extractLatestPositions raw = Returns pts →
  ∃ xs candidate,
    unwrapPayload raw = VArr xs
    ∧ (candidate = (λ x, x) ∨ candidate = lastOfTrack)
    ∧ length pts ≤ length xs
    ∧ ∃ kept, kept `sublist_of` xs
              ∧ Forall2 (λ x pt, normalizePoint (candidate x) = Some pt) kept pts.
Proof.
  unfold extractLatestPositions.
  destruct (unwrapPayload raw) as [| | | | |xs|] eqn:Hd; try discriminate.
  destruct xs as [|x xs].
  { intros [= <-]. exists [], (λ x, x). repeat split; auto.
    exists []. split; constructor. }
  destruct (isFlatPointsShape _).
  { intros Heq. injection Heq as Heq. subst pts. exists (x :: xs), (λ x, x).
    split; [done|]. split; [by left|].
    split; [apply (length_omap_le normalizePoint (x :: xs))|].
    apply (omap_keeps_order normalizePoint (x :: xs)). }
  destruct (isTracksShape _); [|discriminate].
  intros Heq. injection Heq as Heq. subst pts. exists (x :: xs), lastOfTrack.
  split; [done|]. split; [by right|]. split.
  - etrans; [apply (length_omap_le normalizePoint (map lastOfTrack (x :: xs)))|].
    by rewrite length_map.
  - destruct (omap_keeps_order (λ t, normalizePoint (lastOfTrack t)) (x :: xs))
      as (kept & Hsub & Hall).
    exists kept. split; [done|].
    change (Forall2 (λ t pt, normalizePoint (lastOfTrack t) = Some pt) kept
              (omap normalizePoint (map lastOfTrack (x :: xs)))).
    by rewrite omap_map.
Qed.

Lemma normalizer_only_drops_witness :
  let pt a b := VArr [VNum a; VNum b] in
  let raw := VArr [VArr [pt 1 2; pt 3 4]; VNull; VArr [pt 5 600]; VArr [pt 7 8]]%float in
  let pts := [mkPoint 3 4 None; mkPoint 7 8 None]%float in
  ∃ xs candidate,
    unwrapPayload raw = VArr xs
    ∧ (candidate = (λ x, x) ∨ candidate = lastOfTrack)
    ∧ length pts ≤ length xs
    ∧ ∃ kept, kept `sublist_of` xs
              ∧ Forall2 (λ x pt, normalizePoint (candidate x) = Some pt) kept pts.
Proof.
  intros pt raw pts.
  apply (normalizer_only_drops (H := Sample.runtime) raw pts). reflexivity.
Defined.

(** C10. In a payload of the track shape, which only the first element
    decides, a later element that is not a non-empty list is mapped to
    [null], which [normalizePoint] drops: the call returns, and returns
    what it returns without that element. *)
Theorem tracks_malformed_element_dropped `{Runtime}
    (raw firstTrack bad : value) (before after : list value) :
  unwrapPayload raw = VArr (firstTrack :: before ++ bad :: after) →
  isTracksShape (VArr [firstTrack]) = true →
  (∀ x t, bad ≠ VArr (x :: t)) →
  lastOfTrack bad = VNull
  ∧ normalizePoint VNull = None
  ∧ extractLatestPositions raw =
      Returns (omap normalizePoint (lastOfTrack <$> firstTrack :: before ++ after)).
Proof.
  intros Hd Ht Hbad.
  pose proof (lastOfTrack_malformed bad Hbad) as Hnull.
  split; [done|]. split; [done|].
  apply isTracksShape_cons in Ht as (fp & more & -> & Hp).
  rewrite (extract_tracks raw fp more (before ++ bad :: after) Hd Hp).
  f_equal. rewrite !fmap_cons, !fmap_app, fmap_cons. simpl omap.
  f_equal. rewrite !omap_app. f_equal. simpl. by rewrite Hnull.
Qed.

Lemma tracks_malformed_element_dropped_witness :
  let pt a b := VArr [VNum a; VNum b] in
  let first := VArr [pt 1 2; pt 3 4]%float in
  let raw := VObj [("data", VArr (first :: [VArr [pt 5 6]] ++ VArr [] :: [VArr [pt 7 8]]))]%float in
  lastOfTrack (VArr []) = VNull
  ∧ normalizePoint VNull = None
  ∧ extractLatestPositions (H := Sample.runtime) raw =
      Returns (omap normalizePoint
                 (lastOfTrack <$> first :: [VArr [pt 5 6]] ++ [VArr [pt 7 8]]))%float.
Proof.
  intros pt first raw.
  apply (tracks_malformed_element_dropped (H := Sample.runtime)
           raw first (VArr []) [VArr [pt 5 6]] [VArr [pt 7 8]])%float.
  - reflexivity.
  - reflexivity.
  - intros x t. discriminate.
Defined.

End BalloonsFacts.

(** ** Facts about the snapshot endpoint *)

Module RouteFacts.
Import Js.
Export RouteSpec.

Lemma clampHoursAgo_range (v : float) : (0 ≤ clampHoursAgo v ≤ 23)%Z.
Proof. unfold clampHoursAgo. destruct (negb _); lia. Qed.

(** [Math.floor] gives the integer part: the largest integer not above the
    value. *)
Lemma Math_floorZ_bounds (v : float) :
  (IZR (Math_floorZ v) <= realOf v < IZR (Math_floorZ v) + 1)%R.
Proof.
  unfold Math_floorZ, realOf.
  destruct (Prim2SF v) as [| | |s m e]; try lra.
  unfold floor_finite. set (z := if s then Z.neg m else Z.pos m).
  destruct (Z.leb_spec 0 e) as [He|He].
  - rewrite Z.shiftl_mul_pow2 by done. lra.
  - rewrite Z.shiftr_div_pow2 by lia.
    set (d := (2 ^ (- e))%Z).
    assert (0 < d)%Z as Hd by (apply Z.pow_pos_nonneg; lia).
    pose proof (Z.div_mod z d ltac:(lia)) as Hz.
    pose proof (Z.mod_pos_bound z d Hd) as [Hr0 Hr1].
    set (q := (z / d)%Z) in *. set (r := (z mod d)%Z) in *.
    assert (IZR z = IZR d * IZR q + IZR r)%R as HzR
      by (rewrite <- mult_IZR, <- plus_IZR; by f_equal).
    apply IZR_le in Hr0. apply IZR_lt in Hr1. apply IZR_lt in Hd.
    assert (IZR z / IZR d = IZR q + IZR r / IZR d)%R as ->
      by (rewrite HzR; field; lra).
    assert (0 <= IZR r / IZR d < 1)%R; [|lra].
    split.
    + apply Rmult_le_pos; [done|]. left. by apply Rinv_0_lt_compat.
    + apply Rmult_lt_reg_r with (IZR d); [done|].
      unfold Rdiv. rewrite Rmult_assoc, Rinv_l by lra. lra.
Qed.

Lemma roundSeconds_nearest (ageMs : Z) :
  (1000 * roundSeconds ageMs - 500 ≤ ageMs < 1000 * roundSeconds ageMs + 500)%Z.
Proof.
  unfold roundSeconds.
  pose proof (Z.div_mod (ageMs + 500) 1000 ltac:(lia)).
  pose proof (Z.mod_pos_bound (ageMs + 500) 1000 ltac:(lia)). lia.
Qed.

Lemma candidates_split (requested h : Z) :
  (requested ≤ h ≤ 23)%Z →
  candidates requested = seqZ requested (h - requested) ++ h :: seqZ (h + 1) (23 - h).
Proof.
  intros Hh. unfold candidates.
  replace (24 - requested)%Z with ((h - requested) + (24 - h))%Z by lia.
  rewrite seqZ_app by lia. f_equal.
  replace (requested + (h - requested))%Z with h by lia.
  rewrite seqZ_cons by lia. f_equal. f_equal; lia.
Qed.

Lemma elem_of_candidates (requested h : Z) :
  h ∈ candidates requested ↔ (requested ≤ h ≤ 23)%Z.
Proof. unfold candidates. rewrite elem_of_seqZ. lia. Qed.

Section loop.
Context (net : string → FetchOutcome).

Lemma tryCandidates_first_success (failed : list Z) (h : Z) (data : value)
    (later : list Z) (lastError : option string) (tried : list Z) :
  Forall (fails net) failed → fetchUpstream net h = Returns data →
  tryCandidates net (failed ++ h :: later) lastError tried
  = Fetched h data (tried ++ failed ++ [h]).
Proof.
  intros Hfailed Hok. revert lastError tried.
  induction Hfailed as [|h' failed [e He] _ IH]; intros lastError tried; simpl.
  - by rewrite Hok.
  - rewrite He, IH. by rewrite <- app_assoc.
Qed.

Lemma tryCandidates_all_fail (hs : list Z) (lastError : option string)
    (tried : list Z) :
  Forall (fails net) hs →
  ∃ lastError',
    tryCandidates net hs lastError tried = AllFailed lastError' (tried ++ hs)
    ∧ match last hs with
      | Some h => ∃ e, fetchUpstream net h = Throws e ∧ lastError' = Some e
      | None => lastError' = lastError
      end.
Proof.
  intros Hfail. revert lastError tried.
  induction Hfail as [|h hs [e He] _ IH]; intros lastError tried; simpl.
  - exists lastError. by rewrite app_nil_r.
  - rewrite He. destruct (IH (Some e) (tried ++ [h])) as (le & Heq & Hlast).
    exists le. rewrite Heq, <- app_assoc. split; [done|].
    destruct hs as [|h2 hs]; [simpl in Hlast; subst le; simpl; eauto|].
    change (last (h :: h2 :: hs)) with (last (h2 :: hs)).
    destruct (last (h2 :: hs)) eqn:Hl; [exact Hlast|].
    by apply last_None in Hl.
Qed.

Lemma tryCandidates_fetched (hs : list Z) (lastError : option string)
    (tried : list Z) (h : Z) (data : value) (tried' : list Z) :
  tryCandidates net hs lastError tried = Fetched h data tried' →
  h ∈ hs ∧ fetchUpstream net h = Returns data.
Proof.
  revert lastError tried.
  induction hs as [|h' hs IH]; intros lastError tried; simpl; [done|].
  destruct (fetchUpstream net h') as [d|e] eqn:Hf.
  - intros [= <- <- <-]. split; [by left | done].
  - intros [Hin Hok]%IH. split; [by right | done].
Qed.
End loop.

Lemma last_candidates (requested : Z) :
  (requested ≤ 23)%Z → last (candidates requested) = Some 23%Z.
Proof.
  intros Hr. rewrite (candidates_split requested 23) by lia.
  rewrite (seqZ_nil (23 + 1)) by lia. by rewrite last_snoc.
Qed.

(** A property of the 24 buckets, checked on each of them. *)
Ltac each_hour :=
  let hours := eval vm_compute in (seqZ 0 24) in
  change (seqZ 0 24) with hours;
  repeat (constructor; [vm_compute; reflexivity|]);
  constructor.

(** The address [fetchUpstream] builds for a bucket from 0 to 23 ends in
    its age in two digits. *)
Lemma padStart2_twoDigits (h : Z) :
  (0 ≤ h ≤ 23)%Z → padStart2 (pretty h) = twoDigits h.
Proof.
  assert (Forall (λ a, padStart2 (pretty a) = twoDigits a) (seqZ 0 24)) as Hall
    by RouteFacts.each_hour.
  rewrite Forall_forall in Hall. intros Hh. apply Hall, elem_of_seqZ. lia.
Qed.

(** A bucket answers exactly when its fetch returns. *)
Lemma fetchUpstream_answers (net : string → FetchOutcome) (h : Z) (data : value) :
  (0 ≤ h ≤ 23)%Z →
  fetchUpstream net h = Returns data ↔ bucketAnswers net h data.
Proof.
  intros Hh. unfold fetchUpstream, bucketAnswers, bucketUrl, upstreamUrl.
  rewrite (padStart2_twoDigits h Hh).
  destruct (net _) as [msg|[] status [d|msg]]; simpl; split;
    try discriminate; try (by intros [st [=]]).
  - intros [= ->]. by exists status.
  - by intros [st [= _ ->]].
Qed.

(** A bucket fails with an error exactly when its fetch throws it. *)
Lemma fetchUpstream_fails (net : string → FetchOutcome) (h : Z) (e : string) :
  (0 ≤ h ≤ 23)%Z →
  fetchUpstream net h = Throws e ↔ bucketFailsWith net h e.
Proof.
  intros Hh. unfold fetchUpstream, bucketFailsWith, bucketUrl, upstreamUrl.
  rewrite (padStart2_twoDigits h Hh).
  destruct (net _) as [msg|[] status [d|msg]]; simpl; split.
  - intros [= ->]. by left.
  - intros [[= ->]|[(st & j & [=] & _)|(st & [=])]]. done.
  - discriminate.
  - intros [[=]|[(st & j & [=] & _)|(st & [=])]].
  - intros [= ->]. right. right. by exists status.
  - intros [[=]|[(st & j & [=] & _)|(st & [= _ ->])]]. done.
  - intros [= <-]. right. left. by exists status, (Returns d).
  - intros [[=]|[(st & j & [= <- _] & ->)|(st & [=])]]. done.
  - intros [= <-]. right. left. by exists status, (Throws msg).
  - intros [[=]|[(st & j & [= <- _] & ->)|(st & [=])]]. done.
Qed.

Lemma fails_bucketFails (net : string → FetchOutcome) (h : Z) :
  (0 ≤ h ≤ 23)%Z → fails net h ↔ bucketFails net h.
Proof.
  intros Hh. unfold fails, bucketFails.
  split; intros [e He]; exists e; by apply (fetchUpstream_fails net h e Hh).
Qed.

(** The loop tries a prefix of its candidates, in order. *)
Lemma tryCandidates_tried (net : string → FetchOutcome) (hs : list Z)
    (lastError : option string) (tried : list Z) :
  ∃ n, n ≤ length hs
       ∧ (hs ≠ [] → 0 < n)
       ∧ match tryCandidates net hs lastError tried with
         | Fetched _ _ tried' | AllFailed _ tried' => tried' = tried ++ take n hs
         end.
Proof.
  revert lastError tried. induction hs as [|h hs IH]; intros lastError tried.
  - exists 0. simpl. split; [done|]. split; [done|]. by rewrite app_nil_r.
  - simpl. destruct (fetchUpstream net h) as [data|e].
    + exists 1. simpl. split; [lia|]. split; [lia|]. by rewrite take_0.
    + destruct (IH (Some e) (tried ++ [h])) as (n & Hn & _ & Htried).
      exists (S n). split; [lia|]. split; [lia|].
      destruct (tryCandidates _ _ _ _); rewrite Htried, <- app_assoc; done.
Qed.

Lemma take_seqZ (m len : Z) (n : nat) :
  (Z.of_nat n ≤ len)%Z → take n (seqZ m len) = seqZ m (Z.of_nat n).
Proof.
  intros Hn. replace len with (Z.of_nat n + (len - Z.of_nat n))%Z by lia.
  rewrite seqZ_app by lia. rewrite take_app_length'; [done|].
  rewrite length_seqZ. lia.
Qed.

(** Where the loop ends: at a bucket that answers, all before it having
    failed, or past the last one, all having failed. *)
Lemma tryCandidates_split (net : string → FetchOutcome) (hs : list Z)
    (lastError : option string) (tried : list Z) :
  match tryCandidates net hs lastError tried with
  | Fetched h data _ =>
      ∃ failed later, hs = failed ++ h :: later
                      ∧ Forall (fails net) failed
                      ∧ fetchUpstream net h = Returns data
  | AllFailed _ _ => Forall (fails net) hs
  end.
Proof.
  revert lastError tried. induction hs as [|h hs IH]; intros lastError tried; simpl.
  - constructor.
  - destruct (fetchUpstream net h) as [data|e] eqn:Hh.
    + exists [], hs. by repeat split.
    + specialize (IH (Some e) (tried ++ [h])).
      destruct (tryCandidates net hs (Some e) (tried ++ [h])) as [h' data ?|? ?].
      * destruct IH as (failed & later & -> & Hfailed & Hok).
        exists (h :: failed), later. split; [done|]. split; [|done].
        constructor; [by exists e | done].
      * constructor; [by exists e | done].
Qed.

Lemma seqZ_before (m len : Z) (failed later : list Z) (h : Z) :
  seqZ m len = failed ++ h :: later →
  h = (m + Z.of_nat (length failed))%Z
  ∧ ∀ h', (m ≤ h' < h)%Z → h' ∈ failed.
Proof.
  intros Hsplit.
  assert (∀ i x, (failed ++ h :: later) !! i = Some x → x = (m + Z.of_nat i)%Z) as Hat.
  { intros i x. rewrite <- Hsplit. by intros [-> _]%lookup_seqZ. }
  assert (h = (m + Z.of_nat (length failed))%Z) as Hh.
  { apply Hat. by rewrite list_lookup_middle. }
  split; [done|]. intros h' Hh'.
  assert (Z.to_nat (h' - m) < length failed) as Hlt by lia.
  destruct (lookup_lt_is_Some_2 failed _ Hlt) as [x Hx].
  pose proof (Hat (Z.to_nat (h' - m)) x) as Heq.
  rewrite lookup_app_l in Heq by done. specialize (Heq Hx).
  apply list_elem_of_lookup. exists (Z.to_nat (h' - m)).
  rewrite Hx. f_equal. lia.
Qed.

(** The loop reads the network only at the buckets it tries. *)
Lemma tryCandidates_agree (net net' : string → FetchOutcome) (hs : list Z)
    (lastError : option string) (tried : list Z) :
  match tryCandidates net hs lastError tried with
  | Fetched _ _ tried' | AllFailed _ tried' =>
      ∀ h, h ∈ tried' → h ∈ hs → fetchUpstream net' h = fetchUpstream net h
  end →
  tryCandidates net' hs lastError tried = tryCandidates net hs lastError tried.
Proof.
  revert lastError tried. induction hs as [|h hs IH]; intros lastError tried; [done|].
  simpl. destruct (fetchUpstream net h) as [data|e] eqn:Hh.
  - intros Hagree. rewrite (Hagree h), Hh; [done| |by left].
    apply elem_of_app. right. by apply list_elem_of_singleton.
  - intros Hagree.
    destruct (tryCandidates_tried net hs (Some e) (tried ++ [h])) as (n & _ & _ & Htried).
    assert (fetchUpstream net' h = Throws e) as ->.
    { rewrite <- Hh.
      destruct (tryCandidates net hs (Some e) (tried ++ [h]));
        (apply Hagree; [|by left]); rewrite Htried;
        apply elem_of_app; left; apply elem_of_app; right;
        by apply list_elem_of_singleton. }
    apply IH.
    destruct (tryCandidates net hs (Some e) (tried ++ [h]));
      intros h' Hin Hhs; apply Hagree; [done|by right|done|by right].
Qed.

(** The buckets one call asks for: consecutive ones from the requested
    age on, at least one and none past 23. *)
Lemma GET_attempts `{Runtime} (net : string → FetchOutcome) (now : Z)
    (hoursAgoParam : option string) (balloonCache : option CacheEntry) :
  let requested := clampHoursAgo (Number_ofString (default "0" hoursAgoParam)) in
  ∃ n : Z, (1 ≤ n ≤ 24 - requested)%Z
           ∧ attempts (GET net now hoursAgoParam balloonCache) = seqZ requested n
           ∧ match tryCandidates net (candidates requested) None [] with
             | Fetched _ _ tried | AllFailed _ tried => tried = seqZ requested n
             end.
Proof.
  intros requested.
  pose proof (clampHoursAgo_range (Number_ofString (default "0" hoursAgoParam))) as Hr.
  fold requested in Hr.
  destruct (tryCandidates_tried net (candidates requested) None [])
    as (n & Hn & Hpos & Htried).
  unfold candidates in Hn, Hpos. rewrite length_seqZ in Hn.
  assert (0 < n) as Hn0.
  { apply Hpos. intros Hnil. apply (f_equal length) in Hnil.
    rewrite length_seqZ in Hnil. simpl in Hnil. lia. }
  exists (Z.of_nat n). split; [lia|].
  unfold GET. fold requested.
  destruct (tryCandidates net (candidates requested) None [])
    as [h data tried|lastError tried]; simpl in Htried; subst tried.
  - simpl. unfold candidates. split; apply take_seqZ; lia.
  - destruct balloonCache as [c|]; [destruct (cachePresent _)|];
      simpl; unfold candidates; split; apply take_seqZ; lia.
Qed.

Lemma GET_all_fail `{Runtime} (net : string → FetchOutcome) (now : Z)
    (hoursAgoParam : option string) (balloonCache : option CacheEntry) :
  let requested := clampHoursAgo (Number_ofString (default "0" hoursAgoParam)) in
  (∀ h, (requested ≤ h ≤ 23)%Z → fails net h) →
  ∃ e, fetchUpstream net 23 = Throws e
       ∧ tryCandidates net (candidates requested) None []
         = AllFailed (Some e) (candidates requested).
Proof.
  intros requested Hfail.
  pose proof (clampHoursAgo_range (Number_ofString (default "0" hoursAgoParam))) as Hr.
  fold requested in Hr.
  destruct (tryCandidates_all_fail net (candidates requested) None [])
    as (le & Heq & Hlast).
  { apply Forall_forall. intros h Hh%elem_of_candidates. by apply Hfail. }
  rewrite last_candidates in Hlast by lia.
  destruct Hlast as (e & He & ->). eauto.
Qed.

(** A call reads the network at the address of a bucket only. *)
Lemma fetchUpstream_ext (net net' : string → FetchOutcome) (h : Z) :
  (0 ≤ h ≤ 23)%Z →
  net' (bucketUrl h) = net (bucketUrl h) →
  fetchUpstream net' h = fetchUpstream net h.
Proof.
  intros Hh Hagree. unfold fetchUpstream.
  change (upstreamUrl (padStart2 (pretty h)))
    with ("https://a.windbornesystems.com/treasure/" +:+ padStart2 (pretty h) +:+ ".json").
  rewrite (padStart2_twoDigits h Hh). fold (bucketUrl h). by rewrite Hagree.
Qed.

(** How the loop of one call ends, in terms of the network: at the first
    bucket from the requested age on that answers, or past bucket 23 when
    all of them fail. *)
Lemma GET_loop_cases `{Runtime} (net : string → FetchOutcome)
    (hoursAgoParam : option string) :
  let requested := clampHoursAgo (Number_ofString (default "0" hoursAgoParam)) in
  (∃ h data,
     (requested ≤ h ≤ 23)%Z
     ∧ (∀ h', (requested ≤ h' < h)%Z → bucketFails net h')
     ∧ bucketAnswers net h data
     ∧ tryCandidates net (candidates requested) None []
       = Fetched h data (seqZ requested (h - requested + 1)))
  ∨ ((∀ h, (requested ≤ h ≤ 23)%Z → bucketFails net h)
     ∧ ∃ e, bucketFailsWith net 23 e
            ∧ tryCandidates net (candidates requested) None []
              = AllFailed (Some e) (candidates requested)).
Proof.
  intros requested.
  pose proof (clampHoursAgo_range (Number_ofString (default "0" hoursAgoParam))) as Hr.
  fold requested in Hr.
  pose proof (tryCandidates_split net (candidates requested) None []) as Hsplit.
  destruct (tryCandidates net (candidates requested) None [])
    as [h data tried|lastError tried] eqn:Hloop.
  - left. destruct Hsplit as (failed & later & Hcands & Hfailed & Hok).
    assert (requested ≤ h ≤ 23)%Z as Hh.
    { apply elem_of_candidates. rewrite Hcands.
      apply elem_of_app. right. by left. }
    destruct (seqZ_before _ _ _ _ _ Hcands) as [_ Hbefore].
    exists h, data. split; [done|]. split; [|split].
    + intros h' Hh'. apply fails_bucketFails; [lia|].
      rewrite Forall_forall in Hfailed. by apply Hfailed, Hbefore.
    + apply fetchUpstream_answers; [lia | done].
    + rewrite <- Hloop. rewrite (candidates_split requested h Hh).
      rewrite (tryCandidates_first_success net _ h data); [| |done].
      * simpl. f_equal. rewrite seqZ_app by lia. f_equal.
        rewrite seqZ_cons by lia. rewrite seqZ_nil by lia. f_equal. lia.
      * apply Forall_forall. intros h' Hin%elem_of_seqZ.
        rewrite Forall_forall in Hfailed. apply Hfailed, Hbefore. lia.
  - right.
    assert (∀ h, (requested ≤ h ≤ 23)%Z → fails net h) as Hall.
    { intros h Hh%elem_of_candidates. rewrite Forall_forall in Hsplit.
      by apply Hsplit. }
    split.
    + intros h Hh. apply fails_bucketFails; [lia | by apply Hall].
    + destruct (GET_all_fail net 0 hoursAgoParam None Hall) as (e & He & Hloop').
      fold requested in Hloop'. rewrite Hloop in Hloop'.
      exists e. split; [|done]. by apply fetchUpstream_fails.
Qed.

(** C3. The handler clamps the requested age to an integer from 0 to 23:
    a value that is not finite becomes 0, any other is floored and clamped.
    The attempt on a bucket requests the address that ends in its age in
    two digits; it fails when the request is rejected, when the response
    is not ok, or when its body is no JSON, and it answers when the
    response is ok with a JSON body.  The handler asks for the buckets
    from the clamped age upwards, one after the other, going on after a
    failure; the first bucket that answers is returned with its own age
    and the source [upstream], and is written with the time into the cache
    slot, whatever the slot held.  When all buckets up to 23 fail the slot
    stays as it was, so nothing but an answer of the upstream changes it.
    The handler reads the network at the buckets it tried and nowhere
    else. *)
Theorem GET_first_answering_bucket `{Runtime} (net : string → FetchOutcome)
    (now : Z) (hoursAgoParam : option string) (balloonCache : option CacheEntry) :
  let requested := clampHoursAgo (Number_ofString (default "0" hoursAgoParam)) in
  let o := GET net now hoursAgoParam balloonCache in
  (0 ≤ requested ≤ 23)%Z
  ∧ (∀ v, Number_isFinite v = false → clampHoursAgo v = 0%Z)
  ∧ (∀ v, Number_isFinite v = true →
          clampHoursAgo v = Z.max 0 (Z.min 23 (Math_floorZ v))
          ∧ (IZR (Math_floorZ v) <= realOf v < IZR (Math_floorZ v) + 1)%R)
  ∧ (∀ h, (0 ≤ h ≤ 23)%Z →
          (∀ data, fetchUpstream net h = Returns data ↔ bucketAnswers net h data)
          ∧ (∀ e, fetchUpstream net h = Throws e ↔ bucketFailsWith net h e))
  ∧ (∀ h data,
       (requested ≤ h ≤ 23)%Z →
       (∀ h', (requested ≤ h' < h)%Z → bucketFails net h') →
       bucketAnswers net h data →
       response o = Ok200 h upstream None data
       ∧ cacheAfter o = Some (mkCache now h data)
       ∧ attempts o = seqZ requested (h - requested + 1))
  ∧ ((∃ h data,
        (requested ≤ h ≤ 23)%Z
        ∧ (∀ h', (requested ≤ h' < h)%Z → bucketFails net h')
        ∧ bucketAnswers net h data
        ∧ response o = Ok200 h upstream None data
        ∧ cacheAfter o = Some (mkCache now h data)
        ∧ attempts o = seqZ requested (h - requested + 1))
     ∨ ((∀ h, (requested ≤ h ≤ 23)%Z → bucketFails net h)
        ∧ cacheAfter o = balloonCache
        ∧ attempts o = seqZ requested (24 - requested)))
  ∧ (cacheAfter o ≠ balloonCache →
     ∃ h data, (requested ≤ h ≤ 23)%Z
               ∧ bucketAnswers net h data
               ∧ cacheAfter o = Some (mkCache now h data))
  ∧ (∀ net',
       (∀ h, h ∈ attempts o → net' (bucketUrl h) = net (bucketUrl h)) →
       GET net' now hoursAgoParam balloonCache = o).
Proof.
  intros requested o.
  pose proof (clampHoursAgo_range (Number_ofString (default "0" hoursAgoParam))) as Hr.
  fold requested in Hr.
  assert ((∃ h data,
             (requested ≤ h ≤ 23)%Z
             ∧ (∀ h', (requested ≤ h' < h)%Z → bucketFails net h')
             ∧ bucketAnswers net h data
             ∧ response o = Ok200 h upstream None data
             ∧ cacheAfter o = Some (mkCache now h data)
             ∧ attempts o = seqZ requested (h - requested + 1))
          ∨ ((∀ h, (requested ≤ h ≤ 23)%Z → bucketFails net h)
             ∧ cacheAfter o = balloonCache
             ∧ attempts o = seqZ requested (24 - requested))) as Hcases.
  { destruct (GET_loop_cases net hoursAgoParam)
      as [(h & data & Hh & Hbefore & Hok & Hloop)|(Hall & e & He & Hloop)];
      fold requested in Hloop.
    - left. exists h, data. split; [done|]. split; [done|]. split; [done|].
      unfold o, GET. fold requested. rewrite Hloop. by simpl.
    - right. split; [done|]. unfold o, GET. fold requested. rewrite Hloop.
      unfold candidates.
      by destruct balloonCache as [c|]; [destruct (cachePresent _)|]. }
  split; [done|].
  split; [by intros v Hv; unfold clampHoursAgo; rewrite Hv|].
  split.
  { intros v Hv. split; [by unfold clampHoursAgo; rewrite Hv|].
    apply Math_floorZ_bounds. }
  split.
  { intros h Hh. split.
    - intros data. by apply fetchUpstream_answers.
    - intros e. by apply fetchUpstream_fails. }
  split.
  { intros h data Hh Hbefore Hok. unfold o, GET. fold requested.
    rewrite (candidates_split requested h Hh).
    rewrite (tryCandidates_first_success net _ h data).
    - simpl. repeat split.
      rewrite seqZ_app by lia. f_equal.
      rewrite seqZ_cons by lia. rewrite seqZ_nil by lia. f_equal. lia.
    - apply Forall_forall. intros h' Hin%elem_of_seqZ.
      apply fails_bucketFails; [lia|]. apply Hbefore. lia.
    - apply fetchUpstream_answers; [lia | done]. }
  split; [exact Hcases|].
  split.
  { intros Hchanged.
    destruct Hcases as [(h & data & Hh & _ & Hok & _ & Hcache & _)|(_ & Hsame & _)];
      [|done].
    by exists h, data. }
  intros net' Hagree.
  destruct (GET_attempts net now hoursAgoParam balloonCache)
    as (n & Hn & Hatt & Htried).
  fold requested in Hatt, Htried. fold o in Hatt.
  assert (tryCandidates net' (candidates requested) None []
          = tryCandidates net (candidates requested) None []) as Hsame.
  { apply tryCandidates_agree.
    destruct (tryCandidates net (candidates requested) None [])
      as [h data tried|lastError tried]; subst tried;
      intros h' Hin Hcand%elem_of_candidates;
      (apply fetchUpstream_ext; [lia|]); apply Hagree; by rewrite Hatt. }
  unfold o, GET. fold requested. by rewrite Hsame.
Qed.

(** The theorem at a network where the buckets 21 and 22 are down (the
    response is not ok) and the bucket 23 answers with an empty list: asked
    for the age 21 while the slot holds something else, the handler tries
    21, 22 and 23, returns the bucket 23 and writes it into the slot. *)
Lemma GET_first_answering_bucket_witness :
  let net url :=
    if String.eqb url "https://a.windbornesystems.com/treasure/23.json"
    then FetchResponds true 200 (Returns (VArr []))
    else FetchResponds false 503 (Returns VNull) in
  let o := GET (H := Sample.runtime) net 5000 (Some "21") (Some (mkCache 10 0 VNull)) in
  response o = Ok200 23 upstream None (VArr [])
  ∧ cacheAfter o = Some (mkCache 5000 23 (VArr []))
  ∧ attempts o = [21; 22; 23]%Z.
Proof.
  intros net o.
  pose proof (GET_first_answering_bucket (H := Sample.runtime) net 5000 (Some "21")
                (Some (mkCache 10 0 VNull))) as (_ & _ & _ & _ & Hfirst & _).
  apply (Hfirst 23%Z (VArr [])).
  - vm_compute. split; discriminate.
  - intros h' Hh'.
    assert (h' = 21 ∨ h' = 22)%Z as [->| ->].
    { change (clampHoursAgo (@Number_ofString Sample.runtime (default "0" (Some "21"))))
        with 21%Z in Hh'. lia. }
    + exists "Upstream 21.json failed: 503". right. left.
      by exists 503%N, (Returns VNull).
    + exists "Upstream 22.json failed: 503". right. left.
      by exists 503%N, (Returns VNull).
  - by exists 200%N.
Defined.

(** Requested age 21, buckets 21 and 22 down, bucket 23 up. *)
Example GET_falls_back_to_older_bucket :
  let net url :=
    if String.eqb url "https://a.windbornesystems.com/treasure/23.json"
    then FetchResponds true 200 (Returns (VArr []))
    else FetchResponds false 503 (Returns VNull) in
  GET (H := Sample.runtime) net 5000 (Some "21") (Some (mkCache 10 0 VNull))
  = mkOutcome (Ok200 23 upstream None (VArr []))
              (Some (mkCache 5000 23 (VArr [])))
              [21; 22; 23]%Z.
Proof. reflexivity. Qed.

(** When every bucket fails, the handler tests the payload of the slot
    and not the slot: a slot whose payload counts as true (any list or
    object) is returned with the source [cache], the age of the cached
    bucket and the seconds since it was cached, rounded to the nearest
    whole second; an empty slot, and a slot whose payload counts as false,
    give status 502 with the error of the last bucket tried.  The slot is
    left as it was. *)
Lemma GET_falls_back_to_cache `{Runtime} (net : string → FetchOutcome)
    (now : Z) (hoursAgoParam : option string) (balloonCache : option CacheEntry) :
  let requested := clampHoursAgo (Number_ofString (default "0" hoursAgoParam)) in
  let o := GET net now hoursAgoParam balloonCache in
  (∀ h, (requested ≤ h ≤ 23)%Z → bucketFails net h) →
  attempts o = seqZ requested (24 - requested)
  ∧ cacheAfter o = balloonCache
  ∧ (∀ c, balloonCache = Some c → truthy (data c) = true →
       response o = Ok200 (hoursAgo c) cache
                          (Some (roundSeconds (now - timestampMs c))) (data c)
       ∧ (1000 * roundSeconds (now - timestampMs c) - 500
          ≤ now - timestampMs c
          < 1000 * roundSeconds (now - timestampMs c) + 500)%Z)
  ∧ ((balloonCache = None ∨ ∃ c, balloonCache = Some c ∧ truthy (data c) = false) →
     ∃ e, bucketFailsWith net 23 e
          ∧ response o
            = Err502 "No upstream data available and no cached fallback present." e).
Proof.
  intros requested o Hfail.
  pose proof (clampHoursAgo_range (Number_ofString (default "0" hoursAgoParam))) as Hr.
  fold requested in Hr.
  assert (∀ h, (requested ≤ h ≤ 23)%Z → fails net h) as Hfail'.
  { intros h Hh. apply fails_bucketFails; [lia | by apply Hfail]. }
  destruct (GET_all_fail net now hoursAgoParam balloonCache Hfail') as (e & He & Hloop).
  fold requested in Hloop. unfold o, GET. fold requested. rewrite Hloop.
  apply fetchUpstream_fails in He; [|lia].
  split; [|split; [|split]].
  - by destruct balloonCache as [c|]; [destruct (cachePresent _)|].
  - by destruct balloonCache as [c|]; [destruct (cachePresent _)|].
  - intros c -> Hc. simpl. rewrite Hc. split; [done|]. apply roundSeconds_nearest.
  - intros [->|(c & -> & Hc)]; [by exists e|]. simpl. rewrite Hc. by exists e.
Qed.

Example GET_serves_cached_list :
  let net (url : string) := FetchRejects "fetch failed" in
  let c := mkCache 1000 3 (VArr []) in
  GET (H := Sample.runtime) net 61499 None (Some c)
  = mkOutcome (Ok200 3 cache (Some 60%Z) (VArr [])) (Some c) (seqZ 0 24).
Proof. reflexivity. Qed.

(** C4. The handler at the input where it departs from the claim.  The
    upstream answers the bucket 3 with the JSON text [null]: the handler
    returns it and writes it into the slot, which is then not empty.  At
    the next call, 60 seconds later, every bucket fails: the handler
    answers 502 with the last transport error, and not the cached payload
    with the source [cache], the age 3 and 60 seconds. *)
Theorem GET_cached_null_not_served :
  let up url :=
    if String.eqb url "https://a.windbornesystems.com/treasure/03.json"
    then FetchResponds true 200 (Returns VNull)
    else FetchRejects "fetch failed" in
  let down (url : string) := FetchRejects "fetch failed" in
  let first := GET (H := Sample.runtime) up 1000 (Some "3") None in
  let second := GET (H := Sample.runtime) down 61000 None (cacheAfter first) in
  response first = Ok200 3 upstream None VNull
  ∧ cacheAfter first = Some (mkCache 1000 3 VNull)
  ∧ (∀ h, (0 ≤ h ≤ 23)%Z → bucketFailsWith down h "fetch failed")
  ∧ cacheAfter second = cacheAfter first
  ∧ response second
    = Err502 "No upstream data available and no cached fallback present."
             "fetch failed"
  ∧ response second ≠ Ok200 3 cache (Some 60%Z) VNull.
Proof.
  intros up down first second.
  split; [reflexivity|]. split; [reflexivity|].
  split; [by intros h _; left|].
  split; [reflexivity|]. split; [reflexivity|]. discriminate.
Qed.

End RouteFacts.

(** ** The order of doubles *)

Module FloatOrder.

Lemma SFltb_irrefl (f : spec_float) : SFltb f f = false.
Proof.
  destruct f as [s|s| |s m e]; [by destruct s | by destruct s | done |].
  unfold SFltb, SFcompare. rewrite Z.compare_refl.
  change (Pos.compare_cont Eq m m) with (m ?= m)%positive.
  rewrite Pos.compare_refl. by destruct s.
Qed.

Ltac order_cases :=
  repeat match goal with
    | |- context [(?a ?= ?b)%Z] => destruct (Z.compare_spec a b)
    | H : context [(?a ?= ?b)%Z] |- _ => destruct (Z.compare_spec a b)
    | |- context [(?a ?= ?b)%positive] => destruct (Pos.compare_spec a b)
    | H : context [(?a ?= ?b)%positive] |- _ => destruct (Pos.compare_spec a b)
    end;
  simpl in *; try discriminate; try reflexivity; try lia.

Lemma SFltb_trans (a b c : spec_float) :
  SFltb a b = true → SFltb b c = true → SFltb a c = true.
Proof.
  unfold SFltb, SFcompare.
  destruct a as [sa|sa| |sa ma ea], b as [sb|sb| |sb mb eb],
           c as [sc|sc| |sc mc ec];
    try discriminate;
    try (destruct sa; try discriminate); try (destruct sb; try discriminate);
    try (destruct sc; try discriminate); try reflexivity;
    change (Pos.compare_cont Eq ?x ?y) with (x ?= y)%positive in *;
    intros Hab Hbc; order_cases.
Qed.

Ltac order_cases_eq :=
  repeat match goal with
    | |- context [(?a ?= ?b)%Z] => destruct (Z.compare_spec a b)
    | H : context [(?a ?= ?b)%Z] |- _ => destruct (Z.compare_spec a b)
    | |- context [(?a ?= ?b)%positive] => destruct (Pos.compare_spec a b)
    | H : context [(?a ?= ?b)%positive] |- _ => destruct (Pos.compare_spec a b)
    end;
  simpl in *; subst; try discriminate; try reflexivity; try lia.

(** Two values below infinity, neither below the other, compare alike
    with any third. *)
Lemma SFleb_equal (a b z : spec_float) :
  SFltb a (S754_infinity false) = true → SFltb b (S754_infinity false) = true →
  SFltb a b = false → SFltb b a = false → SFleb a z = SFleb b z.
Proof.
  unfold SFltb, SFleb, SFcompare.
  destruct a as [sa|sa| |sa ma ea], b as [sb|sb| |sb mb eb];
    try discriminate;
    try (destruct sa; try discriminate); try (destruct sb; try discriminate);
    intros _ _;
    destruct z as [sz|sz| |sz mz ez]; try reflexivity;
    try (destruct sz; try reflexivity);
    change (Pos.compare_cont Eq ?x ?y) with (x ?= y)%positive in *;
    intros Hab Hba; order_cases_eq.
Qed.

Lemma leb_equal (x y z : float) :
  (x <? PrimFloat.infinity)%float = true → (y <? PrimFloat.infinity)%float = true →
  (x <? y)%float = false → (y <? x)%float = false →
  (x <=? z)%float = (y <=? z)%float.
Proof. rewrite !ltb_spec, !leb_spec. apply SFleb_equal. Qed.

Lemma ltb_irrefl (x : float) : (x <? x)%float = false.
Proof. rewrite ltb_spec. apply SFltb_irrefl. Qed.

Lemma ltb_trans (x y z : float) :
  (x <? y)%float = true → (y <? z)%float = true → (x <? z)%float = true.
Proof. rewrite !ltb_spec. apply SFltb_trans. Qed.

End FloatOrder.

(** ** Facts about the identity tracker *)

Module TrackerFacts.
Import Js FloatOrder.
Export Examples.

(** *** Identifiers *)

Global Instance mintedId_inj : Inj (=) (=) mintedId.
Proof. intros a b [= Heq]. by apply (inj pretty). Qed.

Lemma mintedId_nonempty (n : N) : mintedId n ≠ "".
Proof. discriminate. Qed.

(** *** The bins *)

Lemma addToBins_lookup (bins : gmap binKeyT (list BinEntry))
    (entry : string * LatLon) (k : binKeyT) :
  default [] (addToBins bins entry !! k)
  = default [] (bins !! k)
    ++ (if decide (cellOf (entryOf entry) = k) then [entryOf entry] else []).
Proof.
  destruct entry as [id p]. unfold addToBins, cellOf, entryOf. simpl.
  destruct (decide (binKey (ll_lat p) (ll_lon p) = k)) as [<-|Hne].
  - by rewrite lookup_insert_eq.
  - rewrite lookup_insert_ne by done. by rewrite app_nil_r.
Qed.

Lemma foldl_addToBins_lookup (prevById : list (string * LatLon))
    (bins : gmap binKeyT (list BinEntry)) (k : binKeyT) :
  default [] (foldl addToBins bins prevById !! k)
  = default [] (bins !! k) ++ filter (λ e, cellOf e = k) (entryOf <$> prevById).
Proof.
  revert bins. induction prevById as [|entry prevById IH]; intros bins; simpl.
  - by rewrite app_nil_r.
  - rewrite IH, addToBins_lookup, <- app_assoc. f_equal.
    rewrite filter_cons. by destruct (decide _).
Qed.

Lemma buildBins_lookup (prevById : list (string * LatLon)) (k : binKeyT) :
  default [] (buildBins prevById !! k)
  = filter (λ e, cellOf e = k) (entryOf <$> prevById).
Proof. unfold buildBins. by rewrite foldl_addToBins_lookup, lookup_empty. Qed.

Lemma elem_of_scanned prevById p (e : BinEntry) :
  e ∈ scanned prevById p
  ↔ e ∈ entryOf <$> prevById ∧ cellOf e ∈ neighborBinKeys (lat p) (lon p).
Proof.
  unfold scanned. rewrite list_elem_of_bind. split.
  - intros (nk & [<- He]%list_elem_of_filter & Hnk). done.
  - intros [He Hnk]. exists (cellOf e). split; [|done].
    by apply list_elem_of_filter.
Qed.

Lemma elem_of_candidatesFor prevById used p (e : BinEntry) :
  e ∈ candidatesFor prevById used p
  ↔ e ∈ scanned prevById p ∧ e_id e ∉ used.
Proof.
  unfold candidatesFor. rewrite list_elem_of_filter, elem_of_scanned. tauto.
Qed.

Section scan.
Context `{Runtime} (used : gset string) (p : BalloonPoint).

Lemma scanBin_foldl bins (best : option string * float) (nk : binKeyT) :
  scanBin bins used p best nk
  = foldl (scanCandidate used p) best (default [] (bins !! nk)).
Proof. unfold scanBin. by destruct (bins !! nk). Qed.

Lemma findBest_foldl (prevById : list (string * LatLon)) :
  findBest (buildBins prevById) used p
  = foldl (scanCandidate used p) (None, PrimFloat.infinity)
          (scanned prevById p).
Proof.
  unfold findBest, scanned.
  generalize (None : option string, PrimFloat.infinity).
  induction (neighborBinKeys (lat p) (lon p)) as [|nk nks IH]; intros best.
  - done.
  - simpl. rewrite foldl_app, IH, scanBin_foldl, buildBins_lookup. done.
Qed.

Lemma bestOf_step seen best (c : BinEntry) :
  bestOf used p seen best → bestOf used p (seen ++ [c]) (scanCandidate used p best c).
Proof.
  intros [Hmin Hbest]. unfold scanCandidate.
  destruct (bool_decide_reflect (e_id c ∈ used)) as [Hused|Hfree].
  { split.
    - intros e' [He'|Heq%list_elem_of_singleton]%elem_of_app Hfree; [by apply Hmin|by subst e'].
    - destruct (fst best); [|done].
      destruct Hbest as (e & He & Hrest). exists e. split; [|done].
      apply elem_of_app. by left. }
  fold (distanceKm p c).
  destruct (distanceKm p c <? (snd best))%float eqn:Hlt.
  - split; simpl.
    + intros e' [He'|Heq%list_elem_of_singleton]%elem_of_app Hfree'; [|subst e'].
      * destruct (distanceKm p e' <? distanceKm p c)%float eqn:Hlt'; [|done].
        rewrite <- (Hmin e' He' Hfree'). symmetry. by eapply ltb_trans.
      * apply ltb_irrefl.
    + exists c. split; [apply elem_of_app; right; by apply list_elem_of_singleton|].
      repeat split; [done|].
      destruct (fst best).
      * destruct Hbest as (e & _ & _ & _ & Hkm & Hinf). rewrite Hkm in Hlt.
        by eapply ltb_trans.
      * by rewrite <- Hbest.
  - split.
    + intros e' [He'|Heq%list_elem_of_singleton]%elem_of_app Hfree'; [by apply Hmin|by subst e'].
    + destruct (fst best); [|done].
      destruct Hbest as (e & He & Hrest). exists e. split; [|done].
      apply elem_of_app. by left.
Qed.

Lemma bestOf_foldl seen best (cs : list BinEntry) :
  bestOf used p seen best → bestOf used p (seen ++ cs) (foldl (scanCandidate used p) best cs).
Proof.
  revert seen best. induction cs as [|c cs IH]; intros seen best Hb; simpl.
  - by rewrite app_nil_r.
  - replace (seen ++ c :: cs) with ((seen ++ [c]) ++ cs) by by rewrite <- app_assoc.
    apply IH. by apply bestOf_step.
Qed.

Lemma findBest_bestOf (prevById : list (string * LatLon)) :
  bestOf used p (scanned prevById p) (findBest (buildBins prevById) used p).
Proof.
  rewrite findBest_foldl.
  apply (bestOf_foldl [] (None, PrimFloat.infinity)).
  split; [|done]. intros e' He'. by apply elem_of_nil in He'.
Qed.

(** The two loops end on a nearest candidate, or on none when no
    candidate has a distance below infinity. *)
Lemma findBest_nearest (prevById : list (string * LatLon)) :
  match findBest (buildBins prevById) used p with
  | (Some id, km) =>
      ∃ e, nearest p (candidatesFor prevById used p) e
           ∧ e_id e = id ∧ km = distanceKm p e
  | (None, _) => ∀ e, ¬ nearest p (candidatesFor prevById used p) e
  end.
Proof.
  pose proof (findBest_bestOf prevById) as [Hmin Hbest].
  destruct (findBest _ used p) as [[id|] km]; simpl in *.
  - destruct Hbest as (e & He & Hid & Hfree & -> & Hinf).
    exists e. split; [|done]. split; [|split; [done|]].
    + apply elem_of_candidatesFor. by subst id.
    + intros e' [He' Hfree']%elem_of_candidatesFor. by apply Hmin.
  - subst km. intros e ([He Hfree]%elem_of_candidatesFor & Hinf & _).
    rewrite (Hmin e He Hfree) in Hinf. discriminate.
Qed.
End scan.

(** *** One turn of the loop *)

Lemma entry_id_in_table (prevById : list (string * LatLon)) (e : BinEntry) :
  e ∈ entryOf <$> prevById → e_id e ∈ prevById.*1.
Proof.
  intros (x & -> & Hx)%list_elem_of_fmap. apply list_elem_of_fmap. by exists x.
Qed.

Lemma candidate_id_in_table prevById used p (e : BinEntry) :
  e ∈ candidatesFor prevById used p → e_id e ∈ prevById.*1 ∧ e_id e ∉ used.
Proof.
  intros [[He _]%elem_of_scanned Hfree]%elem_of_candidatesFor.
  split; [by apply entry_id_in_table | done].
Qed.

Lemma stepPoint_cases `{Runtime} (prevById : list (string * LatLon))
    (st : Loop) (idx : nat) (p : BalloonPoint) :
  (∀ id, id ∈ prevById.*1 → id ≠ "") →
  (∃ e, nearest p (candidatesFor prevById (usedPrevIds st) p) e
        ∧ (distanceKm p e <=? 150)%float = true
        ∧ stepPoint (buildBins prevById) st idx p = claim st (e_id e) p idx)
  ∨ ((∀ e, nearest p (candidatesFor prevById (usedPrevIds st) p) e →
           (distanceKm p e <=? 150)%float = false)
     ∧ stepPoint (buildBins prevById) st idx p = mint st p idx).
Proof.
  intros Hids. unfold stepPoint.
  pose proof (findBest_nearest (usedPrevIds st) p prevById) as Hbest.
  destruct (findBest _ _ p) as [[id|] km].
  - destruct Hbest as (e & Hnear & <- & ->).
    assert (String.eqb (e_id e) "" = false) as ->.
    { apply String.eqb_neq, Hids.
      apply (candidate_id_in_table prevById (usedPrevIds st) p e), Hnear. }
    simpl negb. cbv iota. change MATCH_KM with 150%float.
    destruct (distanceKm p e <=? 150)%float eqn:Hle; simpl andb; cbv iota.
    + left. by exists e.
    + right. split; [|done]. intros e' Hnear'. rewrite <- Hle.
      destruct Hnear as (He & Hinf & Hmin), Hnear' as (He' & Hinf' & Hmin').
      apply leb_equal; auto.
  - right. split; [|done]. intros e Hnear. by destruct (Hbest e).
Qed.

(** *** The loop over the points *)

Lemma loopPoints_Assigned `{Runtime} (prevById : list (string * LatLon))
    (points : list BalloonPoint) (idx : nat) (st : Loop) :
  (∀ id, id ∈ prevById.*1 → id ≠ "") →
  ∃ out',
    out (loopPoints (buildBins prevById) idx points st) = out st ++ out'
    ∧ Assigned prevById (usedPrevIds st) (nextId st) idx points out'
               (nextId (loopPoints (buildBins prevById) idx points st)).
Proof.
  intros Hids. revert idx st.
  induction points as [|p points IH]; intros idx st; simpl.
  - exists []. split; [by rewrite app_nil_r | constructor].
  - destruct (stepPoint_cases prevById st idx p Hids)
      as [(e & Hnear & Hle & ->)|[Hfar ->]];
      match goal with |- context [loopPoints _ _ _ ?st'] =>
        destruct (IH (S idx) st') as (out' & Hout & Hass) end;
      rewrite Hout; simpl in *; rewrite <- app_assoc;
      eexists; (split; [done|]).
    + by apply Assigned_claim.
    + by apply Assigned_mint.
Qed.

(** *** What [Assigned] implies *)

Section assigned.
Context `{Runtime} (prevById : list (string * LatLon)).

Lemma Assigned_counter used n idx points out n' :
  Assigned prevById used n idx points out n' → (n ≤ n')%N.
Proof. induction 1; lia. Qed.

Lemma Assigned_points used n idx points out n' :
  Assigned prevById used n idx points out n' →
  Forall2 (λ p o, s_lat o = lat p ∧ s_lon o = lon p ∧ s_meta o = meta p)
          points out
  ∧ s_idx <$> out = seq idx (length points).
Proof.
  induction 1 as [| ? ? ? ? ? ? ? ? _ _ _ [IH1 IH2]
                  | ? ? ? ? ? ? ? _ _ [IH1 IH2]].
  - split; [constructor | done].
  - split; [by constructor | by rewrite fmap_cons, IH2].
  - split; [by constructor | by rewrite fmap_cons, IH2].
Qed.

Lemma Assigned_ids used n idx points out n' :
  Assigned prevById used n idx points out n' →
  Forall (λ o, (s_id o ∈ prevById.*1 ∧ s_id o ∉ used)
               ∨ ∃ k, s_id o = mintedId k ∧ (n ≤ k < n')%N) out.
Proof.
  induction 1 as [| used n idx p points e out n' Hnear _ Hrest IH
                  | used n idx p points out n' _ Hrest IH].
  - constructor.
  - constructor; simpl.
    + left. apply (candidate_id_in_table prevById used p e), Hnear.
    + eapply Forall_impl; [exact IH|]. intros o [[Hin Hfree]|Hk]; [left|by right].
      split; [done|]. intros Hu. apply Hfree, elem_of_union. by right.
  - pose proof (Assigned_counter _ _ _ _ _ _ Hrest).
    constructor; simpl.
    + right. exists n. split; [done|lia].
    + eapply Forall_impl; [exact IH|].
      intros o [?|(k & ? & ?)]; [by left|right]. exists k. split; [done|lia].
Qed.

Lemma Assigned_NoDup used n idx points out n' :
  idsBelow n prevById.*1 →
  Assigned prevById used n idx points out n' → NoDup (s_id <$> out).
Proof.
  intros Hbelow Hass.
  induction Hass as [| used n idx p points e out n' Hnear _ Hrest IH
                     | used n idx p points out n' _ Hrest IH]; simpl.
  - constructor.
  - apply NoDup_cons. split; [|by apply IH].
    destruct ((candidate_id_in_table _ _ p e) (proj1 Hnear)) as [Hin _].
    destruct (Hbelow _ Hin) as (k' & Hk' & Hlt).
    intros (o & Heq & Ho)%list_elem_of_fmap.
    pose proof (Assigned_ids _ _ _ _ _ _ Hrest) as Hids.
    rewrite Forall_forall in Hids.
    destruct (Hids o Ho) as [[_ Hfree]|(k & Hk & Hge)].
    + rewrite <- Heq in Hfree. apply Hfree, elem_of_union. left.
      by apply elem_of_singleton.
    + rewrite <- Heq, Hk' in Hk. apply (inj mintedId) in Hk. lia.
  - apply NoDup_cons. split.
    + intros (o & Heq & Ho)%list_elem_of_fmap.
      pose proof (Assigned_ids _ _ _ _ _ _ Hrest) as Hids.
      rewrite Forall_forall in Hids. fold (mintedId n) in Heq.
      destruct (Hids o Ho) as [[Hin _]|(k & Hk & Hge)].
      * destruct (Hbelow _ Hin) as (k' & Hk' & Hlt).
        rewrite <- Heq in Hk'. apply (inj mintedId) in Hk'. lia.
      * rewrite <- Heq in Hk. apply (inj mintedId) in Hk. lia.
    + apply IH. intros id Hid. destruct (Hbelow id Hid) as (k & Hk & Hlt).
      exists k. split; [done|lia].
Qed.

Lemma Assigned_fresh used n idx points out n' :
  idsBelow n prevById.*1 →
  Assigned prevById used n idx points out n' →
  freshIds prevById out
    = mintedId <$> countFrom n (length (freshIds prevById out))
  ∧ n' = (n + N.of_nat (length (freshIds prevById out)))%N.
Proof.
  intros Hbelow Hass. unfold freshIds.
  induction Hass as [| used n idx p points e out n' Hnear _ Hrest IH
                     | used n idx p points out n' _ Hrest IH].
  - simpl. split; [done|lia].
  - destruct ((candidate_id_in_table _ _ p e) (proj1 Hnear)) as [Hin _].
    rewrite fmap_cons. simpl s_id. rewrite filter_cons_False by tauto.
    by apply IH.
  - rewrite fmap_cons. simpl s_id. fold (mintedId n).
    rewrite filter_cons_True.
    2:{ intros Hin. destruct (Hbelow _ Hin) as (k & Hk%(inj mintedId) & Hlt). lia. }
    destruct IH as [IH1 IH2].
    { intros id Hid. destruct (Hbelow id Hid) as (k & Hk & Hlt).
      exists k. split; [done|lia]. }
    cbn [length countFrom]. rewrite fmap_cons.
    split; [by rewrite <- IH1 | lia].
Qed.
End assigned.

(** *** The new table *)

Lemma Map_set_fresh {V} (k : string) (v : V) (m : list (string * V)) :
  k ∉ m.*1 → Map_set k v m = m ++ [(k, v)].
Proof.
  induction m as [|[k' v'] m IH]; simpl; [done|].
  intros Hk. destruct (String.eqb_spec k k') as [->|Hne].
  - destruct Hk. by left.
  - rewrite IH; [done|]. intros Hin. apply Hk. by right.
Qed.

Lemma foldl_Map_set_fresh (newPrev : list (string * LatLon)) (out : list Stabilized) :
  NoDup (newPrev.*1 ++ (s_id <$> out)) →
  foldl (λ newPrev p, Map_set (s_id p) (mkLatLon (s_lat p) (s_lon p)) newPrev)
        newPrev out
  = newPrev ++ (pairOf <$> out).
Proof.
  revert newPrev. induction out as [|o out IH]; intros newPrev Hnd; simpl.
  - by rewrite app_nil_r.
  - rewrite fmap_cons in Hnd.
    assert (s_id o ∉ newPrev.*1) as Hfresh.
    { apply NoDup_app in Hnd as (_ & Hdisj & _). intros Hin.
      apply (Hdisj _ Hin). by left. }
    rewrite Map_set_fresh by done. rewrite IH.
    + by rewrite <- app_assoc.
    + rewrite fmap_app. simpl. by rewrite <- app_assoc.
Qed.

Lemma newPrevOf_NoDup (out : list Stabilized) :
  NoDup (s_id <$> out) → newPrevOf out = pairOf <$> out.
Proof. intros Hnd. unfold newPrevOf. by rewrite foldl_Map_set_fresh. Qed.

Lemma fst_pairOf (out : list Stabilized) : (pairOf <$> out).*1 = s_id <$> out.
Proof. rewrite <- list_fmap_compose. done. Qed.

(** *** One call of [assignStableIds] *)

Lemma idsBelow_nonempty (n : N) (ids : list string) :
  idsBelow n ids → ∀ id, id ∈ ids → id ≠ "".
Proof. intros Hb id (k & -> & _)%Hb. apply mintedId_nonempty. Qed.

Lemma assignStableIds_Assigned `{Runtime} (refs : Refs) (points : list BalloonPoint) :
  RefsOk refs →
  Assigned (prevByIdRef refs) ∅ (nextIdRef refs) 0 points
           (assignStableIds refs points).1
           (nextIdRef (assignStableIds refs points).2).
Proof.
  intros [Hbelow _]. unfold assignStableIds. simpl.
  destruct (loopPoints_Assigned (prevByIdRef refs) points 0
              (mkLoop ∅ (nextIdRef refs) []))
    as (out' & Hout & Hass); [by eapply idsBelow_nonempty|].
  simpl in *. by rewrite Hout.
Qed.

Lemma assignStableIds_NoDup `{Runtime} (refs : Refs) (points : list BalloonPoint) :
  RefsOk refs → NoDup (s_id <$> (assignStableIds refs points).1).
Proof.
  intros Hok. eapply Assigned_NoDup; [|by apply assignStableIds_Assigned].
  apply Hok.
Qed.

Lemma assignStableIds_table `{Runtime} (refs : Refs) (points : list BalloonPoint) :
  RefsOk refs →
  prevByIdRef (assignStableIds refs points).2
  = pairOf <$> (assignStableIds refs points).1.
Proof.
  intros Hok. pose proof (assignStableIds_NoDup refs points Hok) as Hnd.
  unfold assignStableIds in *. simpl in *. by apply newPrevOf_NoDup.
Qed.

Lemma assignStableIds_RefsOk `{Runtime} (refs : Refs) (points : list BalloonPoint) :
  RefsOk refs → RefsOk (assignStableIds refs points).2.
Proof.
  intros Hok. unfold RefsOk.
  rewrite assignStableIds_table, fst_pairOf by done.
  split; [|by apply assignStableIds_NoDup].
  pose proof (assignStableIds_Assigned refs points Hok) as Hass.
  pose proof (Assigned_counter _ _ _ _ _ _ _ Hass) as Hle.
  pose proof (Assigned_ids _ _ _ _ _ _ _ Hass) as Hids.
  rewrite Forall_forall in Hids.
  intros id (o & -> & Ho)%list_elem_of_fmap.
  destruct (Hids o Ho) as [[Hin _]|(k & Hk & Hlt)].
  - destruct (proj1 Hok _ Hin) as (k & Hk & Hlt). exists k. split; [done|lia].
  - exists k. split; [done|lia].
Qed.

Lemma reachable_RefsOk `{Runtime} (refs : Refs) : reachable refs → RefsOk refs.
Proof.
  induction 1 as [|refs points _ IH].
  - split; [|constructor]. intros id Hid. by apply elem_of_nil in Hid.
  - by apply assignStableIds_RefsOk.
Qed.

(** *** The identifiers minted since the start *)

Lemma elem_of_countFrom (n : N) (len : nat) (k : N) :
  k ∈ countFrom n len ↔ (n ≤ k < n + N.of_nat len)%N.
Proof.
  revert n. induction len as [|len IH]; intros n; simpl.
  - rewrite elem_of_nil. lia.
  - rewrite elem_of_cons, IH. lia.
Qed.

Lemma NoDup_countFrom (n : N) (len : nat) : NoDup (countFrom n len).
Proof.
  revert n. induction len as [|len IH]; intros n; simpl; [constructor|].
  apply NoDup_cons. split; [|apply IH]. rewrite elem_of_countFrom. lia.
Qed.

Lemma ran_reachable `{Runtime} (minted : list string) (refs : Refs) :
  ran minted refs → reachable refs.
Proof. induction 1; by constructor. Qed.

Lemma reachable_ran `{Runtime} (refs : Refs) :
  reachable refs → ∃ minted, ran minted refs.
Proof.
  induction 1 as [|refs points _ [minted IH]].
  - exists []. constructor.
  - eexists. by apply ran_poll.
Qed.

(** No identifier was minted twice, and each came from a number below the
    counter. *)
Lemma ran_minted `{Runtime} (minted : list string) (refs : Refs) :
  ran minted refs → idsBelow (nextIdRef refs) minted ∧ NoDup minted.
Proof.
  induction 1 as [|minted refs points Hran [Hbelow Hnd]].
  - split; [|constructor]. intros id Hid. by apply elem_of_nil in Hid.
  - pose proof (reachable_RefsOk refs (ran_reachable _ _ Hran)) as Hok.
    pose proof (assignStableIds_Assigned refs points Hok) as Hass.
    destruct (Assigned_fresh _ _ _ _ _ _ _ (proj1 Hok) Hass) as [Hfresh Hnext].
    set (fresh := freshIds (prevByIdRef refs) (assignStableIds refs points).1) in *.
    set (len := length fresh) in *. clearbody len.
    rewrite Hnext, Hfresh. split.
    + intros id [Hold|Hnew]%elem_of_app.
      * destruct (Hbelow id Hold) as (k & Hk & Hlt). exists k. split; [done|lia].
      * apply list_elem_of_fmap in Hnew as (k & -> & Hk%elem_of_countFrom).
        exists k. split; [done|lia].
    + apply NoDup_app. split; [done|]. split.
      * intros id Hold (k & -> & Hk%elem_of_countFrom)%list_elem_of_fmap.
        destruct (Hbelow _ Hold) as (k' & Heq%(inj mintedId) & Hlt). lia.
      * apply NoDup_fmap_2; [apply _|apply NoDup_countFrom].
Qed.

(** The nine keys around a position: its cell index plus -1, 0 or 1 on
    each axis. *)
Lemma neighborBinKeys_spec (lat lon : float) (k : binKeyT) :
  k ∈ neighborBinKeys lat lon
  ↔ ∃ dy dx, dy ∈ [(-1)%float; 0%float; 1%float]
             ∧ dx ∈ [(-1)%float; 0%float; 1%float]
             ∧ k = (numText (Math_floor ((lat + 90) / BIN_DEG) + dy)%float,
                    numText (Math_floor ((lon + 180) / BIN_DEG) + dx)%float).
Proof.
  unfold neighborBinKeys. split.
  - intros (dy & (dx & Hk%list_elem_of_singleton & Hdx)%list_elem_of_bind & Hdy)
             %list_elem_of_bind.
    by exists dy, dx.
  - intros (dy & dx & Hdy & Hdx & ->). apply list_elem_of_bind.
    exists dy. split; [|done]. apply list_elem_of_bind.
    exists dx. split; [by apply list_elem_of_singleton | done].
Qed.

(** The cell of a previous position: the integer parts of its latitude
    plus 90 and of its longitude plus 180, cells of one degree. *)
Lemma cellOf_spec (e : BinEntry) :
  cellOf e = (numText (Math_floor ((e_lat e + 90) / 1)%float),
              numText (Math_floor ((e_lon e + 180) / 1)%float)).
Proof. reflexivity. Qed.

(** The candidates for a point: the previous positions not yet claimed
    whose cell index is that of the point plus -1, 0 or 1 on each axis. *)
Lemma candidatesFor_spec (prevById : list (string * LatLon)) (used : gset string)
    (p : BalloonPoint) (e : BinEntry) :
  e ∈ candidatesFor prevById used p
  ↔ e ∈ entryOf <$> prevById
    ∧ (e_id e ∉ used)
    ∧ ∃ dy dx, dy ∈ [(-1)%float; 0%float; 1%float]
               ∧ dx ∈ [(-1)%float; 0%float; 1%float]
               ∧ numText (Math_floor ((e_lat e + 90) / 1)%float)
                 = numText (Math_floor ((lat p + 90) / 1) + dy)%float
               ∧ numText (Math_floor ((e_lon e + 180) / 1)%float)
                 = numText (Math_floor ((lon p + 180) / 1) + dx)%float.
Proof.
  rewrite elem_of_candidatesFor, elem_of_scanned, neighborBinKeys_spec, cellOf_spec.
  split.
  - intros [[He (dy & dx & Hdy & Hdx & [= Hy Hx])] Hfree].
    split; [done|]. split; [done|]. by exists dy, dx.
  - intros (He & Hfree & dy & dx & Hdy & Hdx & Hy & Hx).
    split; [|done]. split; [done|]. exists dy, dx.
    split; [done|]. split; [done|]. by rewrite Hy, Hx.
Qed.

(** *** The claims *)

(** C1. In every poll [assignStableIds] takes the points in list order.
    For each it looks only at the previous positions filed under the nine
    keys around the point, a position being filed under the cell of one
    degree that holds it: the candidates are the unclaimed previous
    positions whose cell index is that of the point plus -1, 0 or 1 on
    each axis.  It takes the haversine distance (radius 6371 km) to each
    candidate, and keeps one at minimum distance; if
    that distance is at most 150 km, the bound included, the point gets
    that identifier and the identifier is claimed; otherwise the point
    gets the letter b followed by the counter, and the counter goes up by
    one.  The counter never goes down, every identifier in the table came
    from a number below it, the fresh identifiers of a poll are those of
    the consecutive numbers from the counter on, and none of them was
    minted in an earlier poll, whether it is still in the table or not. *)
Theorem assignStableIds_greedy_nearest `{Runtime}
    (refs : Refs) (points : list BalloonPoint) :
  reachable refs →
  let out := (assignStableIds refs points).1 in
  let refs' := (assignStableIds refs points).2 in
  Assigned (prevByIdRef refs) ∅ (nextIdRef refs) 0 points out (nextIdRef refs')
  ∧ (∀ p e,
       distanceKm p e
       = let toRad (d : float) := (d * Math_PI / 180)%float in
         let s1 := Math_sin (toRad (e_lat e - lat p) / 2)%float in
         let s2 := Math_sin (toRad (e_lon e - lon p) / 2)%float in
         let q := (s1 * s1
                   + Math_cos (toRad (lat p)) * Math_cos (toRad (e_lat e)) * s2 * s2)%float in
         (2 * 6371 * Math_asin (Math_min 1 (PrimFloat.sqrt q)))%float)
  ∧ (∀ lat lon, length (neighborBinKeys lat lon) = 9)
  ∧ (∀ lat lon k,
       k ∈ neighborBinKeys lat lon
       ↔ ∃ dy dx, dy ∈ [(-1)%float; 0%float; 1%float]
                  ∧ dx ∈ [(-1)%float; 0%float; 1%float]
                  ∧ k = (numText (Math_floor ((lat + 90) / 1) + dy)%float,
                         numText (Math_floor ((lon + 180) / 1) + dx)%float))
  ∧ (∀ e, cellOf e = (numText (Math_floor ((e_lat e + 90) / 1)%float),
                      numText (Math_floor ((e_lon e + 180) / 1)%float)))
  ∧ (∀ prevById used p e,
       e ∈ candidatesFor prevById used p
       ↔ e ∈ entryOf <$> prevById
         ∧ (e_id e ∉ used)
         ∧ ∃ dy dx, dy ∈ [(-1)%float; 0%float; 1%float]
                    ∧ dx ∈ [(-1)%float; 0%float; 1%float]
                    ∧ numText (Math_floor ((e_lat e + 90) / 1)%float)
                      = numText (Math_floor ((lat p + 90) / 1) + dy)%float
                    ∧ numText (Math_floor ((e_lon e + 180) / 1)%float)
                      = numText (Math_floor ((lon p + 180) / 1) + dx)%float)
  ∧ (nextIdRef refs ≤ nextIdRef refs')%N
  ∧ idsBelow (nextIdRef refs) (prevByIdRef refs).*1
  ∧ freshIds (prevByIdRef refs) out
    = mintedId <$> countFrom (nextIdRef refs) (length (freshIds (prevByIdRef refs) out))
  ∧ nextIdRef refs'
    = (nextIdRef refs + N.of_nat (length (freshIds (prevByIdRef refs) out)))%N
  ∧ (∀ minted, ran minted refs →
               NoDup (minted ++ freshIds (prevByIdRef refs) out)).
Proof.
  intros Hok%reachable_RefsOk out refs'.
  pose proof (assignStableIds_Assigned refs points Hok) as Hass.
  destruct (Assigned_fresh _ _ _ _ _ _ _ (proj1 Hok) Hass) as [Hfresh Hnext].
  split; [done|]. split; [done|]. split; [done|].
  split; [apply neighborBinKeys_spec|].
  split; [apply cellOf_spec|]. split; [apply candidatesFor_spec|].
  split; [by eapply Assigned_counter|]. split; [apply Hok|].
  split; [done|]. split; [done|].
  intros minted Hran. by apply (ran_minted _ _ (ran_poll minted refs points Hran)).
Qed.

Example two_polls :
  afterFirstPoll
  = mkRefs 3 [("b1", mkLatLon 10 20); ("b2", mkLatLon 60 60)]%float
  ∧ assignStableIds (H := Sample.runtime) afterFirstPoll secondPoll
    = ([mkStabilized "b1" 10.25 20.25 None 0;
        mkStabilized "b3" (-45) 100 (Some 7%float) 1]%float,
       mkRefs 4 [("b1", mkLatLon 10.25 20.25); ("b3", mkLatLon (-45) 100)]%float).
Proof. split; vm_compute; reflexivity. Qed.

Lemma reachable_afterFirstPoll : reachable (H := Sample.runtime) afterFirstPoll.
Proof. apply reachable_poll, reachable_initial. Qed.

Lemma assignStableIds_greedy_nearest_witness :
  let H := Sample.runtime in
  let refs := afterFirstPoll in
  let out := (assignStableIds refs secondPoll).1 in
  let refs' := (assignStableIds refs secondPoll).2 in
  Assigned (prevByIdRef refs) ∅ (nextIdRef refs) 0 secondPoll out (nextIdRef refs')
  ∧ (∀ p e,
       distanceKm p e
       = let toRad (d : float) := (d * Math_PI / 180)%float in
         let s1 := Math_sin (toRad (e_lat e - lat p) / 2)%float in
         let s2 := Math_sin (toRad (e_lon e - lon p) / 2)%float in
         let q := (s1 * s1
                   + Math_cos (toRad (lat p)) * Math_cos (toRad (e_lat e)) * s2 * s2)%float in
         (2 * 6371 * Math_asin (Math_min 1 (PrimFloat.sqrt q)))%float)
  ∧ (∀ lat lon, length (neighborBinKeys lat lon) = 9)
  ∧ (∀ lat lon k,
       k ∈ neighborBinKeys lat lon
       ↔ ∃ dy dx, dy ∈ [(-1)%float; 0%float; 1%float]
                  ∧ dx ∈ [(-1)%float; 0%float; 1%float]
                  ∧ k = (numText (Math_floor ((lat + 90) / 1) + dy)%float,
                         numText (Math_floor ((lon + 180) / 1) + dx)%float))
  ∧ (∀ e, cellOf e = (numText (Math_floor ((e_lat e + 90) / 1)%float),
                      numText (Math_floor ((e_lon e + 180) / 1)%float)))
  ∧ (∀ prevById used p e,
       e ∈ candidatesFor prevById used p
       ↔ e ∈ entryOf <$> prevById
         ∧ (e_id e ∉ used)
         ∧ ∃ dy dx, dy ∈ [(-1)%float; 0%float; 1%float]
                    ∧ dx ∈ [(-1)%float; 0%float; 1%float]
                    ∧ numText (Math_floor ((e_lat e + 90) / 1)%float)
                      = numText (Math_floor ((lat p + 90) / 1) + dy)%float
                    ∧ numText (Math_floor ((e_lon e + 180) / 1)%float)
                      = numText (Math_floor ((lon p + 180) / 1) + dx)%float)
  ∧ (nextIdRef refs ≤ nextIdRef refs')%N
  ∧ idsBelow (nextIdRef refs) (prevByIdRef refs).*1
  ∧ freshIds (prevByIdRef refs) out
    = mintedId <$> countFrom (nextIdRef refs) (length (freshIds (prevByIdRef refs) out))
  ∧ nextIdRef refs'
    = (nextIdRef refs + N.of_nat (length (freshIds (prevByIdRef refs) out)))%N
  ∧ (∀ minted, ran minted refs →
               NoDup (minted ++ freshIds (prevByIdRef refs) out)).
Proof.
  intros H refs out refs'.
  apply (assignStableIds_greedy_nearest (H := H) refs secondPoll).
  apply reachable_poll, reachable_initial.
Defined.

(** C2. The identifiers of one poll differ from one another: an
    identifier of the previous table goes to at most one point, and a
    minted identifier is neither another minted one nor in that table. *)
Theorem assignStableIds_ids_unique `{Runtime}
    (refs : Refs) (points : list BalloonPoint) :
  reachable refs →
  let out := (assignStableIds refs points).1 in
  let refs' := (assignStableIds refs points).2 in
  NoDup (s_id <$> out)
  ∧ (∀ i j a b, out !! i = Some a → out !! j = Some b → s_id a = s_id b → i = j)
  ∧ Forall (λ o, s_id o ∈ (prevByIdRef refs).*1
                 ∨ ∃ k, s_id o = mintedId k
                        ∧ (nextIdRef refs ≤ k < nextIdRef refs')%N) out
  ∧ (∀ k, (nextIdRef refs ≤ k)%N → mintedId k ∉ (prevByIdRef refs).*1)
  ∧ (∀ k k', mintedId k = mintedId k' → k = k').
Proof.
  intros Hok%reachable_RefsOk out refs'.
  pose proof (assignStableIds_NoDup refs points Hok) as Hnd. fold out in Hnd.
  split; [done|]. split; [|split; [|split]].
  - intros i j a b Ha Hb Hab.
    apply (NoDup_lookup (s_id <$> out) i j (s_id a)); [done| |].
    + by rewrite list_lookup_fmap, Ha.
    + by rewrite list_lookup_fmap, Hb, Hab.
  - pose proof (assignStableIds_Assigned refs points Hok) as Hass.
    eapply Forall_impl; [by eapply Assigned_ids|].
    intros o [[Hin _]|Hk]; [by left | by right].
  - intros k Hk Hin. destruct (proj1 Hok _ Hin) as (k' & Heq%(inj mintedId) & Hlt). lia.
  - intros k k'. apply (inj mintedId).
Qed.

Lemma assignStableIds_ids_unique_witness :
  let H := Sample.runtime in
  let refs := afterFirstPoll in
  let out := (assignStableIds refs secondPoll).1 in
  let refs' := (assignStableIds refs secondPoll).2 in
  NoDup (s_id <$> out)
  ∧ (∀ i j a b, out !! i = Some a → out !! j = Some b → s_id a = s_id b → i = j)
  ∧ Forall (λ o, s_id o ∈ (prevByIdRef refs).*1
                 ∨ ∃ k, s_id o = mintedId k
                        ∧ (nextIdRef refs ≤ k < nextIdRef refs')%N) out
  ∧ (∀ k, (nextIdRef refs ≤ k)%N → mintedId k ∉ (prevByIdRef refs).*1)
  ∧ (∀ k k', mintedId k = mintedId k' → k = k').
Proof.
  intros H refs out refs'.
  apply (assignStableIds_ids_unique (H := H) refs secondPoll).
  apply reachable_poll, reachable_initial.
Defined.

(** C7. A poll whose fetch or whose normaliser raises leaves the table
    and the counter as they were; a poll that succeeds replaces the table
    by the pairs of identifier and position computed for its points, and
    nothing else.  A call made while another is in flight does nothing. *)
Theorem refreshBalloons_all_or_nothing `{Runtime}
    (outcome : FetchOutcome) (c : Component) :
  reachable (refs c) →
  (inFlightRef c = true → refreshBalloons outcome c = c)
  ∧ (inFlightRef c = false →
     match fetchLatestBalloonsWithMeta outcome 0 with
     | Throws msg =>
         refs (refreshBalloons outcome c) = refs c
         ∧ error (refreshBalloons outcome c) = Some msg
     | Returns payload =>
         let out := (assignStableIds (refs c) (points payload)).1 in
         fcRef (refreshBalloons outcome c) = Some out
         ∧ prevByIdRef (refs (refreshBalloons outcome c)) = pairOf <$> out
         ∧ Forall2 (λ p o, s_lat o = lat p ∧ s_lon o = lon p ∧ s_meta o = meta p)
                   (points payload) out
     end)
  ∧ (∀ msg, outcome = FetchRejects msg →
            fetchLatestBalloonsWithMeta outcome 0 = Throws msg)
  ∧ (∀ status json, outcome = FetchResponds false status json →
            fetchLatestBalloonsWithMeta outcome 0
            = Throws ("API fetch failed: " +:+ pretty status))
  ∧ (∀ status raw msg, outcome = FetchResponds true status (Returns raw) →
            extractLatestPositions raw = Throws msg →
            fetchLatestBalloonsWithMeta outcome 0 = Throws msg)
  ∧ reachable (refs (refreshBalloons outcome c)).
Proof.
  intros Hreach. pose proof (reachable_RefsOk _ Hreach) as Hok.
  split; [|split; [|split; [|split; [|split]]]].
  - intros Hfl. unfold refreshBalloons. by rewrite Hfl.
  - intros Hfl. unfold refreshBalloons. rewrite Hfl.
    destruct (fetchLatestBalloonsWithMeta outcome 0) as [payload|msg]; [|done].
    pose proof (assignStableIds_table (refs c) (points payload) Hok) as Htable.
    pose proof (assignStableIds_Assigned (refs c) (points payload) Hok) as Hass.
    apply Assigned_points in Hass as [Hpts _].
    destruct (assignStableIds (refs c) (points payload)) as [out refs'].
    done.
  - by intros msg ->.
  - by intros status json ->.
  - intros status raw msg -> Hraise. simpl. by rewrite Hraise.
  - unfold refreshBalloons. destruct (inFlightRef c); [done|].
    destruct (fetchLatestBalloonsWithMeta outcome 0) as [payload|msg]; [|done].
    pose proof (reachable_poll (refs c) (points payload) Hreach) as Hnext.
    by destruct (assignStableIds (refs c) (points payload)).
Qed.

Lemma refreshBalloons_all_or_nothing_witness :
  let H := Sample.runtime in
  let c := componentAfterFirstPoll in
  let outcome := secondAnswer in
  (inFlightRef c = true → refreshBalloons outcome c = c)
  ∧ (inFlightRef c = false →
     match fetchLatestBalloonsWithMeta outcome 0 with
     | Throws msg =>
         refs (refreshBalloons outcome c) = refs c
         ∧ error (refreshBalloons outcome c) = Some msg
     | Returns payload =>
         let out := (assignStableIds (refs c) (points payload)).1 in
         fcRef (refreshBalloons outcome c) = Some out
         ∧ prevByIdRef (refs (refreshBalloons outcome c)) = pairOf <$> out
         ∧ Forall2 (λ p o, s_lat o = lat p ∧ s_lon o = lon p ∧ s_meta o = meta p)
                   (points payload) out
     end)
  ∧ (∀ msg, outcome = FetchRejects msg →
            fetchLatestBalloonsWithMeta outcome 0 = Throws msg)
  ∧ (∀ status json, outcome = FetchResponds false status json →
            fetchLatestBalloonsWithMeta outcome 0
            = Throws ("API fetch failed: " +:+ pretty status))
  ∧ (∀ status raw msg, outcome = FetchResponds true status (Returns raw) →
            extractLatestPositions raw = Throws msg →
            fetchLatestBalloonsWithMeta outcome 0 = Throws msg)
  ∧ reachable (refs (refreshBalloons outcome c)).
Proof.
  intros H c outcome.
  apply (refreshBalloons_all_or_nothing (H := H) outcome c).
  apply reachable_poll, reachable_initial.
Defined.

(** The second poll succeeding, and failing in the two ways: the route
    answers 502, or it answers a payload of no known shape. *)
Example polls_succeed_or_leave_refs :
  let H := Sample.runtime in
  let c := componentAfterFirstPoll in
  refs (refreshBalloons secondAnswer c)
  = mkRefs 4 [("b1", mkLatLon 10.25 20.25); ("b3", mkLatLon (-45) 100)]%float
  ∧ refreshBalloons (FetchResponds false 502 (Returns VNull)) c
    = mkComponent false afterFirstPoll (Some "API fetch failed: 502") false None None
  ∧ refreshBalloons (FetchResponds true 200 (Returns (VObj [("data", VNum 1)]))) c
    = mkComponent false afterFirstPoll
        (Some "Unexpected balloon data shape. Preview: 1") false None None.
Proof. repeat split; vm_compute; reflexivity. Qed.

End TrackerFacts.

(** ** The neighbourhood does not wrap around *)

Module NeighbourhoodFacts.
Import Js.
Export TrackerFacts.

Lemma realOf_zero : realOf 0 = 0%R.
Proof. reflexivity. Qed.

Lemma realOf_east : realOf 179.5 = 179.5%R.
Proof.
  unfold realOf.
  change (Prim2SF 179.5) with (S754_finite false 6315594789945344 (-45)).
  cbv beta iota zeta. change (0 <=? -45)%Z with false. cbv iota.
  change (2 ^ (- -45))%Z with 35184372088832%Z. lra.
Qed.

Lemma realOf_west : realOf (-179.5) = (-179.5)%R.
Proof.
  unfold realOf.
  change (Prim2SF (-179.5)) with (S754_finite true 6315594789945344 (-45)).
  cbv beta iota zeta. change (0 <=? -45)%Z with false. cbv iota.
  change (2 ^ (- -45))%Z with 35184372088832%Z. lra.
Qed.

(** One degree of arc across the meridian is about 111 km. *)
Lemma across_meridian_km :
  (greatCircleKm 0 (-179.5) 0 179.5 <= 150)%R.
Proof.
  unfold greatCircleKm.
  pose proof PI_RGT_0 as Hpi. pose proof PI_4 as Hpi4.
  replace ((0 - 0) * PI / 180 / 2)%R with 0%R by lra.
  replace (0 * PI / 180)%R with 0%R by lra.
  replace ((179.5 - -179.5) * PI / 180 / 2)%R with (PI - PI / 360)%R by lra.
  rewrite sin_PI_x, sin_0, cos_0.
  assert (0 < sin (PI / 360))%R as Hs by (apply sin_gt_0; lra).
  replace (0 * 0 + 1 * 1 * sin (PI / 360) * sin (PI / 360))%R
    with (sin (PI / 360) * sin (PI / 360))%R by ring.
  rewrite sqrt_square by lra.
  rewrite Rmin_right by apply SIN_bound.
  rewrite asin_sin by lra. lra.
Qed.

Lemma east_not_in_neighbourhood :
  binKey (ll_lat east) (ll_lon east) ∉ neighborBinKeys (lat west) (lon west).
Proof.
  assert (bool_decide (binKey (ll_lat east) (ll_lon east)
                       ∈ neighborBinKeys (lat west) (lon west)) = false) as Hd
    by (vm_compute; reflexivity).
  by apply bool_decide_eq_false in Hd.
Qed.

Lemma nothing_scanned (id : string) : scanned [(id, east)] west = [].
Proof.
  apply elem_of_nil_inv. intros e [He Hcell]%elem_of_scanned.
  apply list_elem_of_singleton in He. subst e.
  by apply east_not_in_neighbourhood.
Qed.

Lemma west_gets_minted `{Runtime} (n : N) (id : string) :
  assignStableIds (mkRefs n [(id, east)]) [west]
  = ([mkStabilized (mintedId n) (lat west) (lon west) (meta west) 0],
     mkRefs (n + 1) [(mintedId n, mkLatLon (lat west) (lon west))]).
Proof.
  unfold assignStableIds, loopPoints, stepPoint.
  cbn [prevByIdRef nextIdRef usedPrevIds].
  rewrite findBest_foldl, nothing_scanned. reflexivity.
Qed.

(** C9. The search for candidates does not wrap the longitude: there are
    a previous position and a current point, on the two sides of the 180th
    meridian, whose great-circle distance is below 150 km, and for which
    [assignStableIds] mints an identifier instead of giving the previous
    one again, because the cell of the one is not among the nine cells
    around the other. *)
Theorem antimeridian_pair_gets_new_id :
  ∃ (a : LatLon) (p : BalloonPoint),
    (greatCircleKm (realOf (lat p)) (realOf (lon p))
                   (realOf (ll_lat a)) (realOf (ll_lon a)) <= 150)%R
    ∧ (binKey (ll_lat a) (ll_lon a) ∉ neighborBinKeys (lat p) (lon p))
    ∧ ∀ (H : Runtime) (refs : Refs) (id : string),
        reachable refs → prevByIdRef refs = [(id, a)] →
        (s_id <$> (assignStableIds refs [p]).1) = [mintedId (nextIdRef refs)]
        ∧ mintedId (nextIdRef refs) ≠ id
        ∧ prevByIdRef (assignStableIds refs [p]).2
          = [(mintedId (nextIdRef refs), mkLatLon (lat p) (lon p))].
Proof.
  exists east, west. split; [|split].
  - simpl. rewrite realOf_zero, realOf_east, realOf_west.
    apply across_meridian_km.
  - apply east_not_in_neighbourhood.
  - intros H [n prev] id Hreach Hprev. simpl in Hprev. subst prev.
    rewrite west_gets_minted. split; [done|]. split; [|done].
    apply reachable_RefsOk in Hreach as [Hbelow _].
    destruct (Hbelow id) as (k & -> & Hlt); [by left|].
    simpl in Hlt. intros Heq%(inj mintedId). simpl in Heq. lia.
Qed.

(** A balloon that crosses the meridian between two polls, on the sample
    runtime: it was [b1] and becomes [b2]. *)
Example crossing_the_meridian :
  let H := Sample.runtime in
  let refs := (assignStableIds initialRefs [mkPoint 0 179.5 None]).2 in
  prevByIdRef refs = [("b1", east)]
  ∧ (s_id <$> (assignStableIds refs [west]).1) = ["b2"].
Proof. split; vm_compute; reflexivity. Qed.

End NeighbourhoodFacts.

(** ** More on the order of doubles *)

Module FloatFacts.
Import FloatOrder.

Ltac sf_cases :=
  repeat match goal with
    | |- context [(?a ?= ?b)%Z] => destruct (Z.compare_spec a b)
    | H : context [(?a ?= ?b)%Z] |- _ => destruct (Z.compare_spec a b)
    | |- context [(?a ?= ?b)%positive] => destruct (Pos.compare_spec a b)
    | H : context [(?a ?= ?b)%positive] |- _ => destruct (Pos.compare_spec a b)
    end;
  simpl in *; subst; try discriminate; try reflexivity; try lia.

Lemma SFleb_of_not_ltb (a b : spec_float) :
  a ≠ S754_nan → b ≠ S754_nan → SFltb b a = false → SFleb a b = true.
Proof.
  unfold SFltb, SFleb, SFcompare.
  destruct a as [sa|sa| |sa ma ea], b as [sb|sb| |sb mb eb]; try done;
    intros _ _;
    try (destruct sa; try done); try (destruct sb; try done);
    change (Pos.compare_cont Eq ?x ?y) with (x ?= y)%positive in *;
    intros Hba; sf_cases.
Qed.

Lemma SFltb_of_leb (a b : spec_float) :
  SFleb a b = true → SFltb b a = false.
Proof.
  unfold SFltb, SFleb, SFcompare.
  destruct a as [sa|sa| |sa ma ea], b as [sb|sb| |sb mb eb]; try done;
    try (destruct sa; try done); try (destruct sb; try done);
    change (Pos.compare_cont Eq ?x ?y) with (x ?= y)%positive in *;
    intros Hab; sf_cases.
Qed.

Lemma SFleb_trans (a b c : spec_float) :
  SFleb a b = true → SFleb b c = true → SFleb a c = true.
Proof.
  unfold SFleb, SFcompare.
  destruct a as [sa|sa| |sa ma ea], b as [sb|sb| |sb mb eb],
           c as [sc|sc| |sc mc ec];
    try discriminate;
    try (destruct sa; try discriminate); try (destruct sb; try discriminate);
    try (destruct sc; try discriminate); try reflexivity;
    change (Pos.compare_cont Eq ?x ?y) with (x ?= y)%positive in *;
    intros Hab Hbc; sf_cases.
Qed.

Lemma SFleb_ltb_trans (a b c : spec_float) :
  SFleb a b = true → SFltb b c = true → SFltb a c = true.
Proof.
  unfold SFleb, SFltb, SFcompare.
  destruct a as [sa|sa| |sa ma ea], b as [sb|sb| |sb mb eb],
           c as [sc|sc| |sc mc ec];
    try discriminate;
    try (destruct sa; try discriminate); try (destruct sb; try discriminate);
    try (destruct sc; try discriminate); try reflexivity;
    change (Pos.compare_cont Eq ?x ?y) with (x ?= y)%positive in *;
    intros Hab Hbc; sf_cases.
Qed.

(** A double that is not NaN decodes to something else than NaN. *)
Lemma is_nan_false (x : float) :
  PrimFloat.is_nan x = false → Prim2SF x ≠ S754_nan.
Proof.
  unfold PrimFloat.is_nan. rewrite FloatAxioms.eqb_spec. intros Hx Hnan.
  rewrite Hnan in Hx. discriminate.
Qed.

(** A finite double decodes to a zero or to a finite value. *)
Lemma is_finite_true (x : float) :
  PrimFloat.is_finite x = true →
  (∃ s, Prim2SF x = S754_zero s) ∨ (∃ s m e, Prim2SF x = S754_finite s m e).
Proof.
  unfold PrimFloat.is_finite, PrimFloat.is_nan, PrimFloat.is_infinity.
  rewrite !FloatAxioms.eqb_spec, abs_spec.
  change (Prim2SF infinity) with (S754_infinity false).
  destruct (Prim2SF x) as [s|[]| |s m e]; intros Hx; try discriminate Hx.
  - left. eauto.
  - right. eauto.
Qed.

Lemma is_finite_not_nan (x : float) :
  PrimFloat.is_finite x = true → Prim2SF x ≠ S754_nan.
Proof. intros [[s ->]|(s & m & e & ->)]%is_finite_true; discriminate. Qed.

Lemma abs_not_nan (x : float) :
  Prim2SF x ≠ S754_nan → Prim2SF (PrimFloat.abs x) ≠ S754_nan.
Proof. rewrite abs_spec. by destruct (Prim2SF x). Qed.

(** Among numbers, not above is at most. *)
Lemma leb_of_not_ltb (x y : float) :
  Prim2SF x ≠ S754_nan → Prim2SF y ≠ S754_nan →
  (y <? x)%float = false → (x <=? y)%float = true.
Proof. rewrite ltb_spec, leb_spec. apply SFleb_of_not_ltb. Qed.

Lemma ltb_of_leb (x y : float) :
  (x <=? y)%float = true → (y <? x)%float = false.
Proof. rewrite ltb_spec, leb_spec. apply SFltb_of_leb. Qed.

Lemma leb_trans (x y z : float) :
  (x <=? y)%float = true → (y <=? z)%float = true → (x <=? z)%float = true.
Proof. rewrite !leb_spec. apply SFleb_trans. Qed.

Lemma leb_ltb_trans (x y z : float) :
  (x <=? y)%float = true → (y <? z)%float = true → (x <? z)%float = true.
Proof. rewrite leb_spec, !ltb_spec. apply SFleb_ltb_trans. Qed.

(** Adding zero changes at most the sign of a zero. *)
Lemma numText_add_zero (x : float) :
  Tracker.numText (x + 0)%float = Tracker.numText x.
Proof.
  unfold Tracker.numText. rewrite add_spec.
  change (Prim2SF 0) with (S754_zero false).
  destruct (Prim2SF x) as [[]|[]| |s m e]; reflexivity.
Qed.

(** A value is at most its absolute value. *)
Lemma SFleb_abs (a b : spec_float) :
  SFleb (SFabs a) b = true → SFleb a b = true.
Proof.
  unfold SFleb, SFcompare, SFabs.
  destruct a as [sa|sa| |sa ma ea], b as [sb|sb| |sb mb eb];
    try discriminate;
    try (destruct sa; try discriminate); try (destruct sb; try discriminate);
    try reflexivity;
    change (Pos.compare_cont Eq ?x ?y) with (x ?= y)%positive in *;
    intros Hab; sf_cases.
Qed.

(** A value is at least the opposite of a bound of its absolute value. *)
Lemma SFleb_opp_abs (a b : spec_float) :
  SFleb (SFabs a) b = true → SFleb (SFopp b) a = true.
Proof.
  unfold SFleb, SFcompare, SFabs, SFopp.
  destruct a as [sa|sa| |sa ma ea], b as [sb|sb| |sb mb eb];
    try discriminate;
    try (destruct sa; try discriminate); try (destruct sb; try discriminate);
    try reflexivity;
    change (Pos.compare_cont Eq ?x ?y) with (x ?= y)%positive in *;
    intros Hab; sf_cases.
Qed.

(** Two values that are not zero, each at most the other, are the same. *)
Lemma SFleb_antisym (a b : spec_float) :
  (∀ s, b ≠ S754_zero s) →
  SFleb a b = true → SFleb b a = true → a = b.
Proof.
  unfold SFleb, SFcompare.
  destruct a as [sa|sa| |sa ma ea], b as [sb|sb| |sb mb eb];
    try discriminate; intros Hnz;
    try (by destruct (Hnz sb));
    try (destruct sa; try discriminate); try (destruct sb; try discriminate);
    try reflexivity;
    change (Pos.compare_cont Eq ?x ?y) with (x ?= y)%positive in *;
    intros Hab Hba; sf_cases.
Qed.

(** Among numbers, not at most is above. *)
Lemma SFltb_of_not_leb (a b : spec_float) :
  a ≠ S754_nan → b ≠ S754_nan → SFleb a b = false → SFltb b a = true.
Proof.
  unfold SFltb, SFleb, SFcompare.
  destruct a as [sa|sa| |sa ma ea], b as [sb|sb| |sb mb eb]; try done;
    intros _ _;
    try (destruct sa; try done); try (destruct sb; try done);
    change (Pos.compare_cont Eq ?x ?y) with (x ?= y)%positive in *;
    intros Hba; sf_cases.
Qed.

End FloatFacts.

(** ** More facts about the shape normaliser *)

Module BalloonsMoreFacts.
Import Js FloatFacts.
Export BalloonsMore.
Import BalloonsFacts.

(** What [normalizePoint] returns on a list of at least two elements. *)
Lemma normalizePoint_cons (a b : value) (rest : list value) :
  normalizePoint (VArr (a :: b :: rest)) =
    match a, b with
    | VNum x, VNum y =>
        if Number_isFinite x && Number_isFinite y then
          let swapped := (90 <? Math_abs x)%float && (Math_abs y <=? 90)%float in
          let lat := if swapped then y else x in
          let lon := if swapped then x else y in
          if (90 <? Math_abs lat)%float || (180 <? Math_abs lon)%float then None
          else Some (mkPoint lat lon (attributeOf rest))
        else None
    | _, _ => None
    end.
Proof.
  unfold normalizePoint.
  change (length (a :: b :: rest) <? 2) with false.
  change (index (a :: b :: rest) 0) with a.
  change (index (a :: b :: rest) 1) with b.
  cbv zeta. rewrite attributeOf_index.
  destruct a as [| | |x| | |]; try reflexivity;
    destruct b as [| | |y| | |]; try reflexivity;
    try (simpl; by destruct (Number_isFinite x)).
  simpl isNumber.
  destruct (Number_isFinite x), (Number_isFinite y); reflexivity.
Qed.

Lemma attributeOf_finite (rest : list value) (m : float) :
  attributeOf rest = Some m → Number_isFinite m = true.
Proof.
  destruct rest as [|[] tl]; try discriminate. simpl.
  destruct (Number_isFinite n) eqn:Hn; [|discriminate]. by intros [= <-].
Qed.

(** Every point [normalizePoint] gives has finite coordinates with
    [|lat| <= 90] and [|lon| <= 180], and a finite attribute if any. *)
Lemma normalizePoint_valid (p : value) (pt : BalloonPoint) :
  normalizePoint p = Some pt → validPoint pt.
Proof.
  destruct p as [| | | | |[|a [|b rest]]|]; try discriminate.
  rewrite normalizePoint_cons.
  destruct a as [| | |x| | |]; try discriminate.
  destruct b as [| | |y| | |]; try discriminate.
  destruct (Number_isFinite x) eqn:Hx; [|discriminate].
  destruct (Number_isFinite y) eqn:Hy; [|discriminate].
  cbv zeta. simpl andb at 1. cbv iota.
  set (swapped := (90 <? Math_abs x)%float && (Math_abs y <=? 90)%float).
  set (lat := if swapped then y else x). set (lon := if swapped then x else y).
  destruct (90 <? Math_abs lat)%float eqn:Hlat; [discriminate|].
  destruct (180 <? Math_abs lon)%float eqn:Hlon; [discriminate|].
  intros [= <-]. unfold validPoint. simpl.
  assert (Number_isFinite lat = true ∧ Number_isFinite lon = true) as [Hfl Hfn]
    by (unfold lat, lon; by destruct swapped).
  split; [done|]. split; [done|].
  split; [|split].
  - apply leb_of_not_ltb; [by apply abs_not_nan, is_finite_not_nan|done|done].
  - apply leb_of_not_ltb; [by apply abs_not_nan, is_finite_not_nan|done|done].
  - apply attributeOf_finite.
Qed.

Lemma omap_Forall {A B} (f : A → option B) (P : B → Prop) (xs : list A) :
  (∀ x y, f x = Some y → P y) → Forall P (omap f xs).
Proof.
  intros Hf. apply Forall_forall. intros y (x & _ & Hx)%list_elem_of_omap. eauto.
Qed.

(** X1. Every point of a payload the normaliser accepts is valid: no
    coordinate that is NaN, infinite or out of range leaves it. *)
Theorem extractLatestPositions_valid `{Runtime} (raw : value)
    (pts : list BalloonPoint) :
  extractLatestPositions raw = Returns pts → Forall validPoint pts.
Proof.
  unfold extractLatestPositions.
  destruct (unwrapPayload raw) as [| | | | |xs|]; try discriminate.
  destruct xs as [|x xs]; [intros [= <-]; constructor|].
  destruct (isFlatPointsShape _).
  { intros Heq. injection Heq as <-.
    apply (omap_Forall normalizePoint validPoint (x :: xs)), normalizePoint_valid. }
  destruct (isTracksShape _); [|discriminate].
  intros Heq. injection Heq as <-.
  apply (omap_Forall normalizePoint validPoint (map lastOfTrack (x :: xs))),
    normalizePoint_valid.
Qed.

Lemma extractLatestPositions_valid_witness :
  Forall validPoint [mkPoint 3 4 None; mkPoint 45 100 None]%float.
Proof.
  apply (extractLatestPositions_valid (H := Sample.runtime)
           (VObj [("data",
                   VArr [VArr [VArr [VNum 1; VNum 2]; VArr [VNum 3; VNum 4]];
                         VArr [VArr [VNum 200; VNum 300]];
                         VArr [VArr [VNum 100; VNum 45]]])])%float).
  reflexivity.
Defined.

(** X2. A valid point written as [[lat, lon]] or [[lat, lon, meta]] comes
    back from [normalizePoint] as it is: coordinates already in latitude,
    longitude order are never swapped. *)
Theorem normalizePoint_encodePoint (pt : BalloonPoint) :
  validPoint pt → normalizePoint (encodePoint pt) = Some pt.
Proof.
  intros (Hlat & Hlon & Hlat90 & Hlon180 & Hmeta).
  unfold encodePoint. rewrite normalizePoint_cons, Hlat, Hlon. cbv zeta.
  rewrite (ltb_of_leb _ _ Hlat90). simpl andb. cbv iota.
  rewrite (ltb_of_leb _ _ Hlat90), (ltb_of_leb _ _ Hlon180). simpl orb. cbv iota.
  destruct pt as [la lo [m|]]; simpl in *; [|done].
  by rewrite (Hmeta m eq_refl).
Qed.

Lemma normalizePoint_encodePoint_witness :
  normalizePoint (encodePoint (mkPoint (-33.5) 151.25 (Some 12)))%float
  = Some (mkPoint (-33.5) 151.25 (Some 12))%float.
Proof.
  apply normalizePoint_encodePoint.
  repeat split. intros m [= <-]. reflexivity.
Defined.

(** X3. [fetchLatestBalloons] and [fetchLatestBalloonsWithMeta] read the
    same response alike: the one returns the points the other returns, and
    throws the message the other throws. *)
Theorem fetchLatestBalloons_agrees `{Runtime} (outcome : FetchOutcome)
    (hoursAgo : float) :
  match fetchLatestBalloons outcome with
  | Returns pts =>
      ∃ payload, fetchLatestBalloonsWithMeta outcome hoursAgo = Returns payload
                 ∧ points payload = pts
  | Throws msg => fetchLatestBalloonsWithMeta outcome hoursAgo = Throws msg
  end.
Proof.
  unfold fetchLatestBalloons, fetchLatestBalloonsWithMeta.
  destruct outcome as [msg|[] status [raw|msg]]; try done.
  simpl. destruct (extractLatestPositions raw) as [pts|msg]; [|done].
  eexists. split; [done|done].
Qed.

End BalloonsMoreFacts.

(** ** More facts about the snapshot endpoint *)

Module RouteMoreFacts.
Import Js.
Export RouteMore.
Import RouteFacts.

(** X4. The addresses of the 24 buckets end in a two-digit number and are
    pairwise different: every attempt is a request of its own. *)
Theorem urlOf_two_digits_injective (h h' : Z) :
  (0 ≤ h ≤ 23)%Z → (0 ≤ h' ≤ 23)%Z →
  String.length (padStart2 (pretty h)) = 2
  ∧ (urlOf h = urlOf h' → h = h').
Proof.
  intros Hh Hh'. split.
  - assert (Forall (λ a, String.length (padStart2 (pretty a)) = 2) (seqZ 0 24))
      as Hall by RouteFacts.each_hour.
    rewrite Forall_forall in Hall. apply Hall, elem_of_seqZ. lia.
  - assert (bool_decide (NoDup (urlOf <$> seqZ 0 24)) = true) as Hnd
      by (vm_compute; reflexivity).
    apply bool_decide_eq_true in Hnd.
    assert (seqZ 0 24 !! Z.to_nat h = Some h) as Hi
      by (rewrite lookup_seqZ; split; lia).
    assert (seqZ 0 24 !! Z.to_nat h' = Some h') as Hj
      by (rewrite lookup_seqZ; split; lia).
    intros Heq.
    assert (Z.to_nat h = Z.to_nat h'); [|lia].
    apply (NoDup_lookup _ _ _ (urlOf h) Hnd).
    + by rewrite list_lookup_fmap, Hi.
    + by rewrite list_lookup_fmap, Hj, Heq.
Qed.

Lemma urlOf_two_digits_injective_witness :
  String.length (padStart2 (pretty 7%Z)) = 2
  ∧ (urlOf 7 = urlOf 17 → 7%Z = 17%Z).
Proof. apply urlOf_two_digits_injective; lia. Defined.

(** A response tagged [upstream] comes with the slot filled by it. *)
Lemma GET_upstream_fills_slot `{Runtime} (net : string → FetchOutcome)
    (now : Z) (hoursAgoParam : option string) (balloonCache : option CacheEntry)
    (h : Z) (age : option Z) (data : value) :
  response (GET net now hoursAgoParam balloonCache) = Ok200 h upstream age data →
  cacheAfter (GET net now hoursAgoParam balloonCache) = Some (mkCache now h data).
Proof.
  unfold GET.
  destruct (tryCandidates net _ None []) as [h' data' tried|lastError tried].
  - by intros [= <- <- <-].
  - by destruct balloonCache as [c|]; [destruct (cachePresent _)|].
Qed.

(** X5. A response tagged [upstream] names the first bucket from the requested
    age on that answered, every bucket between the two having failed; a
    response tagged [cache], and the error 502, come only when every bucket
    up to 23 failed, the error naming the failure of bucket 23.  So the
    cache is never served, and the call never fails, while a bucket
    answers; and a payload served from the cache counts as true. *)
Theorem GET_response_inversion `{Runtime} (net : string → FetchOutcome)
    (now : Z) (hoursAgoParam : option string) (balloonCache : option CacheEntry) :
  let requested := clampHoursAgo (Number_ofString (default "0" hoursAgoParam)) in
  let o := GET net now hoursAgoParam balloonCache in
  match response o with
  | Ok200 h upstream age data =>
      age = None
      ∧ (requested ≤ h ≤ 23)%Z
      ∧ bucketAnswers net h data
      ∧ (∀ h', (requested ≤ h' < h)%Z → bucketFails net h')
      ∧ cacheAfter o = Some (mkCache now h data)
  | Ok200 h cache age data =>
      (∀ h', (requested ≤ h' ≤ 23)%Z → bucketFails net h')
      ∧ (∃ c, balloonCache = Some c
              ∧ Route.hoursAgo c = h ∧ Route.data c = data
              ∧ age = Some (roundSeconds (now - timestampMs c)))
      ∧ truthy data = true
      ∧ cacheAfter o = balloonCache
  | Err502 error details =>
      (∀ h', (requested ≤ h' ≤ 23)%Z → bucketFails net h')
      ∧ bucketFailsWith net 23 details
      ∧ cachePresent balloonCache = false
      ∧ cacheAfter o = balloonCache
  end.
Proof.
  intros requested o. unfold o, GET. fold requested.
  destruct (GET_loop_cases net hoursAgoParam)
    as [(h & data & Hh & Hbefore & Hok & Hloop)|(Hall & e & He & Hloop)];
    fold requested in Hloop; rewrite Hloop.
  - by simpl.
  - destruct balloonCache as [[ts h data]|]; [|done].
    simpl. destruct (truthy data) eqn:Htr; [|done].
    split; [done|]. split; [|done]. by eexists.
Qed.

Lemma roundSeconds_mono (a b : Z) : (a ≤ b)%Z → (roundSeconds a ≤ roundSeconds b)%Z.
Proof. intros Hab. unfold roundSeconds. apply Z.div_le_mono; lia. Qed.

(** X6. After a call that the upstream answered with a payload that counts as
    true, calls in which every bucket fails return that payload, with the
    age of its bucket, the source [cache] and the seconds since that call;
    the slot stays as that call left it, and the cache age does not go
    down from one such call to the next. *)
Theorem GET_outage_serves_last_answer `{Runtime}
    (net0 net1 net2 : string → FetchOutcome) (t0 t1 t2 : Z)
    (param0 param1 param2 : option string) (cache0 : option CacheEntry)
    (h : Z) (data : value) :
  let o0 := GET net0 t0 param0 cache0 in
  let o1 := GET net1 t1 param1 (cacheAfter o0) in
  let o2 := GET net2 t2 param2 (cacheAfter o1) in
  response o0 = Ok200 h upstream None data →
  truthy data = true →
  (∀ b, (0 ≤ b ≤ 23)%Z → bucketFails net1 b) →
  (∀ b, (0 ≤ b ≤ 23)%Z → bucketFails net2 b) →
  (t1 ≤ t2)%Z →
  response o1 = Ok200 h cache (Some (roundSeconds (t1 - t0))) data
  ∧ response o2 = Ok200 h cache (Some (roundSeconds (t2 - t0))) data
  ∧ cacheAfter o2 = cacheAfter o0
  ∧ (roundSeconds (t1 - t0) ≤ roundSeconds (t2 - t0))%Z.
Proof.
  intros o0 o1 o2 Hresp Htrue Hdown1 Hdown2 Ht.
  pose proof (GET_upstream_fills_slot net0 t0 param0 cache0 h None data Hresp)
    as Hcache0.
  fold o0 in Hcache0.
  assert (∀ net t param,
            (∀ b, (0 ≤ b ≤ 23)%Z → bucketFails net b) →
            response (GET net t param (Some (mkCache t0 h data)))
            = Ok200 h cache (Some (roundSeconds (t - t0))) data
            ∧ cacheAfter (GET net t param (Some (mkCache t0 h data)))
              = Some (mkCache t0 h data)) as Hserve.
  { intros net t param Hdown.
    pose proof (clampHoursAgo_range (Number_ofString (default "0" param))) as Hr.
    destruct (GET_all_fail net t param (Some (mkCache t0 h data))) as (e & _ & Hloop).
    { intros b Hb. apply fails_bucketFails; [lia|]. apply Hdown. lia. }
    unfold GET. rewrite Hloop. simpl. by rewrite Htrue. }
  unfold o1. rewrite Hcache0.
  destruct (Hserve net1 t1 param1 Hdown1) as [Hr1 Hc1].
  split; [done|]. unfold o2, o1. rewrite Hcache0, Hc1.
  destruct (Hserve net2 t2 param2 Hdown2) as [Hr2 Hc2].
  split; [done|]. split; [done|]. apply roundSeconds_mono. lia.
Qed.

Lemma GET_outage_serves_last_answer_witness :
  let up (url : string) :=
    if String.eqb url "https://a.windbornesystems.com/treasure/02.json"
    then FetchResponds true 200 (Returns (VArr [VArr [VNum 1; VNum 2]]))%float
    else FetchResponds false 404 (Returns VNull) in
  let down (url : string) := FetchRejects "fetch failed" in
  let o0 := GET (H := Sample.runtime) up 1000 None None in
  let o1 := GET (H := Sample.runtime) down 61000 None (cacheAfter o0) in
  let o2 := GET (H := Sample.runtime) down 3601000 (Some "5") (cacheAfter o1) in
  let data := VArr [VArr [VNum 1; VNum 2]]%float in
  response o1 = Ok200 2 cache (Some (roundSeconds (61000 - 1000))) data
  ∧ response o2 = Ok200 2 cache (Some (roundSeconds (3601000 - 1000))) data
  ∧ cacheAfter o2 = cacheAfter o0
  ∧ (roundSeconds (61000 - 1000) ≤ roundSeconds (3601000 - 1000))%Z.
Proof.
  intros up down o0 o1 o2 data.
  apply (GET_outage_serves_last_answer (H := Sample.runtime)
           up down down 1000 61000 3601000 None None (Some "5") None 2 data).
  - reflexivity.
  - reflexivity.
  - intros b _. exists "fetch failed". by left.
  - intros b _. exists "fetch failed". by left.
  - lia.
Defined.

(** X7. A requested age that is already a whole number from 0 to 23 is what
    the clamp returns, so clamping what the clamp returned changes
    nothing. *)
Theorem clampHoursAgo_idempotent (v : float) :
  clampHoursAgo (float_of_Z (clampHoursAgo v)) = clampHoursAgo v
  ∧ ∀ h, (0 ≤ h ≤ 23)%Z → clampHoursAgo (float_of_Z h) = h.
Proof.
  assert (∀ h, (0 ≤ h ≤ 23)%Z → clampHoursAgo (float_of_Z h) = h) as Hfix.
  { assert (Forall (λ h, clampHoursAgo (float_of_Z h) = h) (seqZ 0 24)) as Hall
      by RouteFacts.each_hour.
    rewrite Forall_forall in Hall. intros h Hh. apply Hall, elem_of_seqZ. lia. }
  split; [|done]. apply Hfix, clampHoursAgo_range.
Qed.

End RouteMoreFacts.

(** ** More facts about the identity tracker *)

Module TrackerMoreFacts.
Import Js FloatFacts.
Export TrackerFacts.

Lemma scanned_nil (p : BalloonPoint) : scanned [] p = [].
Proof.
  apply elem_of_nil_inv. intros e [He _]%elem_of_scanned.
  by apply elem_of_nil in He.
Qed.

Lemma loopPoints_empty_table `{Runtime} (points : list BalloonPoint)
    (idx : nat) (st : Loop) :
  let st' := loopPoints (buildBins []) idx points st in
  (s_id <$> out st')
  = (s_id <$> out st) ++ (mintedId <$> countFrom (nextId st) (length points))
  ∧ nextId st' = (nextId st + N.of_nat (length points))%N.
Proof.
  revert idx st. induction points as [|p points IH]; intros idx st; simpl.
  - rewrite app_nil_r. split; [done|lia].
  - assert (stepPoint (buildBins []) st idx p = mint st p idx) as ->.
    { unfold stepPoint. by rewrite findBest_foldl, scanned_nil. }
    destruct (IH (S idx) (mint st p idx)) as [Hids Hnext].
    rewrite Hids, Hnext. simpl. rewrite fmap_app, <- app_assoc. split; [done|lia].
Qed.

(** X8. A poll with no point empties the table and leaves the counter;
    in the poll after it, and in the first poll of the process, every point
    gets a newly minted identifier, in the order of the points. *)
Theorem assignStableIds_after_empty_poll `{Runtime} (refs : Refs)
    (points : list BalloonPoint) :
  assignStableIds refs [] = ([], mkRefs (nextIdRef refs) [])
  ∧ (s_id <$> (assignStableIds (assignStableIds refs []).2 points).1)
    = (mintedId <$> countFrom (nextIdRef refs) (length points))
  ∧ (s_id <$> (assignStableIds initialRefs points).1)
    = (mintedId <$> countFrom 1 (length points)).
Proof.
  split; [done|].
  assert (∀ n, (s_id <$> (assignStableIds (mkRefs n []) points).1)
               = (mintedId <$> countFrom n (length points))) as Hempty.
  { intros n. unfold assignStableIds. simpl.
    by destruct (loopPoints_empty_table points 0 (mkLoop ∅ n [])) as [-> _]. }
  split; apply Hempty.
Qed.

Lemma binKey_in_neighborBinKeys (lat lon : float) :
  binKey lat lon ∈ neighborBinKeys lat lon.
Proof.
  apply neighborBinKeys_spec. exists 0%float, 0%float.
  split; [by right; left|]. split; [by right; left|].
  unfold binKey. by rewrite !numText_add_zero.
Qed.

(** X9. The cell of a position is one of the nine cells searched around
    it: a previous point filed in the cell of the current point, and not yet
    claimed, is always among the candidates. *)
Theorem same_cell_is_candidate (prevById : list (string * LatLon))
    (used : gset string) (p : BalloonPoint) (id : string) (a : LatLon) :
  (id, a) ∈ prevById →
  binKey (ll_lat a) (ll_lon a) = binKey (lat p) (lon p) →
  id ∉ used →
  binKey (lat p) (lon p) ∈ neighborBinKeys (lat p) (lon p)
  ∧ mkEntry id (ll_lat a) (ll_lon a) ∈ candidatesFor prevById used p.
Proof.
  intros Hin Hcell Hfree. split; [apply binKey_in_neighborBinKeys|].
  apply elem_of_candidatesFor. split; [|done].
  apply elem_of_scanned. split.
  - apply list_elem_of_fmap. by exists (id, a).
  - unfold cellOf. simpl. rewrite Hcell. apply binKey_in_neighborBinKeys.
Qed.

Lemma same_cell_is_candidate_witness :
  let p := mkPoint 10.25 20.25 None in
  let a := mkLatLon 10.75 20.5 in
  binKey (lat p) (lon p) ∈ neighborBinKeys (lat p) (lon p)
  ∧ mkEntry "b1" (ll_lat a) (ll_lon a)
    ∈ candidatesFor [("b2", mkLatLon 60 60); ("b1", a)]%float ∅ p.
Proof.
  intros p a.
  apply (same_cell_is_candidate [("b2", mkLatLon 60 60); ("b1", a)]%float ∅ p "b1" a).
  - right. left.
  - vm_compute. reflexivity.
  - apply not_elem_of_empty.
Defined.

End TrackerMoreFacts.

(** ** Facts about the wind bins and the map features *)

Module PanelFacts.
Import Js FloatFacts.
Export Panel.
Import TrackerFacts.

(** X10. [windBin250] never puts a faster wind into a lower bin, and a
    speed that is not a number goes to the lowest bin. *)
Theorem windBin250_monotone (s1 s2 : float) :
  (s1 <=? s2)%float = true →
  binRank (windBin250 s1) ≤ binRank (windBin250 s2)
  ∧ ∀ s, PrimFloat.is_nan s = true → windBin250 s = w0.
Proof.
  intros Hle. split.
  - unfold windBin250.
    destruct (45 <=? s1)%float eqn:H45.
    { by rewrite (leb_trans _ _ _ H45 Hle). }
    destruct (30 <=? s1)%float eqn:H30.
    { rewrite (leb_trans _ _ _ H30 Hle). destruct (45 <=? s2)%float; simpl; lia. }
    destruct (20 <=? s1)%float eqn:H20.
    { rewrite (leb_trans _ _ _ H20 Hle).
      destruct (45 <=? s2)%float, (30 <=? s2)%float; simpl; lia. }
    simpl. lia.
  - intros s Hnan. unfold windBin250. rewrite !leb_spec.
    unfold PrimFloat.is_nan in Hnan. rewrite FloatAxioms.eqb_spec in Hnan.
    destruct (Prim2SF s) as [[]|[]| |[] m e]; try discriminate Hnan; try reflexivity.
    all: unfold SFeqb, SFcompare in Hnan; rewrite Z.compare_refl in Hnan;
      change (Pos.compare_cont Eq m m) with (m ?= m)%positive in Hnan;
      rewrite Pos.compare_refl in Hnan; discriminate Hnan.
Qed.

Lemma windBin250_monotone_witness :
  binRank (windBin250 29.5) ≤ binRank (windBin250 30)
  ∧ ∀ s, PrimFloat.is_nan s = true → windBin250 s = w0.
Proof. apply windBin250_monotone. reflexivity. Defined.

Lemma markWind_absent (sel : string) (speed : float) (bin : WindBin)
    (fs : list Feature) :
  sel ∉ (fp_id ∘ properties) <$> fs → markWind sel speed bin fs = fs.
Proof.
  induction fs as [|f fs IH]; [done|].
  rewrite fmap_cons, not_elem_of_cons. intros [Hne Hnot]. simpl.
  destruct (String.eqb_spec (fp_id (properties f)) sel) as [Heq|_].
  - by destruct Hne.
  - by rewrite IH.
Qed.

Lemma markWind_NoDup (sel : string) (speed : float) (fs : list Feature) :
  NoDup ((fp_id ∘ properties) <$> fs) →
  markWind sel speed (windBin250 speed) fs
  = (λ f, if decide (fp_id (properties f) = sel) then withWind speed f else f) <$> fs.
Proof.
  induction fs as [|f fs IH]; [done|].
  rewrite !fmap_cons. intros [Hf Hnd]%NoDup_cons. simpl.
  destruct (String.eqb_spec (fp_id (properties f)) sel) as [Heq|Hne].
  - rewrite decide_True by done. f_equal.
    rewrite <- IH by done. symmetry. apply markWind_absent. by rewrite <- Heq.
  - rewrite decide_False by done. f_equal. by apply IH.
Qed.

Lemma ids_of_features (out : list Stabilized) :
  (fp_id ∘ properties) <$> (featureOf <$> out) = s_id <$> out.
Proof. rewrite <- list_fmap_compose. done. Qed.

(** X11. On the features of a poll, the loop of the context effect writes
    the wind speed and its bin into the feature of the selected balloon and
    into no other; it moves no feature and changes no identifier, position
    or attribute. *)
Theorem markWind_marks_selected_only `{Runtime} (refs : Refs)
    (points : list BalloonPoint) (sel : string) (speed : float) :
  reachable refs →
  let fs := featureOf <$> (assignStableIds refs points).1 in
  let fs' := markWind sel speed (windBin250 speed) fs in
  fs' = (λ f, if decide (fp_id (properties f) = sel) then withWind speed f else f)
          <$> fs
  ∧ length fs' = length points
  ∧ coordinates <$> fs' = coordinates <$> fs
  ∧ (fp_id ∘ properties) <$> fs' = (fp_id ∘ properties) <$> fs
  ∧ (fp_meta ∘ properties) <$> fs' = (fp_meta ∘ properties) <$> fs.
Proof.
  intros Hok%reachable_RefsOk fs fs'.
  assert (fs' = (λ f, if decide (fp_id (properties f) = sel)
                      then withWind speed f else f) <$> fs) as Hfs'.
  { apply markWind_NoDup. unfold fs. rewrite ids_of_features.
    by apply assignStableIds_NoDup. }
  split; [done|]. rewrite Hfs'. split.
  - unfold fs. rewrite !length_fmap.
    pose proof (assignStableIds_Assigned refs points Hok) as Hass.
    apply Assigned_points in Hass as [Hall _]. by apply Forall2_length in Hall.
  - repeat split; rewrite <- list_fmap_compose; apply list_fmap_ext;
      intros i f _; simpl; by destruct (decide _).
Qed.

Lemma markWind_marks_selected_only_witness :
  let H := Sample.runtime in
  let fs := featureOf <$> (assignStableIds afterFirstPoll secondPoll).1 in
  let fs' := markWind "b3" 31.5 (windBin250 31.5) fs in
  fs' = (λ f, if decide (fp_id (properties f) = "b3") then withWind 31.5 f else f)
          <$> fs
  ∧ length fs' = length secondPoll
  ∧ coordinates <$> fs' = coordinates <$> fs
  ∧ (fp_id ∘ properties) <$> fs' = (fp_id ∘ properties) <$> fs
  ∧ (fp_meta ∘ properties) <$> fs' = (fp_meta ∘ properties) <$> fs.
Proof.
  intros H.
  apply (markWind_marks_selected_only (H := H) afterFirstPoll secondPoll "b3" 31.5).
  apply reachable_poll, reachable_initial.
Defined.

End PanelFacts.

(** ** Facts about the answer as the browser reads it *)

Module WireFacts.
Import Js.
Export Wire.
Import Balloons.

Lemma wire_plain (v : value) : plain v → wire v = v.
Proof.
  revert v. fix IH 1. intros [| |b|n|s|xs|fields]; simpl; try done.
  - by intros ->.
  - intros Hxs. f_equal. induction xs as [|x xs IHxs]; [done|].
    destruct Hxs as [Hx Hxs]. simpl. rewrite (IH x Hx). f_equal. by apply IHxs.
  - intros Hfs. f_equal. induction fields as [|[k x] fields IHfs]; [done|].
    destruct Hfs as [Hx Hfs]. rewrite (IHfs Hfs).
    pose proof (IH x Hx) as Hwx. destruct x; try done; by rewrite Hwx.
Qed.

Lemma plain_list (xs : list value) :
  Forall plain xs → map wire xs = xs.
Proof.
  induction 1 as [|x xs Hx _ IH]; [done|]. simpl. by rewrite wire_plain, IH.
Qed.

Lemma hour_on_wire (h : Z) :
  (0 ≤ h ≤ 23)%Z → numberOnWire (float_of_Z h) = Some (float_of_Z h).
Proof.
  assert (Forall (λ h, numberOnWire (float_of_Z h) = Some (float_of_Z h))
                 (seqZ 0 24)) as Hall by RouteFacts.each_hour.
  rewrite Forall_forall in Hall. intros Hh. apply Hall, elem_of_seqZ. lia.
Qed.

Lemma numberOnWire_finite (n m : float) :
  numberOnWire n = Some m → isNumber (VNum m) = true.
Proof.
  unfold numberOnWire. destruct (Number_isFinite n) eqn:Hn; [|done].
  destruct (PrimFloat.is_zero n); intros [= <-]; [reflexivity|exact Hn].
Qed.

(** X12. What the browser makes of an answer of the route.  A success
    whose payload is a list gives the age of the bucket, the source and the
    cache age of the answer, and the points the normaliser finds in the
    payload as the wire carries it, which is the payload itself when it is
    plain; the error 502 makes the call throw. *)
Theorem browser_reads_route_answer `{Runtime} (h : Z) (src : Source)
    (age : option Z) (xs : list value) (asked : float) :
  (0 ≤ h ≤ 23)%Z →
  fetchLatestBalloonsWithMeta (served (Ok200 h src age (VArr xs))) asked
  = match extractLatestPositions (VArr (map wire xs)) with
    | Returns pts =>
        Returns (mkPayload (float_of_Z h) src
                           (a ← age; numberOnWire (float_of_Z a)) pts)
    | Throws msg => Throws msg
    end
  ∧ (Forall plain xs → map wire xs = xs)
  ∧ ∀ error details,
      fetchLatestBalloonsWithMeta (served (Err502 error details)) asked
      = Throws "API fetch failed: 502".
Proof.
  intros Hh. split; [|split; [apply plain_list|done]].
  pose proof (hour_on_wire h Hh) as Hhour.
  pose proof (numberOnWire_finite _ _ Hhour) as Hfin. simpl in Hfin.
  assert (∀ fields,
            hasField "data" fields = true →
            getField "data" fields = VArr (map wire xs) →
            extractLatestPositions (VObj fields)
            = extractLatestPositions (VArr (map wire xs))) as Henv.
  { intros fields Hhas Hget. unfold extractLatestPositions, unwrapPayload.
    simpl. by rewrite Hhas, Hget. }
  destruct age as [a|]; unfold served, fetchLatestBalloonsWithMeta;
    cbn [statusOf bodyOf wire negb andb N.leb]; simpl negb; cbv iota;
    rewrite Hhour.
  - rewrite Henv by reflexivity.
    destruct (extractLatestPositions (VArr (map wire xs))) as [pts|msg]; [|done].
    f_equal. unfold fieldOf. simpl. rewrite Hfin.
    f_equal.
    + by destruct src.
    + destruct (numberOnWire (float_of_Z a)) as [m|] eqn:Hm; simpl; [|done].
      pose proof (numberOnWire_finite _ _ Hm) as Hmf. simpl in Hmf.
      by rewrite Hmf.
  - rewrite Henv by reflexivity.
    destruct (extractLatestPositions (VArr (map wire xs))) as [pts|msg]; [|done].
    f_equal. unfold fieldOf. simpl. rewrite Hfin.
    f_equal. by destruct src.
Qed.

Lemma browser_reads_route_answer_witness :
  let H := Sample.runtime in
  let xs := [VArr [VNum 1; VNum 2]; VArr [VNum 200; VNum 300]]%float in
  fetchLatestBalloonsWithMeta (served (Ok200 3 cache (Some 60%Z) (VArr xs))) 0
  = match extractLatestPositions (VArr (map wire xs)) with
    | Returns pts =>
        Returns (mkPayload (float_of_Z 3) cache
                           (a ← Some 60%Z; numberOnWire (float_of_Z a)) pts)
    | Throws msg => Throws msg
    end
  ∧ (Forall plain xs → map wire xs = xs)
  ∧ ∀ error details,
      fetchLatestBalloonsWithMeta (served (Err502 error details)) 0
      = Throws "API fetch failed: 502".
Proof.
  intros H xs.
  apply (browser_reads_route_answer (H := H) 3 cache (Some 60%Z) xs 0). lia.
Defined.

End WireFacts.

(** ** Facts about the context endpoint *)

Module ContextFacts.
Import Js FloatOrder FloatFacts.
Export ContextRoute.

(** A finite longitude that the range check of the handler lets through
    is not below -180, and is 180 if it is not below 180. *)
Lemma guarded_lon (lon : float) :
  Number_isFinite lon = true →
  (180 <? Math_abs lon)%float = false →
  (lon <? -180)%float = false
  ∧ (-180 <=? lon)%float = true
  ∧ ((180 <=? lon)%float = true → lon = 180%float)
  ∧ ((180 <=? lon)%float = false → (lon <? 180)%float = true).
Proof.
  unfold Number_isFinite, Math_abs. intros Hfin Hrange.
  pose proof (is_finite_not_nan lon Hfin) as Hnan.
  assert (Prim2SF 180 ≠ S754_nan) as Hnan180 by (vm_compute; discriminate).
  assert ((PrimFloat.abs lon <=? 180)%float = true) as Habs
    by (apply leb_of_not_ltb; [by apply abs_not_nan|done|done]).
  rewrite leb_spec, abs_spec in Habs.
  assert ((-180 <=? lon)%float = true) as Hlow.
  { rewrite leb_spec.
    change (Prim2SF (-180)) with (SFopp (Prim2SF 180)).
    by apply SFleb_opp_abs. }
  split; [by apply ltb_of_leb|]. split; [done|]. split.
  - rewrite leb_spec. intros Hhigh. apply Prim2SF_inj.
    apply SFleb_antisym; [|by apply SFleb_abs|done].
    intros s. vm_compute. discriminate.
  - rewrite leb_spec, ltb_spec. by apply SFltb_of_not_leb.
Qed.

Lemma clampLon_up_stays (fuel : nat) (x : float) :
  (x <? -180)%float = false → clampLon_up (S fuel) x = Some x.
Proof. intros Hx. simpl. by rewrite Hx. Qed.

Lemma clampLon_down_stays (fuel : nat) (x : float) :
  (180 <=? x)%float = false → clampLon_down (S fuel) x = Some x.
Proof. intros Hx. simpl. by rewrite Hx. Qed.

(** The value [clampLon] gives on a longitude that the range check lets
    through. *)
Lemma clampLon_guarded (fuel : nat) (lon : float) :
  Number_isFinite lon = true →
  (180 <? Math_abs lon)%float = false →
  clampLon (S (S fuel)) lon
  = Some (if (180 <=? lon)%float then (-180)%float else lon).
Proof.
  intros Hfin Hrange.
  destruct (guarded_lon lon Hfin Hrange) as (Hlow & _ & Hhigh & _).
  unfold clampLon. rewrite clampLon_up_stays by done. simpl.
  destruct (180 <=? lon)%float eqn:H180; [|done].
  rewrite (Hhigh eq_refl). reflexivity.
Qed.

(** X13. On a longitude that the range check lets through, [clampLon]
    returns after at most one turn of its loops: the longitude itself, or
    -180 for 180; the result is in the range from -180 up to but not
    including 180. *)
Theorem clampLon_returns_in_range (fuel : nat) (lon : float) :
  Number_isFinite lon = true →
  (180 <? Math_abs lon)%float = false →
  2 ≤ fuel →
  ∃ x, clampLon fuel lon = Some x
       ∧ (x = lon ∨ (lon = 180%float ∧ x = (-180)%float))
       ∧ (-180 <=? x)%float = true ∧ (x <? 180)%float = true.
Proof.
  intros Hfin Hrange Hfuel.
  destruct fuel as [|[|fuel]]; [lia..|].
  rewrite clampLon_guarded by done.
  destruct (guarded_lon lon Hfin Hrange) as (_ & Hlow & Hhigh & Hbelow).
  destruct (180 <=? lon)%float eqn:H180.
  - exists (-180)%float. repeat split; auto.
  - exists lon. repeat split; auto.
Qed.

Lemma clampLon_returns_in_range_witness :
  ∃ x, clampLon 2 180%float = Some x
       ∧ (x = 180%float ∨ (180%float = 180%float ∧ x = (-180)%float))
       ∧ (-180 <=? x)%float = true ∧ (x <? 180)%float = true.
Proof. apply (clampLon_returns_in_range 2 180%float); [reflexivity..|lia]. Defined.

(** X14. [clampLon] does not return on a longitude from 180 on that
    subtracting 360 leaves as it is, such as infinity: the second loop
    runs for ever. *)
Theorem clampLon_diverges (x : float) :
  (180 <=? x)%float = true →
  (x - 360)%float = x →
  ∀ fuel, clampLon fuel x = None.
Proof.
  intros H180 Hfix fuel.
  assert ((x <? -180)%float = false) as Hlow.
  { destruct (x <? -180)%float eqn:Hx; [|done].
    pose proof (leb_ltb_trans _ _ _ H180 Hx) as Habs. discriminate Habs. }
  assert (∀ n, clampLon_down n x = None) as Hdown.
  { induction n as [|n IH]; [done|]. simpl. by rewrite H180, Hfix. }
  destruct fuel as [|fuel]; [done|].
  unfold clampLon. rewrite clampLon_up_stays by done. apply Hdown.
Qed.

Lemma clampLon_diverges_witness :
  (180 <=? infinity)%float = true
  ∧ (infinity - 360)%float = infinity
  ∧ ∀ fuel, clampLon fuel infinity = None.
Proof.
  split; [reflexivity|]. split; [reflexivity|].
  apply (clampLon_diverges infinity); reflexivity.
Defined.

Lemma latestFrom_spec `{Host} (nowMs : Z) (times : list value) (i idx : nat) :
  let r := latestFrom nowMs i idx times in
  (r = idx ∧ ∀ k t, times !! k = Some t → notAfter nowMs t = false)
  ∨ ∃ j t, r = i + j ∧ times !! j = Some t ∧ notAfter nowMs t = true
           ∧ ∀ k t', j < k → times !! k = Some t' → notAfter nowMs t' = false.
Proof.
  revert i idx. induction times as [|t rest IH]; intros i idx; simpl.
  - left. split; [done|]. intros k t. by rewrite lookup_nil.
  - destruct (IH (S i) (if notAfter nowMs t then i else idx))
      as [[Hr Hnone]|(j & t' & Hr & Ht' & Hok & Hlater)].
    + destruct (notAfter nowMs t) eqn:Ht.
      * right. exists 0, t. split; [lia|]. split; [done|]. split; [done|].
        intros [|k] t' Hk; [lia|]. simpl. apply Hnone.
      * left. split; [done|]. intros [|k] t'; simpl; [by intros [= <-]|apply Hnone].
    + right. exists (S j), t'. split; [lia|]. split; [done|]. split; [done|].
      intros [|k] t'' Hk; [lia|]. simpl. apply Hlater. lia.
Qed.

Lemma latestIndex_lt `{Host} (nowMs : Z) (times : list value) :
  times ≠ [] → latestIndex nowMs times < length times.
Proof.
  intros Hne. unfold latestIndex.
  destruct (latestFrom_spec nowMs times 0 0)
    as [[-> _]|(j & t & -> & Ht & _)].
  - destruct times; [done|simpl; lia].
  - simpl. by eapply lookup_lt_Some.
Qed.

(** X15. The loop over the time steps chooses an index of the list: that of the
    last step that [Date.parse] reads and that is not after the clock, no
    later step being such a one, and the index 0 if there is none. *)
Theorem latestIndex_latest `{Host} (nowMs : Z) (times : list value) :
  times ≠ [] →
  let idx := latestIndex nowMs times in
  idx < length times
  ∧ (∀ k t, idx < k → times !! k = Some t → notAfter nowMs t = false)
  ∧ ((∃ t, times !! idx = Some t ∧ notAfter nowMs t = true)
     ∨ (idx = 0 ∧ ∀ k t, times !! k = Some t → notAfter nowMs t = false)).
Proof.
  intros Hne idx. unfold idx, latestIndex.
  destruct (latestFrom_spec nowMs times 0 0)
    as [[-> Hnone]|(j & t & -> & Ht & Hok & Hlater)].
  - split; [destruct times; [done|simpl; lia]|]. split; [|by right].
    intros k t _. apply Hnone.
  - simpl. split; [by eapply lookup_lt_Some|]. split; [done|]. left. by exists t.
Qed.

Lemma latestIndex_latest_witness :
  let times := [VStr "1000"; VStr "2000"; VStr "3000"] in
  let idx := latestIndex (H := ContextSample.host) 2500 times in
  idx < length times
  ∧ (∀ k t, idx < k → times !! k = Some t
            → notAfter (H := ContextSample.host) 2500 t = false)
  ∧ ((∃ t, times !! idx = Some t ∧ notAfter (H := ContextSample.host) 2500 t = true)
     ∨ (idx = 0 ∧ ∀ k t, times !! k = Some t
                         → notAfter (H := ContextSample.host) 2500 t = false)).
Proof.
  intros times.
  apply (latestIndex_latest (H := ContextSample.host) 2500 times). discriminate.
Defined.

Lemma isStringArray_lookup (xs : list value) (i : nat) (x : value) :
  isStringArray (VArr xs) = true → xs !! i = Some x → ∃ s, x = VStr s.
Proof.
  simpl. rewrite forallb_forall. intros Hall Hx.
  assert (In x xs) as Hin by (apply list_elem_of_In; by eapply list_elem_of_lookup_2).
  specialize (Hall x Hin). destruct x; try discriminate. by eexists.
Qed.

Lemma isNumberArray_lookup (xs : list value) (i : nat) (x : value) :
  isNumberArray (VArr xs) = true → xs !! i = Some x →
  ∃ n, x = VNum n ∧ Number_isFinite n = true.
Proof.
  simpl. rewrite forallb_forall. intros Hall Hx.
  assert (In x xs) as Hin by (apply list_elem_of_In; by eapply list_elem_of_lookup_2).
  specialize (Hall x Hin). destruct x; try discriminate. by eexists.
Qed.

Lemma index_lookup (xs : list value) (i : nat) (x : value) :
  xs !! i = Some x → index xs i = x.
Proof.
  unfold index. revert i. induction xs as [|y xs IH]; intros [|i]; simpl; try done.
  - by intros [= ->].
  - apply IH.
Qed.

(** An error between the answer of Open-Meteo and the lookup of the grid
    has status 502. *)
Lemma jetOf_error `{Host} (nowMs : Z) (ok : bool) (status : N) (omJson : value)
    (err : Response) :
  jetOf nowMs ok status omJson = inl err →
  ∃ error st reason, err = Err502 error st reason.
Proof.
  unfold jetOf. destruct ok; simpl; [|intros [= <-]; eauto].
  destruct (isRecord omJson); simpl; [|intros [= <-]; eauto].
  assert (∀ R : Response + Jet,
            (if negb (isRecord (getProp "hourly" omJson))
             then inl (Err502 "Open-Meteo missing hourly" None None)
             else R) = inl err →
            (R = inl err → ∃ error st reason, err = Err502 error st reason) →
            ∃ error st reason, err = Err502 error st reason) as Hrest.
  { intros R. destruct (negb _); [intros [= <-]; eauto|auto]. }
  set (rest := if negb (isStringArray _) || _ then _ else _).
  assert (rest = inl err → ∃ error st reason, err = Err502 error st reason) as Hr.
  { unfold rest. destruct (_ || _); [intros [= <-]; eauto|].
    destruct (_ || _); [intros [= <-]; eauto|discriminate]. }
  destruct (getProp "error" omJson) as [| |[]| | | |];
    try (intros Heq; by apply (Hrest rest)).
  intros [= <-]. eauto.
Qed.

(** X16. A wind that the handler reads from the answer of Open-Meteo is well
    formed: the answer was ok, its time steps and speeds are lists of the
    same length, the time is the text of the chosen step, the speed is the
    finite number at the same index, and the direction, if there is one,
    is the finite number at that index. *)
Theorem jetOf_wellformed `{Host} (nowMs : Z) (ok : bool) (status : N)
    (omJson : value) (j : Jet) :
  jetOf nowMs ok status omJson = inr j →
  ok = true
  ∧ ∃ times ws,
      getProp "time" (getProp "hourly" omJson) = VArr times
      ∧ getProp "wind_speed_250hPa" (getProp "hourly" omJson) = VArr ws
      ∧ length ws = length times
      ∧ let idx := latestIndex nowMs times in
        (∃ t, validTime j = VStr t ∧ times !! idx = Some (VStr t))
        ∧ (∃ s, speed_ms j = VNum s ∧ ws !! idx = Some (VNum s)
                ∧ Number_isFinite s = true)
        ∧ ∀ d, direction_deg j = Some d →
               Number_isFinite d = true
               ∧ ∃ wd, getProp "wind_direction_250hPa" (getProp "hourly" omJson)
                       = VArr wd
                       ∧ wd !! idx = Some (VNum d).
Proof.
  unfold jetOf. destruct ok; simpl; [|discriminate].
  destruct (isRecord omJson); simpl; [|discriminate].
  set (hourly := getProp "hourly" omJson).
  intros Hj. split; [done|].
  assert ((if negb (isRecord hourly)
           then inl (Err502 "Open-Meteo missing hourly" None None)
           else
             if negb (isStringArray (getProp "time" hourly))
                || negb (isNumberArray (getProp "wind_speed_250hPa" hourly))
             then inl (Err502 "Open-Meteo missing arrays" None None)
             else
               let wdArr :=
                 if isNumberArray (getProp "wind_direction_250hPa" hourly)
                 then listOf (getProp "wind_direction_250hPa" hourly) else [] in
               if (length (listOf (getProp "time" hourly)) =? 0)
                  || negb (length (listOf (getProp "wind_speed_250hPa" hourly))
                           =? length (listOf (getProp "time" hourly)))
               then inl (Err502 "Open-Meteo missing arrays" None None)
               else
                 let idx := latestIndex nowMs (listOf (getProp "time" hourly)) in
                 inr (mkJet (index (listOf (getProp "time" hourly)) idx)
                            (index (listOf (getProp "wind_speed_250hPa" hourly)) idx)
                            match index wdArr idx with
                            | VNum d => if Number_isFinite d then Some d else None
                            | _ => None
                            end)) = inr j) as Hj'.
  { destruct (getProp "error" omJson) as [| |[]| | | |]; try exact Hj.
    discriminate Hj. }
  clear Hj. destruct (negb (isRecord hourly)); [discriminate|].
  destruct (isStringArray (getProp "time" hourly)) eqn:Htimes; [|discriminate].
  destruct (isNumberArray (getProp "wind_speed_250hPa" hourly)) eqn:Hws;
    [|discriminate].
  simpl in Hj'.
  destruct (getProp "time" hourly) as [| | | | |times|]; try discriminate Htimes.
  destruct (getProp "wind_speed_250hPa" hourly) as [| | | | |ws|];
    try discriminate Hws.
  simpl listOf in Hj'.
  destruct (length times =? 0) eqn:Hlen0; [discriminate|].
  destruct (length ws =? length times) eqn:Hlen; [|discriminate].
  apply Nat.eqb_neq in Hlen0. apply Nat.eqb_eq in Hlen.
  simpl in Hj'. injection Hj' as <-.
  exists times, ws. split; [done|]. split; [done|]. split; [done|].
  assert (times ≠ []) as Hne by (by destruct times).
  pose proof (latestIndex_lt nowMs times Hne) as Hidx.
  set (idx := latestIndex nowMs times) in *. simpl.
  destruct (lookup_lt_is_Some_2 times idx Hidx) as [t Ht].
  destruct (lookup_lt_is_Some_2 ws idx ltac:(lia)) as [s Hs].
  destruct (isStringArray_lookup times idx t Htimes Ht) as [t' ->].
  destruct (isNumberArray_lookup ws idx s Hws Hs) as (s' & -> & Hfin).
  rewrite (index_lookup _ _ _ Ht), (index_lookup _ _ _ Hs).
  split; [by exists t'|]. split; [by exists s'|].
  intros d.
  destruct (isNumberArray (getProp "wind_direction_250hPa" hourly)) eqn:Hwd.
  - destruct (getProp "wind_direction_250hPa" hourly) as [| | | | |wd|];
      try discriminate Hwd.
    simpl listOf. unfold index.
    destruct (nth idx wd VUndefined) as [| | |d'| | |] eqn:Hnth; try discriminate.
    destruct (Number_isFinite d') eqn:Hd'; [|discriminate].
    intros [= <-]. split; [done|]. exists wd. split; [done|].
    destruct (decide (idx < length wd)) as [Hlt|Hge].
    + destruct (lookup_lt_is_Some_2 wd idx Hlt) as [x Hx].
      pose proof (index_lookup _ _ _ Hx) as Hix. unfold index in Hix.
      by rewrite Hx, <- Hix, Hnth.
    + rewrite nth_overflow in Hnth by lia. discriminate.
  - unfold index. by destruct idx.
Qed.

Lemma jetOf_wellformed_witness :
  let j := mkJet (VStr "2000") (VNum 20%float) (Some 180%float) in
  let omJson := ContextSample.threeHours in
  true = true
  ∧ ∃ times ws,
      getProp "time" (getProp "hourly" omJson) = VArr times
      ∧ getProp "wind_speed_250hPa" (getProp "hourly" omJson) = VArr ws
      ∧ length ws = length times
      ∧ let idx := latestIndex (H := ContextSample.host) 2500 times in
        (∃ t, validTime j = VStr t ∧ times !! idx = Some (VStr t))
        ∧ (∃ s, speed_ms j = VNum s ∧ ws !! idx = Some (VNum s)
                ∧ Number_isFinite s = true)
        ∧ ∀ d, direction_deg j = Some d →
               Number_isFinite d = true
               ∧ ∃ wd, getProp "wind_direction_250hPa" (getProp "hourly" omJson)
                       = VArr wd
                       ∧ wd !! idx = Some (VNum d).
Proof.
  intros j omJson.
  apply (jetOf_wellformed (H := ContextSample.host) 2500 true 200 omJson j).
  reflexivity.
Defined.

Lemma toNum_finite `{Runtime} (v : option string) (n : float) :
  toNum v = Some n → Number_isFinite n = true.
Proof.
  destruct v as [s|]; [|discriminate]. simpl.
  destruct (Number_isFinite _) eqn:Hn; [|discriminate]. by intros [= <-].
Qed.

Lemma rarityAt_guarded `{Host} (fuel : nat) (grid : Grid) (lat lon : float) :
  Number_isFinite lon = true →
  (180 <? Math_abs lon)%float = false →
  ∃ r, rarityAt (S (S fuel)) grid lat lon = Some r
       ∧ rarityAt 2 grid lat lon = Some r
       ∧ rarity_resDeg r = resDeg grid
       ∧ label r = rarityLabel (score r).
Proof.
  intros Hfin Hrange. unfold rarityAt, cellKey.
  rewrite (clampLon_guarded fuel lon Hfin Hrange), (clampLon_guarded 0 lon Hfin Hrange).
  simpl. eexists. by repeat split.
Qed.

Lemma answerFresh_guarded `{Host} (fuel : nat) (g : Globals) (key : string)
    (lat lon : float) (now nowMs : Z) (om : FetchOutcome) (gridFile : result Grid) :
  Number_isFinite lon = true →
  (180 <? Math_abs lon)%float = false →
  ∃ o, answerFresh (S (S fuel)) g key lat lon now nowMs om gridFile = Some o
       ∧ answerFresh 2 g key lat lon now nowMs om gridFile = Some o.
Proof.
  intros Hfin Hrange. unfold answerFresh.
  destruct om as [msg|ok status [omJson|msg]]; try by eexists.
  destruct (jetOf nowMs ok status omJson) as [err|j]; [by eexists|].
  destruct (loadGrid (rarityGrid g) gridFile) as [[grid|msg] loaded]; [|by eexists].
  destruct (rarityAt_guarded fuel grid lat lon Hfin Hrange) as (r & -> & -> & _).
  simpl. by eexists.
Qed.

(** What a miss of the cache does to the globals and what it answers. *)
Lemma answerFresh_cases `{Host} (fuel : nat) (g : Globals) (key : string)
    (lat lon : float) (now nowMs : Z) (om : FetchOutcome) (gridFile : result Grid)
    (o : Outcome) :
  answerFresh fuel g key lat lon now nowMs om gridFile = Some o →
  (∀ grid, rarityGrid g = Some grid → rarityGrid (globalsAfter o) = Some grid)
  ∧ ((∃ v, response o = Returns (Ok200 v)
           ∧ hit v = false ∧ requested v = (lat, lon)
           ∧ label (rarityOf v) = rarityLabel (score (rarityOf v))
           ∧ (∃ ok status omJson,
                om = FetchResponds ok status (Returns omJson)
                ∧ jetOf nowMs ok status omJson = inr (jet v))
           ∧ contextCache (globalsAfter o)
             = <[key := mkEntry now v]> (contextCache g))
     ∨ (contextCache (globalsAfter o) = contextCache g
        ∧ match response o with
          | Returns (Err502 _ _ _) | Throws _ => True
          | Returns _ => False
          end)).
Proof.
  unfold answerFresh.
  destruct om as [msg|ok status [omJson|msg]];
    try (intros [= <-]; split; [done|by right]).
  destruct (jetOf nowMs ok status omJson) as [err|j] eqn:Hjet.
  { intros [= <-]. split; [done|]. right. split; [done|].
    by destruct (jetOf_error _ _ _ _ _ Hjet) as (error & st & reason & ->). }
  destruct (loadGrid (rarityGrid g) gridFile) as [[grid|msg] loaded] eqn:Hload.
  - destruct (rarityAt fuel grid lat lon) as [r|] eqn:Hr; [|discriminate].
    simpl. intros [= <-]. simpl. split.
    + intros grid' Hg. unfold loadGrid in Hload. rewrite Hg in Hload.
      by injection Hload as _ <-.
    + left. eexists. split; [done|]. split; [done|]. split; [done|]. split.
      * unfold rarityAt in Hr. destruct (cellKey _ _ _ _); [|discriminate].
        simpl in Hr. by injection Hr as <-.
      * split; [|done]. by exists ok, status, omJson.
  - intros [= <-]. simpl. split.
    + intros grid' Hg. unfold loadGrid in Hload. rewrite Hg in Hload. discriminate.
    + by right.
Qed.

(** X17. The handler returns: past its range check a longitude takes the loops
    of [clampLon] through at most one turn, so two tests of each loop are
    enough, and more change nothing. *)
Theorem GET_returns `{Runtime} `{Host} (fuel : nat) (g : Globals)
    (latParam lonParam : option string) (now nowMs : Z)
    (om : FetchOutcome) (gridFile : result Grid) :
  2 ≤ fuel →
  ∃ o, GET fuel g latParam lonParam now nowMs om gridFile = Some o
       ∧ GET 2 g latParam lonParam now nowMs om gridFile = Some o.
Proof.
  intros Hfuel. destruct fuel as [|[|fuel]]; [lia..|]. unfold GET.
  destruct (toNum latParam) as [lat|]; [|by eexists].
  destruct (toNum lonParam) as [lon|] eqn:Hlon; [|by eexists].
  apply toNum_finite in Hlon.
  destruct (90 <? Math_abs lat)%float; [by eexists|].
  destruct (180 <? Math_abs lon)%float eqn:Hrange; [by eexists|]. simpl.
  destruct (contextCache g !! cacheKey lat lon) as [c|];
    [destruct (now - ts c <? 10 * 60000)%Z; [by eexists|]|];
    by apply answerFresh_guarded.
Qed.

Lemma GET_returns_witness :
  ∃ o, GET (H := Sample.runtime) (H0 := ContextSample.host) 5
           ContextSample.noGlobals (Some "180") (Some "180") 0 2500
           (FetchResponds true 200 (Returns ContextSample.threeHours))
           (Returns ContextSample.emptyGrid) = Some o
       ∧ GET (H := Sample.runtime) (H0 := ContextSample.host) 2
             ContextSample.noGlobals (Some "180") (Some "180") 0 2500
             (FetchResponds true 200 (Returns ContextSample.threeHours))
             (Returns ContextSample.emptyGrid) = Some o.
Proof. apply GET_returns. lia. Defined.

(** The coordinates of a request are valid when both parameters are there
    and read as finite numbers, the latitude between -90 and 90 and the
    longitude between -180 and 180. *)
Lemma range_check (lat lon : float) :
  Number_isFinite lat = true → Number_isFinite lon = true →
  (90 <? Math_abs lat)%float || (180 <? Math_abs lon)%float = false
  ↔ (Math_abs lat <=? 90)%float = true ∧ (Math_abs lon <=? 180)%float = true.
Proof.
  intros Hlat Hlon. rewrite orb_false_iff. unfold Math_abs, Number_isFinite in *.
  split; intros [H1 H2]; split.
  - apply leb_of_not_ltb; [by apply abs_not_nan, is_finite_not_nan|done|done].
  - apply leb_of_not_ltb; [by apply abs_not_nan, is_finite_not_nan|done|done].
  - by apply ltb_of_leb.
  - by apply ltb_of_leb.
Qed.

(** X18. The handler answers 400 exactly when the coordinates are not valid: a
    parameter is missing or is no finite number, or the latitude is beyond
    90 or the longitude beyond 180 degrees.  It then leaves the globals as
    they are, and neither Open-Meteo nor the grid has a part in the
    answer. *)
Theorem GET_bad_request_iff `{Runtime} `{Host} (fuel : nat) (g : Globals)
    (latParam lonParam : option string) (now nowMs : Z)
    (om : FetchOutcome) (gridFile : result Grid) (o : Outcome) :
  GET fuel g latParam lonParam now nowMs om gridFile = Some o →
  let valid :=
    ∃ lat lon, toNum latParam = Some lat ∧ toNum lonParam = Some lon
               ∧ (Math_abs lat <=? 90)%float = true
               ∧ (Math_abs lon <=? 180)%float = true in
  ((∃ error, response o = Returns (Err400 error)) ↔ ¬ valid)
  ∧ (¬ valid →
     o = mkOutcome (Returns (Err400 "Missing/invalid lat/lon")) g
     ∧ ∀ fuel' now' nowMs' om' gridFile',
         GET fuel' g latParam lonParam now' nowMs' om' gridFile' = Some o).
Proof.
  intros Hget valid. unfold GET in Hget.
  assert (¬ valid →
          o = mkOutcome (Returns (Err400 "Missing/invalid lat/lon")) g
          ∧ ∀ fuel' now' nowMs' om' gridFile',
              GET fuel' g latParam lonParam now' nowMs' om' gridFile' = Some o)
    as Hbad.
  { intros Hnot. unfold GET.
    destruct (toNum latParam) as [lat|] eqn:Hlat;
      [|injection Hget as <-; by split].
    destruct (toNum lonParam) as [lon|] eqn:Hlon;
      [|injection Hget as <-; by split].
    destruct ((90 <? Math_abs lat)%float || (180 <? Math_abs lon)%float) eqn:Hr;
      [injection Hget as <-; by split|].
    destruct Hnot. exists lat, lon. split; [done|]. split; [done|].
    apply range_check; [by eapply toNum_finite..|done]. }
  split; [|done]. split.
  - intros [error Herr] (lat & lon & Hlat & Hlon & Hrange).
    rewrite Hlat, Hlon in Hget.
    pose proof (proj2 (range_check lat lon (toNum_finite _ _ Hlat)
                                   (toNum_finite _ _ Hlon)) Hrange) as Hr.
    rewrite Hr in Hget.
    assert (answerFresh fuel g (cacheKey lat lon) lat lon now nowMs om gridFile
            = Some o → False) as Hfresh.
    { intros [_ [(v & Hv & _)|[_ Hresp]]]%answerFresh_cases.
      - rewrite Hv in Herr. discriminate.
      - by rewrite Herr in Hresp. }
    destruct (contextCache g !! cacheKey lat lon) as [c|]; [|done].
    destruct (now - ts c <? 10 * 60000)%Z; [|done].
    injection Hget as <-. discriminate.
  - intros Hnot. destruct (Hbad Hnot) as [-> _]. by eexists.
Qed.

Lemma GET_bad_request_iff_witness :
  let valid :=
    ∃ lat lon, toNum (H := Sample.runtime) (Some "91") = Some lat
               ∧ toNum (H := Sample.runtime) (Some "10") = Some lon
               ∧ (Math_abs lat <=? 90)%float = true
               ∧ (Math_abs lon <=? 180)%float = true in
  let o := mkOutcome (Returns (Err400 "Missing/invalid lat/lon"))
                     ContextSample.noGlobals in
  ((∃ error, response o = Returns (Err400 error)) ↔ ¬ valid)
  ∧ (¬ valid →
     o = mkOutcome (Returns (Err400 "Missing/invalid lat/lon")) ContextSample.noGlobals
     ∧ ∀ fuel' now' nowMs' om' gridFile',
         GET (H := Sample.runtime) (H0 := ContextSample.host) fuel'
             ContextSample.noGlobals (Some "91") (Some "10")
             now' nowMs' om' gridFile' = Some o).
Proof.
  intros valid o.
  apply (GET_bad_request_iff (H := Sample.runtime) (H0 := ContextSample.host)
           2 ContextSample.noGlobals (Some "91") (Some "10") 0 0
           (FetchRejects "down") (Throws "no file") o).
  reflexivity.
Defined.


Lemma GET_first_call :
  GET (H := Sample.runtime) (H0 := ContextSample.host) 2
      ContextSample.noGlobals (Some "10") (Some "20") 7 2500
      (FetchResponds true 200 (Returns ContextSample.threeHours))
      (Returns ContextSample.emptyGrid)
  = Some (mkOutcome (Returns (Ok200 ContextSample.firstValue))
                    ContextSample.afterFirstCall).
Proof. vm_compute. reflexivity. Qed.


(** A fresh answer of status 200 is stored under the key of its
    coordinates, which passed the range check. *)
Lemma GET_fresh_stored `{Runtime} `{Host} (fuel : nat) (g : Globals)
    (latParam lonParam : option string) (now nowMs : Z)
    (om : FetchOutcome) (gridFile : result Grid) (o : Outcome) (v : ContextValue) :
  GET fuel g latParam lonParam now nowMs om gridFile = Some o →
  response o = Returns (Ok200 v) →
  hit v = false →
  ∃ lat lon,
    toNum latParam = Some lat ∧ toNum lonParam = Some lon
    ∧ (90 <? Math_abs lat)%float || (180 <? Math_abs lon)%float = false
    ∧ contextCache (globalsAfter o)
      = <[cacheKey lat lon := mkEntry now v]> (contextCache g).
Proof.
  intros Hget Hv Hhit. unfold GET in Hget.
  destruct (toNum latParam) as [lat|]; [|injection Hget as <-; discriminate Hv].
  destruct (toNum lonParam) as [lon|]; [|injection Hget as <-; discriminate Hv].
  destruct ((90 <? Math_abs lat)%float || (180 <? Math_abs lon)%float) eqn:Hr;
    [injection Hget as <-; discriminate Hv|].
  exists lat, lon. split; [done|]. split; [done|]. split; [done|].
  assert (answerFresh fuel g (cacheKey lat lon) lat lon now nowMs om gridFile
          = Some o →
          contextCache (globalsAfter o)
          = <[cacheKey lat lon := mkEntry now v]> (contextCache g)) as Hfresh.
  { intros [_ [(v' & Hv' & _ & _ & _ & _ & Hcache)|[_ Hresp]]]%answerFresh_cases.
    - rewrite Hv in Hv'. by injection Hv' as <-.
    - by rewrite Hv in Hresp. }
  destruct (contextCache g !! cacheKey lat lon) as [c|]; [|by apply Hfresh].
  destruct (now - ts c <? 10 * 60000)%Z; [|by apply Hfresh].
  injection Hget as <-. simpl in Hv. injection Hv as <-. discriminate Hhit.
Qed.

(** X20. A request answered afresh with status 200 is answered from the cache
    when it is repeated less than ten minutes later: with the same value,
    marked as a hit, whatever Open-Meteo and the grid file do then, and
    without a change of the globals. *)
Theorem GET_repeat_is_hit `{Runtime} `{Host} (fuel : nat) (g : Globals)
    (latParam lonParam : option string) (now nowMs : Z)
    (om : FetchOutcome) (gridFile : result Grid) (o : Outcome) (v : ContextValue) :
  GET fuel g latParam lonParam now nowMs om gridFile = Some o →
  response o = Returns (Ok200 v) →
  hit v = false →
  ∀ fuel' now' nowMs' om' gridFile',
    (now' - now < 600000)%Z →
    GET fuel' (globalsAfter o) latParam lonParam now' nowMs' om' gridFile'
    = Some (mkOutcome (Returns (Ok200 (withHit v))) (globalsAfter o)).
Proof.
  intros Hget Hv Hhit fuel' now' nowMs' om' gridFile' Hyoung.
  destruct (GET_fresh_stored _ _ _ _ _ _ _ _ _ _ Hget Hv Hhit)
    as (lat & lon & Hlat & Hlon & Hrange & Hcache).
  unfold GET. rewrite Hlat, Hlon, Hrange, Hcache, lookup_insert_eq. simpl.
  destruct (Z.ltb_spec (now' - now) (10 * 60000)) as [_|Hge]; [done|lia].
Qed.

Lemma GET_repeat_is_hit_witness :
  GET (H := Sample.runtime) (H0 := ContextSample.host) 2
      ContextSample.afterFirstCall (Some "10") (Some "20")
      599999 600500 (FetchRejects "fetch failed") (Throws "no such file")
  = Some (mkOutcome (Returns (Ok200 (withHit ContextSample.firstValue)))
                    ContextSample.afterFirstCall).
Proof.
  assert (599999 - 7 < 600000)%Z as Hyoung by lia. revert Hyoung.
  apply (GET_repeat_is_hit (H := Sample.runtime) (H0 := ContextSample.host)
           2 ContextSample.noGlobals (Some "10") (Some "20") 7 2500
           (FetchResponds true 200 (Returns ContextSample.threeHours))
           (Returns ContextSample.emptyGrid)
           (mkOutcome (Returns (Ok200 ContextSample.firstValue))
                      ContextSample.afterFirstCall)
           ContextSample.firstValue).
  - exact GET_first_call.
  - reflexivity.
  - reflexivity.
Defined.

End ContextFacts.
